(** * mp4.MediaSegment: a shallow embedding of [mp4/mediasegment.go]

    The segment aggregator of mp4ff: bookkeeping between index (sidx) boxes
    and fragments, the size / encode / describe traversals, re-fragmentation
    and the common-sample-duration check.

    Go pointers are addresses into a store ([ptr], [None] is nil), Go slices
    are lists, unsigned integers are [Z] with the wrap-around written out, a
    run-time panic (nil dereference, index out of range) is an outcome of its
    own.  The boxes' own methods live outside [mediasegment.go]; they are
    taken as an interface. *)

From stdpp Require Import base option list gmap strings pretty.
From Stdlib Require Import ZArith Lia.

Local Open Scope Z_scope.

(** ** Machine integers *)

Definition uint32_mod : Z := 2 ^ 32.
Definition uint64_mod : Z := 2 ^ 64.

Definition wrap32 (x : Z) : Z := x mod uint32_mod.
Definition wrap64 (x : Z) : Z := x mod uint64_mod.

Definition is_uint32 (x : Z) : Prop := 0 <= x < uint32_mod.

Global Instance is_uint32_dec (x : Z) : Decision (is_uint32 x).
Proof. unfold is_uint32. apply _. Defined.

(** ** Pointers, errors, outcomes *)

(** Addresses of the store. *)
Abbreviation loc := positive (only parsing).

(** A Go pointer: [None] is nil. *)
Abbreviation ptr := (option positive) (only parsing).

(** A Go [error] value, identified with its message. *)
Definition error := string.

(** What a call can do: return normally, return a non-nil error, or panic. *)
Inductive outcome (A : Type) : Type :=
| Done (a : A)
| Fail (e : error)
| Panic.
Arguments Done {A} a.
Arguments Fail {A} e.
Arguments Panic {A}.

(** State-and-outcome monad: Go code mutates the store and the writer as it
    goes, and what it has done stays done when it returns an error. *)
Definition M (St A : Type) : Type := St -> St * outcome A.

Definition ret {St A} (a : A) : M St A := fun st => (st, Done a).

Definition bind {St A B} (m : M St A) (k : A -> M St B) : M St B :=
  fun st =>
    match m st with
    | (st', Done a) => k a st'
    | (st', Fail e) => (st', Fail e)
    | (st', Panic) => (st', Panic)
    end.

Definition fail {St A} (e : error) : M St A := fun st => (st, Fail e).
Definition panic {St A} : M St A := fun st => (st, Panic).

Declare Scope go_scope.
Delimit Scope go_scope with go.
Notation "x <- c1 ;; c2" := (bind c1 (fun x => c2))
  (at level 100, c1 at next level, right associativity) : go_scope.
Notation "c1 ;; c2" := (bind c1 (fun _ => c2))
  (at level 100, right associativity) : go_scope.
Local Open Scope go_scope.

(** [for _, x := range xs { body x }] *)
Fixpoint for_each {St A} (body : A -> M St unit) (xs : list A) : M St unit :=
  match xs with
  | [] => ret tt
  | x :: xs' => body x ;; for_each body xs'
  end.

(** ** The segment record *)

(** Modelled from the spec: the declaration of [EncOptimize] and of its
    constants is not in [mediasegment.go]; the spec gives an "enumerated
    strategy (none / optimized)". *)
Inductive EncOptimize : Type := OptimizeNone | OptimizeTrun.

Global Instance EncOptimize_eq_dec : EqDecision EncOptimize.
Proof. solve_decision. Defined.

Record MediaSegment : Type := mkMediaSegment {
  Styp : ptr;                    (* *StypBox *)
  Sidx : ptr;                    (* *SidxBox, the first sidx box in a segment *)
  SidxsByFrag : list (list ptr); (* [][]*SidxBox *)
  Fragments : list ptr;          (* []*Fragment *)
  SegEncOptimize : EncOptimize;
  StartPos : Z                   (* uint64 *)
}.

Definition set_Sidx (p : ptr) (s : MediaSegment) : MediaSegment :=
  mkMediaSegment (Styp s) p (SidxsByFrag s) (Fragments s) (SegEncOptimize s) (StartPos s).

Definition set_SidxsByFrag (b : list (list ptr)) (s : MediaSegment) : MediaSegment :=
  mkMediaSegment (Styp s) (Sidx s) b (Fragments s) (SegEncOptimize s) (StartPos s).

Definition set_Fragments (fs : list ptr) (s : MediaSegment) : MediaSegment :=
  mkMediaSegment (Styp s) (Sidx s) (SidxsByFrag s) fs (SegEncOptimize s) (StartPos s).

(** [NewMediaSegmentWithStyp]; [NewMediaSegment] is this one at the pointer
    that [CreateStyp()] returns. *)
Definition NewMediaSegmentWithStyp (styp : ptr) : MediaSegment :=
  mkMediaSegment styp None [] [] OptimizeNone 0.

Definition NewMediaSegmentWithoutStyp : MediaSegment :=
  NewMediaSegmentWithStyp None.

(** ** Mutation *)

(** [AddSidx]: [None] is the index-out-of-range panic of
    [s.SidxsByFrag[len(s.Fragments)]]. *)
Definition AddSidx (s : MediaSegment) (sidx : ptr) : option MediaSegment :=
  let s1 := match Sidx s with
            | None => set_Sidx sidx s
            | Some _ => s
            end in
  let s2 := if decide (length (SidxsByFrag s1) = length (Fragments s1))
            then set_SidxsByFrag (SidxsByFrag s1 ++ [[]]) s1
            else s1 in
  let i := length (Fragments s2) in
  match SidxsByFrag s2 !! i with
  | Some bucket => Some (set_SidxsByFrag (<[i := bucket ++ [sidx]]> (SidxsByFrag s2)) s2)
  | None => None
  end.

Definition AddFragment (s : MediaSegment) (f : ptr) : MediaSegment :=
  let s1 := set_Fragments (Fragments s ++ [f]) s in
  if decide (length (SidxsByFrag s1) < length (Fragments s1))%nat
  then set_SidxsByFrag (SidxsByFrag s1 ++ [[]]) s1
  else s1.

(** [LastFragment] *)
Definition LastFragment (s : MediaSegment) : ptr :=
  match Fragments s with
  | [] => None
  | _ => default None (Fragments s !! (length (Fragments s) - 1)%nat)
  end.

(** A collaborator's calls, interleaved. *)
Inductive Call : Type :=
| CallAddSidx (sidx : ptr)
| CallAddFragment (f : ptr).

Definition call (s : MediaSegment) (c : Call) : option MediaSegment :=
  match c with
  | CallAddSidx p => AddSidx s p
  | CallAddFragment p => Some (AddFragment s p)
  end.

(** The segment after each call of the sequence, in order; [None] if one
    of the calls panics. *)
Fixpoint trace (s : MediaSegment) (cs : list Call) : option (list MediaSegment) :=
  match cs with
  | [] => Some []
  | c :: cs' =>
      match call s c with
      | None => None
      | Some s' =>
          match trace s' cs' with
          | None => None
          | Some ss => Some (s' :: ss)
          end
      end
  end.

(** The segment a sequence of calls ends in. *)
Fixpoint run (s : MediaSegment) (cs : list Call) : option MediaSegment :=
  match cs with
  | [] => Some s
  | c :: cs' =>
      match call s c with
      | None => None
      | Some s' => run s' cs'
      end
  end.

(** The bucket invariant of the [SidxsByFrag] field comment. *)
Definition buckets_ok (s : MediaSegment) : Prop :=
  length (SidxsByFrag s) = length (Fragments s) ∨
  length (SidxsByFrag s) = S (length (Fragments s)).

(** First non-nil pointer of a list, nil if there is none. *)
Fixpoint first_non_nil (ps : list ptr) : ptr :=
  match ps with
  | [] => None
  | Some l :: _ => Some l
  | None :: ps' => first_non_nil ps'
  end.

(** [Sidx] is the first non-nil box of the buckets read in order. *)
Definition Sidx_ok (s : MediaSegment) : Prop :=
  buckets_ok s ∧ Sidx s = first_non_nil (concat (SidxsByFrag s)).

(** Bucket 0 starts with the box that [Sidx] names. *)
Definition Sidx_heads (l : loc) (s : MediaSegment) : Prop :=
  buckets_ok s ∧ Sidx s = Some l ∧ ∃ b, SidxsByFrag s !! 0%nat = Some (Some l :: b).

(** ** Collaborators

    The box kinds, the fragment and the two encode targets are declared in
    other files of [mp4] and [bits]. *)

Class Types : Type := {
  Writer : Type;       (* the state behind an io.Writer *)
  SliceWriter : Type;  (* the state behind a bits.SliceWriter *)
  StypBox : Type;
  SidxBox : Type;
  TrexBox : Type;
  FragData : Type      (* what a Fragment holds besides the fields read here *)
}.

(** Modelled from the spec: the declaration of the full sample is not in
    [mediasegment.go]; "Sample: duration, size, flags, payload reference
    (opaque to this core)". *)
Record FullSample : Type := mkFullSample {
  Dur : Z;         (* uint32 *)
  SampleSize : Z;
  Flags : Z;
  Data : list Z
}.

Global Instance FullSample_eq_dec : EqDecision FullSample.
Proof. solve_decision. Defined.

(** The part of the fragment's box tree that [Fragmentify] reads:
    [inFrag.Moof.Traf.Tfhd.TrackID] and [inFrag.Moof.Mfhd.SequenceNumber].
    Every link is a pointer. *)
Record TfhdBox : Type := mkTfhd { TrackID : Z }.
Record MfhdBox : Type := mkMfhd { SequenceNumber : Z }.
Record TrafBox : Type := mkTraf { Tfhd : option TfhdBox }.
Record MoofBox : Type := mkMoof { Mfhd : option MfhdBox; Traf : option TrafBox }.

Record Fragment `{Types} : Type := mkFragment {
  Moof : option MoofBox;
  FragEncOptimize : EncOptimize;
  Body : FragData
}.

Definition set_FragEncOptimize `{Types} (o : EncOptimize) (f : Fragment) : Fragment :=
  mkFragment _ (Moof f) o (Body f).

(** Modelled from the spec: the Box interface is not in [mediasegment.go];
    "Box capability set: size() -> non-negative integer, encode(stream) ->
    failure|success, encode(buffer_with_cursor) -> failure|success,
    describe(writer, level-selector, indent, indent_step) ->
    failure|success".  The encode and describe methods act on their target
    and read the box; a size is never negative. *)
Class Box `{Types} (B : Type) : Type := {
  box_Size : B -> Z;  (* uint64 *)
  box_Encode : B -> M Writer unit;
  box_EncodeSW : B -> M SliceWriter unit;
  box_Info : B -> string -> string -> string -> M Writer unit;
  box_Size_nonneg : forall b, 0 <= box_Size b
}.

(** Modelled from the spec: the fragment's own methods and the slice
    writer's cursor are not in [mediasegment.go]; "Fragment capability set
    (superset of Box): extract_full_samples(defaults) -> sequence of Sample |
    failure, append_full_sample_to_track(sample, track_id) ->
    failure|success, common_sample_duration(defaults) -> duration | failure,
    constructor new(sequence_number, track_id) -> Fragment | failure", and
    "a pre-sized random-access buffer with an internal write cursor".
    [frag_samples] is the view of a fragment the sample claims are stated
    on: the samples it holds, each with its track id, in order. *)
Class Collaborators `{Types} : Type := {
  styp_Box :: Box StypBox;
  sidx_Box :: Box SidxBox;
  frag_Box :: Box Fragment;
  sw_Offset : SliceWriter -> Z;
  GetFullSamples : Fragment -> option TrexBox -> outcome (list FullSample);
  frag_CommonSampleDuration : Fragment -> option TrexBox -> outcome Z;
  CreateFragment : Z -> Z -> outcome Fragment;
  AddFullSampleToTrack : FullSample -> Z -> M Fragment unit;
  frag_samples : Fragment -> list (Z * FullSample)
}.

Section Model.
Context `{Collaborators}.

(** ** The store *)

Record Heap : Type := mkHeap {
  styps : gmap loc StypBox;
  sidxs : gmap loc SidxBox;
  frags : gmap loc Fragment
}.

Definition set_frags (m : gmap loc Fragment) (h : Heap) : Heap :=
  mkHeap (styps h) (sidxs h) m.

(** Dereference: nil (or an address with nothing behind it) panics. *)
Definition deref {B} (m : gmap loc B) (p : ptr) : outcome B :=
  match p with
  | None => Panic
  | Some l =>
      match m !! l with
      | Some b => Done b
      | None => Panic
      end
  end.

Definition of_outcome {St A} (r : outcome A) : M St A := fun st => (st, r).

(** Run an action on the second component of the state. *)
Definition on_target {S1 S2 A} (m : M S2 A) : M (S1 * S2) A :=
  fun st => let '(w', r) := m st.2 in ((st.1, w'), r).

Definition load_styp {W} (p : ptr) : M (Heap * W) StypBox :=
  fun st => (st, deref (styps st.1) p).
Definition load_sidx {W} (p : ptr) : M (Heap * W) SidxBox :=
  fun st => (st, deref (sidxs st.1) p).
Definition load_frag {W} (p : ptr) : M (Heap * W) Fragment :=
  fun st => (st, deref (frags st.1) p).

(** [f.EncOptimize = o] *)
Definition store_EncOptimize {W} (p : ptr) (o : EncOptimize) : M (Heap * W) unit :=
  fun st =>
    match p with
    | None => (st, Panic)
    | Some l =>
        match frags st.1 !! l with
        | None => (st, Panic)
        | Some f => ((set_frags (<[l := set_FragEncOptimize o f]> (frags st.1)) st.1, st.2), Done tt)
        end
    end.

(** [xs[i]] *)
Definition index {St A} (xs : list A) (i : nat) : M St A :=
  fun st => match xs !! i with
            | Some x => (st, Done x)
            | None => (st, Panic)
            end.

(** [for i, x := range xs { body i x }] *)
Fixpoint range_from {St A} (body : nat -> A -> M St unit) (i : nat) (xs : list A) : M St unit :=
  match xs with
  | [] => ret tt
  | x :: xs' => body i x ;; range_from body (S i) xs'
  end.

Definition range {St A} (body : nat -> A -> M St unit) (xs : list A) : M St unit :=
  range_from body 0%nat xs.

(** ** Size / Encode / EncodeSW / Info *)

(** [size += x] on a uint64 *)
Definition add_size (x : Z) : M Z unit := fun size => (wrap64 (size + x), Done tt).

Definition Size_walk (s : MediaSegment) : M (Heap * Z) unit :=
  match Styp s with
  | Some _ => b <- load_styp (Styp s) ;; on_target (add_size (box_Size b))
  | None => ret tt
  end ;;
  range (fun i f =>
    bucket <- index (SidxsByFrag s) i ;;
    for_each (fun sidx => b <- load_sidx sidx ;; on_target (add_size (box_Size b))) bucket ;;
    fr <- load_frag f ;;
    on_target (add_size (box_Size fr))) (Fragments s).

Definition Size (h : Heap) (s : MediaSegment) : outcome Z :=
  match Size_walk s (h, 0) with
  | (st, Done _) => Done st.2
  | (_, Fail e) => Fail e
  | (_, Panic) => Panic
  end.

Definition Encode (s : MediaSegment) : M (Heap * Writer) unit :=
  match Styp s with
  | Some _ => b <- load_styp (Styp s) ;; on_target (box_Encode b)
  | None => ret tt
  end ;;
  range (fun i f =>
    bucket <- index (SidxsByFrag s) i ;;
    for_each (fun sidx => b <- load_sidx sidx ;; on_target (box_Encode b)) bucket ;;
    store_EncOptimize f (SegEncOptimize s) ;;
    fr <- load_frag f ;;
    on_target (box_Encode fr)) (Fragments s).

Definition EncodeSW (s : MediaSegment) : M (Heap * SliceWriter) unit :=
  match Styp s with
  | Some _ => b <- load_styp (Styp s) ;; on_target (box_EncodeSW b)
  | None => ret tt
  end ;;
  range (fun i f =>
    bucket <- index (SidxsByFrag s) i ;;
    for_each (fun sidx => b <- load_sidx sidx ;; on_target (box_EncodeSW b)) bucket ;;
    store_EncOptimize f (SegEncOptimize s) ;;
    fr <- load_frag f ;;
    on_target (box_EncodeSW fr)) (Fragments s).

Definition Info (s : MediaSegment) (specificBoxLevels indent indentStep : string)
  : M (Heap * Writer) unit :=
  match Styp s with
  | Some _ => b <- load_styp (Styp s) ;;
              on_target (box_Info b specificBoxLevels indent indentStep)
  | None => ret tt
  end ;;
  range (fun i f =>
    bucket <- index (SidxsByFrag s) i ;;
    for_each (fun sidx => b <- load_sidx sidx ;;
                          on_target (box_Info b specificBoxLevels indent indentStep)) bucket ;;
    fr <- load_frag f ;;
    on_target (box_Info fr specificBoxLevels indent indentStep)) (Fragments s).

(** ** CommonSampleDuration *)

(** The body of the loop of [CommonSampleDuration]; the state is [commonDur]. *)
Definition CommonSampleDuration_body (h : Heap) (trex : option TrexBox)
    (i : nat) (frag : ptr) : M Z unit :=
  fr <- of_outcome (deref (frags h) frag) ;;
  fun commonDur =>
    match frag_CommonSampleDuration fr trex with
    | Panic => (commonDur, Panic)
    | Fail err => (commonDur, Fail ("fragment.CommonSampleDuration: " +:+ err))
    | Done cDur =>
        if decide (i = 0%nat) then (cDur, Done tt)
        else if decide (commonDur ≠ cDur)
             then (commonDur,
                   Fail ("different common sample duration in fragment "
                         +:+ pretty (i + 1)%nat))
             else (commonDur, Done tt)
    end.

Definition CommonSampleDuration_loop (h : Heap) (trex : option TrexBox) (fs : list ptr)
  : M Z unit :=
  range (CommonSampleDuration_body h trex) fs.

Definition CommonSampleDuration (h : Heap) (s : MediaSegment) (trex : option TrexBox)
  : outcome Z :=
  match trex with
  | None => Fail "trex not set"
  | Some _ =>
      match CommonSampleDuration_loop h trex (Fragments s) 0 with
      | (commonDur, Done _) => Done commonDur
      | (_, Fail e) => Fail e
      | (_, Panic) => Panic
      end
  end.

(** What the fragment behind [frag] reports as its common sample duration. *)
Definition reported (h : Heap) (trex : option TrexBox) (frag : ptr) : outcome Z :=
  match deref (frags h) frag with
  | Done fr => frag_CommonSampleDuration fr trex
  | Fail e => Fail e
  | Panic => Panic
  end.

(** Modelled from the spec: [Fragment.CommonSampleDuration] is declared
    outside [mediasegment.go]; "compute each fragment's common
    (modal/uniform) sample duration via the fragment's own resolver, then
    require all fragments to report the same non-zero value", and the doc
    comment of [CommonSampleDuration]: "returns a common non-zero sample
    duration".  The resolver of the fragments at [fs] answers with a
    non-zero duration or fails. *)
Definition resolver_nonzero (h : Heap) (trex : option TrexBox) (fs : list ptr) : Prop :=
  ∀ frag c, frag ∈ fs → reported h trex frag = Done c → c ≠ 0.

(** ** Fragmentify *)

(** The local variables of [Fragmentify], with the store. *)
Record FragmentifyState : Type := mkFragmentifyState {
  heap : Heap;
  outFragments : list ptr;
  of_ : ptr;  (* the local [of] *)
  cumDur : Z  (* uint32 *)
}.

(** [inFrag.Moof.Traf.Tfhd.TrackID] *)
Definition read_TrackID (inFrag : Fragment) : outcome Z :=
  match Moof inFrag with
  | Some moof =>
      match Traf moof with
      | Some traf =>
          match Tfhd traf with
          | Some tfhd => Done (TrackID tfhd)
          | None => Panic
          end
      | None => Panic
      end
  | None => Panic
  end.

(** [inFrag.Moof.Mfhd.SequenceNumber] *)
Definition read_SequenceNumber (inFrag : Fragment) : outcome Z :=
  match Moof inFrag with
  | Some moof =>
      match Mfhd moof with
      | Some mfhd => Done (SequenceNumber mfhd)
      | None => Panic
      end
  | None => Panic
  end.

Definition load (p : ptr) : M FragmentifyState Fragment :=
  fun st => (st, deref (frags (heap st)) p).

(** [of, err = CreateFragment(seq, trackID); outFragments = append(outFragments, of)]:
    the new fragment lives at an address that is not in use. *)
Definition open_fragment (seq trackID : Z) : M FragmentifyState unit :=
  fun st =>
    match CreateFragment seq trackID with
    | Panic => (st, Panic)
    | Fail e => (st, Fail e)
    | Done f =>
        let l := fresh (dom (frags (heap st))) in
        (mkFragmentifyState (set_frags (<[l := f]> (frags (heap st))) (heap st))
                            (outFragments st ++ [Some l]) (Some l) (cumDur st),
         Done tt)
    end.

(** [err = of.AddFullSampleToTrack(s, trackID)] *)
Definition add_to_open_fragment (smp : FullSample) (trackID : Z) : M FragmentifyState unit :=
  fun st =>
    match of_ st with
    | None => (st, Panic)
    | Some l =>
        match frags (heap st) !! l with
        | None => (st, Panic)
        | Some f =>
            let '(f', r) := AddFullSampleToTrack smp trackID f in
            (mkFragmentifyState (set_frags (<[l := f']> (frags (heap st))) (heap st))
                                (outFragments st) (of_ st) (cumDur st),
             r)
        end
    end.

Definition set_cumDur (c : Z) : M FragmentifyState unit :=
  fun st => (mkFragmentifyState (heap st) (outFragments st) (of_ st) c, Done tt).

Definition get_cumDur : M FragmentifyState Z := fun st => (st, Done (cumDur st)).

(** The body of the inner loop, for one sample of [inFrag]. *)
Definition place_sample (inFrag : ptr) (trackID duration : Z) (smp : FullSample)
  : M FragmentifyState unit :=
  c <- get_cumDur ;;
  (if decide (c = 0)
   then fr <- load inFrag ;;
        seq <- of_outcome (read_SequenceNumber fr) ;;
        open_fragment seq trackID
   else ret tt) ;;
  add_to_open_fragment smp trackID ;;
  c <- get_cumDur ;;
  set_cumDur (wrap32 (c + Dur smp)) ;;
  c <- get_cumDur ;;
  if decide (c >= duration) then set_cumDur 0 else ret tt.

(** The body of the outer loop, for one input fragment. *)
Definition split_fragment (trex : option TrexBox) (duration : Z) (inFrag : ptr)
  : M FragmentifyState unit :=
  fr <- load inFrag ;;
  trackID <- of_outcome (read_TrackID fr) ;;
  fr <- load inFrag ;;
  samples <- of_outcome (GetFullSamples fr trex) ;;
  for_each (place_sample inFrag trackID duration) samples.

Definition Fragmentify (s : MediaSegment) (timescale : Z) (trex : option TrexBox)
  (duration : Z) : M Heap (list ptr) :=
  fun h =>
    let inFragments := Fragments s in
    match for_each (split_fragment trex duration) inFragments
            (mkFragmentifyState h [] None 0) with
    | (st, Done _) => (heap st, Done (outFragments st))
    | (st, Fail e) => (heap st, Fail e)
    | (st, Panic) => (heap st, Panic)
    end.

(** ** What the claims are stated on *)

(** A box of the segment, by kind and address. *)
Inductive BoxRef : Type :=
| RefStyp (p : ptr)
| RefSidx (p : ptr)
| RefFrag (p : ptr).

(** The boxes of a segment in stream order: the styp box first, then for
    each fragment its sidx boxes in append order, then the fragment. *)
Definition boxes_of_fragment (f : ptr) (bucket : list ptr) : list BoxRef :=
  (RefSidx <$> bucket) ++ [RefFrag f].

Definition traversal (s : MediaSegment) : list BoxRef :=
  match Styp s with
  | Some _ => [RefStyp (Styp s)]
  | None => []
  end ++ concat (zip_with boxes_of_fragment (Fragments s) (SidxsByFrag s)).

(** What each traversal does at one box. *)
Definition size_box (r : BoxRef) : M (Heap * Z) unit :=
  match r with
  | RefStyp p => b <- load_styp p ;; on_target (add_size (box_Size b))
  | RefSidx p => b <- load_sidx p ;; on_target (add_size (box_Size b))
  | RefFrag p => b <- load_frag p ;; on_target (add_size (box_Size b))
  end.

Definition encode_box (o : EncOptimize) (r : BoxRef) : M (Heap * Writer) unit :=
  match r with
  | RefStyp p => b <- load_styp p ;; on_target (box_Encode b)
  | RefSidx p => b <- load_sidx p ;; on_target (box_Encode b)
  | RefFrag p => store_EncOptimize p o ;; b <- load_frag p ;; on_target (box_Encode b)
  end.

Definition encodeSW_box (o : EncOptimize) (r : BoxRef) : M (Heap * SliceWriter) unit :=
  match r with
  | RefStyp p => b <- load_styp p ;; on_target (box_EncodeSW b)
  | RefSidx p => b <- load_sidx p ;; on_target (box_EncodeSW b)
  | RefFrag p => store_EncOptimize p o ;; b <- load_frag p ;; on_target (box_EncodeSW b)
  end.

Definition info_box (lv ind step : string) (r : BoxRef) : M (Heap * Writer) unit :=
  match r with
  | RefStyp p => b <- load_styp p ;; on_target (box_Info b lv ind step)
  | RefSidx p => b <- load_sidx p ;; on_target (box_Info b lv ind step)
  | RefFrag p => b <- load_frag p ;; on_target (box_Info b lv ind step)
  end.

(** The fragment pointers among a list of boxes, in order. *)
Fixpoint frag_ptrs (rs : list BoxRef) : list ptr :=
  match rs with
  | [] => []
  | RefFrag p :: rs' => p :: frag_ptrs rs'
  | _ :: rs' => frag_ptrs rs'
  end.

(** The store of fragments after [f.EncOptimize = o] at each of [ps]. *)
Definition project (o : EncOptimize) (ps : list ptr) (m : gmap loc Fragment)
  : gmap loc Fragment :=
  foldl (fun m p => match p with
                    | Some l => alter (set_FragEncOptimize o) l m
                    | None => m
                    end) m ps.

(** Two stores that differ at most in fragments' [EncOptimize] fields, where
    the second has [o]. *)
Definition only_flags (o : EncOptimize) (h h' : Heap) : Prop :=
  styps h' = styps h ∧ sidxs h' = sidxs h ∧
  ∀ l, frags h' !! l = frags h !! l ∨
       frags h' !! l = set_FragEncOptimize o <$> frags h !! l.

(** The [EncOptimize] field of the fragment at [l], if there is one. *)
Definition flag (h : Heap) (l : loc) : option EncOptimize :=
  FragEncOptimize <$> frags h !! l.

(** From [h] to [h'], the fragments at [ps] have been given the flag [o],
    and the flags of the other fragments are as they were. *)
Definition assigned (o : EncOptimize) (ps : list ptr) (h h' : Heap) : Prop :=
  ∀ l, flag h' l = if decide (Some l ∈ ps) then (λ _, o) <$> flag h l else flag h l.
(** [size()] of the box behind a reference. *)
Definition size_at (h : Heap) (r : BoxRef) : outcome Z :=
  match r with
  | RefStyp p => match deref (styps h) p with
                 | Done b => Done (box_Size b) | Fail e => Fail e | Panic => Panic end
  | RefSidx p => match deref (sidxs h) p with
                 | Done b => Done (box_Size b) | Fail e => Fail e | Panic => Panic end
  | RefFrag p => match deref (frags h) p with
                 | Done b => Done (box_Size b) | Fail e => Fail e | Panic => Panic end
  end.

(** The sum of the sizes of a list of boxes, as a mathematical integer. *)
Fixpoint sum_sizes (h : Heap) (rs : list BoxRef) : option Z :=
  match rs with
  | [] => Some 0
  | r :: rs' =>
      match size_at h r, sum_sizes h rs' with
      | Done n, Some m => Some (n + m)
      | _, _ => None
      end
  end.

(** Assigning [o] to the [EncOptimize] field of a fragment among [rs] does
    not change what its [Size()] returns. *)
Definition flag_blind (o : EncOptimize) (h : Heap) (rs : list BoxRef) : Prop :=
  ∀ l f, RefFrag (Some l) ∈ rs → frags h !! l = Some f →
         box_Size (set_FragEncOptimize o f) = box_Size f.

(** The box behind [r], as [EncodeSW] of a segment encodes it (a fragment
    after [f.EncOptimize = o]): when its [EncodeSW] succeeds, the cursor has
    moved by its [Size()]. *)
Definition writes_its_size (o : EncOptimize) (h : Heap) (r : BoxRef) : Prop :=
  match r with
  | RefStyp p =>
      ∀ b, deref (styps h) p = Done b →
           ∀ w w', box_EncodeSW b w = (w', Done tt) →
                   sw_Offset w' = sw_Offset w + box_Size b
  | RefSidx p =>
      ∀ b, deref (sidxs h) p = Done b →
           ∀ w w', box_EncodeSW b w = (w', Done tt) →
                   sw_Offset w' = sw_Offset w + box_Size b
  | RefFrag p =>
      ∀ f, deref (frags h) p = Done f →
           ∀ w w', box_EncodeSW (set_FragEncOptimize o f) w = (w', Done tt) →
                   sw_Offset w' = sw_Offset w + box_Size (set_FragEncOptimize o f)
  end.

(** The index expression [s.SidxsByFrag[i]] of the loop over the fragments
    panics at the first fragment without a bucket. *)
Definition bucket_check {St} (s : MediaSegment) : M St unit :=
  if decide (length (Fragments s) ≤ length (SidxsByFrag s))%nat then ret tt else panic.

(** The samples of the fragments at [ps], each with its track id, in order;
    [None] if one of the pointers is nil. *)
Fixpoint samples_at (m : gmap loc Fragment) (ps : list ptr) : option (list (list (Z * FullSample))) :=
  match ps with
  | [] => Some []
  | p :: ps' =>
      match p with
      | Some l =>
          match m !! l, samples_at m ps' with
          | Some f, Some rest => Some (frag_samples f :: rest)
          | _, _ => None
          end
      | None => None
      end
  end.

(** The full samples that [GetFullSamples] extracts from the fragments at
    [ps], each with the track id of its fragment, in order. *)
Fixpoint extracted (m : gmap loc Fragment) (trex : option TrexBox) (ps : list ptr)
  : option (list (Z * FullSample)) :=
  match ps with
  | [] => Some []
  | p :: ps' =>
      match deref m p with
      | Done fr =>
          match read_TrackID fr, GetFullSamples fr trex, extracted m trex ps' with
          | Done t, Done smps, Some rest => Some (((fun x => (t, x)) <$> smps) ++ rest)
          | _, _, _ => None
          end
      | _ => None
      end
  end.

(** [Fragmentify] on the samples alone: the groups of samples that the
    output fragments hold, and [cumDur]. *)
Fixpoint add_last {A} (x : A) (gs : list (list A)) : list (list A) :=
  match gs with
  | [] => []
  | [g] => [g ++ [x]]
  | g :: gs' => g :: add_last x gs'
  end.

Definition place (duration : Z) (acc : list (list (Z * FullSample)) * Z)
    (x : Z * FullSample) : list (list (Z * FullSample)) * Z :=
  let gs := if decide (acc.2 = 0) then acc.1 ++ [[]] else acc.1 in
  let c := wrap32 (acc.2 + Dur x.2) in
  (add_last x gs, if decide (c >= duration) then 0 else c).

Definition grouping (duration : Z) (xs : list (Z * FullSample))
  : list (list (Z * FullSample)) * Z :=
  foldl (place duration) ([], 0) xs.

(** How the state of [Fragmentify] stands to the store [h0] it started from
    and to the groups [gs] of samples placed so far: the fragments of [h0]
    are as they were, the output fragments are new, distinct and hold [gs],
    and [of] is the last of them. *)
Definition Fragmentify_inv (h0 : Heap) (gs : list (list (Z * FullSample)))
    (st : FragmentifyState) : Prop :=
  (∀ l, is_Some (frags h0 !! l) → frags (heap st) !! l = frags h0 !! l) ∧
  NoDup (outFragments st) ∧
  (∀ l, Some l ∈ outFragments st → frags h0 !! l = None) ∧
  of_ st = default None (last (outFragments st)) ∧
  samples_at (frags (heap st)) (outFragments st) = Some gs.

(** No pointer of [ps] is dangling. *)
Definition no_dangling (m : gmap loc Fragment) (ps : list ptr) : Prop :=
  ∀ l, Some l ∈ ps → is_Some (m !! l).

Definition total_dur (g : list (Z * FullSample)) : Z :=
  foldr (fun x acc => Dur x.2 + acc) 0 g.

(** An output fragment that the loop has left behind: it reached the
    target, or it is one sample of duration zero. *)
Definition closed (duration : Z) (g : list (Z * FullSample)) : Prop :=
  duration <= total_dur g ∨ ∃ x, g = [x] ∧ Dur x.2 = 0.

(** What [place] keeps true of the groups and [cumDur]. *)
Definition groups_ok (duration : Z) (acc : list (list (Z * FullSample)) * Z) : Prop :=
  Forall (fun g => g ≠ []) acc.1 ∧
  Forall (Forall (fun x => is_uint32 (Dur x.2))) acc.1 ∧
  (acc.1 = [] → acc.2 = 0) ∧
  ∀ gs' g, acc.1 = gs' ++ [g] →
    Forall (closed duration) gs' ∧
    (acc.2 = 0 → closed duration g) ∧
    (acc.2 ≠ 0 → acc.2 = wrap32 (total_dur g) ∧ 0 < total_dur g).

End Model.

(** ** A concrete set of collaborators

    Boxes are their own encodings; a fragment carries two encodings (plain
    and trun-optimized), the samples it holds, what its duration resolver
    answers and whether its encoder is broken. *)

Module Demo.

Record Data : Type := mkData {
  plain : list Z;
  optimized : list Z;
  held : list (Z * FullSample);
  common : outcome Z;
  broken : option error
}.

Definition types : Types :=
  {| Writer := list Z; SliceWriter := list Z; StypBox := list Z; SidxBox := list Z;
     TrexBox := unit; FragData := Data |}.

Definition write (b : list Z) : M (list Z) unit := fun w => (w ++ b, Done tt).

Definition bytes_Box : @Box types (list Z) :=
  @Build_Box types (list Z)
    (fun b => Z.of_nat (length b)) write write (fun b _ _ _ => write b)
    (fun b => Nat2Z.is_nonneg (length b)).

Definition frag_bytes (f : @Fragment types) : list Z :=
  match FragEncOptimize f with
  | OptimizeNone => plain (Body f)
  | OptimizeTrun => optimized (Body f)
  end.

Definition frag_write (f : @Fragment types) : M (list Z) unit :=
  match broken (Body f) with
  | Some e => fail e
  | None => write (frag_bytes f)
  end.

Definition fragment_Box : @Box types (@Fragment types) :=
  @Build_Box types (@Fragment types)
    (fun f => Z.of_nat (length (frag_bytes f))) frag_write frag_write
    (fun f _ _ _ => frag_write f)
    (fun f => Nat2Z.is_nonneg (length (frag_bytes f))).

Definition moof_of (seq trackID : Z) : MoofBox :=
  mkMoof (Some (mkMfhd seq)) (Some (mkTraf (Some (mkTfhd trackID)))).

Definition new_fragment (seq trackID : Z) : @Fragment types :=
  mkFragment types (Some (moof_of seq trackID)) OptimizeNone
             (mkData [] [] [] (Fail "no samples") None).

Definition add_sample (smp : FullSample) (trackID : Z) : M (@Fragment types) unit :=
  fun f =>
    let d := Body f in
    (mkFragment types (Moof f) (FragEncOptimize f)
                (mkData (plain d) (optimized d) (held d ++ [(trackID, smp)]) (common d) (broken d)),
     Done tt).

(** Sample durations are uint32. *)
Definition get_samples (f : @Fragment types) (trex : option unit) : outcome (list FullSample) :=
  let smps := snd <$> held (Body f) in
  if decide (Forall (fun smp => is_uint32 (Dur smp)) smps)
  then Done smps
  else Fail "sample duration out of range".

Definition collaborators : @Collaborators types :=
  @Build_Collaborators types bytes_Box bytes_Box fragment_Box
    (fun sw : list Z => Z.of_nat (length sw))
    get_samples
    (fun f _ => common (Body f))
    (fun seq trackID => Done (new_fragment seq trackID))
    add_sample
    (fun f => held (Body f)).

(** A fragment of track 1 with the given encodings and resolver answer. *)
Definition fragment (o : EncOptimize) (p q : list Z) (c : outcome Z) (e : option error)
  : @Fragment types :=
  mkFragment types (Some (moof_of 7 1)) o (mkData p q [] c e).

(** A fragment of track 1 holding samples of the given durations. *)
Definition sample (d : Z) : FullSample := mkFullSample d 1 0 [d].

Definition fragment_of (seq : Z) (durs : list Z) : @Fragment types :=
  mkFragment types (Some (moof_of seq 1)) OptimizeNone
             (mkData [] [] ((fun d => (1, sample d)) <$> durs) (Fail "unused") None).

(** A fragment of track [trackID] holding samples of the given durations. *)
Definition fragment_on (seq trackID : Z) (durs : list Z) : @Fragment types :=
  mkFragment types (Some (moof_of seq trackID)) OptimizeNone
             (mkData [] [] ((fun d => (trackID, sample d)) <$> durs) (Fail "unused") None).

Definition store_of (styps sidxs : list (loc * list Z)) (fs : list (loc * @Fragment types))
  : @Heap types :=
  @mkHeap types (list_to_map styps) (list_to_map sidxs) (list_to_map fs).

Definition store (fs : list (loc * @Fragment types)) : @Heap types := store_of [] [] fs.

(** The [EncOptimize] field of the fragment at [l]. *)
Definition flag_at (h : @Heap types) (l : loc) : option EncOptimize :=
  @FragEncOptimize types <$> frags h !! l.

Definition segment (o : EncOptimize) (buckets : list (list ptr)) (fs : list ptr) : MediaSegment :=
  mkMediaSegment None None buckets fs o 0.

End Demo.

(** ** The rest of [mediasegment.go] *)

(** Modelled from the spec: the [Children] field of a fragment and
    [CreateStyp] are declared outside [mediasegment.go]; "the first child
    box of the first fragment" and "created empty (with or without a
    segment-type box)".  The children of a fragment are read off the
    fragment; [CreateStyp] is the box that [CreateStyp()] builds. *)
Class FragmentTree `{Types} : Type := {
  ChildBox : Type;
  frag_Children : Fragment -> list ChildBox;
  CreateStyp : StypBox
}.

(** A value of the [Box] interface, as [FirstBox] returns it. *)
Inductive AnyBox `{FragmentTree} : Type :=
| BoxOfStyp (p : ptr)
| BoxOfSidx (p : ptr)
| BoxOfChild (c : ChildBox).

Section Lookup.
Context `{Collaborators} `{!FragmentTree}.

(** [NewMediaSegment]: the styp box that [CreateStyp()] builds is new in
    the store. *)
Definition NewMediaSegment : M Heap MediaSegment :=
  fun h =>
    let l := fresh (dom (styps h)) in
    (mkHeap (<[l := CreateStyp]> (styps h)) (sidxs h) (frags h),
     Done (NewMediaSegmentWithStyp (Some l))).

(** [FirstBox] *)
Definition FirstBox (h : Heap) (s : MediaSegment) : outcome AnyBox :=
  match Styp s with
  | Some _ => Done (BoxOfStyp (Styp s))
  | None =>
      match SidxsByFrag s with
      | (sidx :: _) :: _ => Done (BoxOfSidx sidx)
      | _ =>
          match Fragments s with
          | f :: _ =>
              match deref (frags h) f with
              | Done fr =>
                  match frag_Children fr with
                  | c :: _ => Done (BoxOfChild c)
                  | [] => Fail "no boxes in segment"
                  end
              | Fail e => Fail e
              | Panic => Panic
              end
          | [] => Fail "no boxes in segment"
          end
      end
  end.

End Lookup.

(** The box a call appends, the fragments and the sidx boxes of a sequence
    of calls, in order. *)
Definition call_ref (c : Call) : BoxRef :=
  match c with
  | CallAddSidx p => RefSidx p
  | CallAddFragment p => RefFrag p
  end.

Fixpoint frag_args (cs : list Call) : list ptr :=
  match cs with
  | [] => []
  | CallAddFragment p :: cs' => p :: frag_args cs'
  | CallAddSidx _ :: cs' => frag_args cs'
  end.

Fixpoint sidx_args (cs : list Call) : list ptr :=
  match cs with
  | [] => []
  | CallAddSidx p :: cs' => p :: sidx_args cs'
  | CallAddFragment _ :: cs' => sidx_args cs'
  end.

(** The sidx boxes appended since the last fragment: the bucket of the
    fragment to come. *)
Definition pending (s : MediaSegment) : list ptr :=
  default [] (SidxsByFrag s !! length (Fragments s)).

(** The styp box of a segment, as the traversals meet it. *)
Definition styp_ref (styp : ptr) : list BoxRef :=
  match styp with
  | Some _ => [RefStyp styp]
  | None => []
  end.

(** A group of samples cut at the first sample that reaches the target:
    without its last sample it stays under the target. *)
Definition tight (duration : Z) (g : list (Z * FullSample)) : Prop :=
  ∀ g0 x, g = g0 ++ [x] → g0 ≠ [] → total_dur g0 < duration.

(** What [place] keeps true of the groups and [cumDur] as long as [cumDur]
    does not wrap around. *)
Definition tight_groups (duration : Z) (acc : list (list (Z * FullSample)) * Z) : Prop :=
  0 <= acc.2 ∧
  (acc.1 = [] → acc.2 = 0) ∧
  ∀ gs' g, acc.1 = gs' ++ [g] →
    Forall (tight duration) gs' ∧ tight duration g ∧
    (acc.2 ≠ 0 → acc.2 = total_dur g ∧ acc.2 < duration).

Module DemoTree.

Definition tree : @FragmentTree Demo.types :=
  @Build_FragmentTree Demo.types (list Z)
    (fun f => (fun b => [b]) <$> Demo.plain (Body f))
    [115; 116; 121; 112].

End DemoTree.

(** ** What [Fragmentify] appends to the fragments it creates

    To read off a run of [Fragmentify] which calls it made on a fragment,
    every fragment carries a journal: the arguments of the [CreateFragment]
    call that made it, and the sample and track id of every
    [AddFullSampleToTrack] call on it, in call order.  The journal is kept
    by collaborators that do what the given ones do and note their
    arguments; [Fragmentify] is the same function, run with them. *)

Record Journal : Type := mkJournal {
  made_with : option (Z * Z);      (* sequence number and track id given to CreateFragment *)
  appended : list (Z * FullSample) (* track id and sample given to AddFullSampleToTrack *)
}.

Definition outcome_map {A B} (g : A -> B) (r : outcome A) : outcome B :=
  match r with
  | Done a => Done (g a)
  | Fail e => Fail e
  | Panic => Panic
  end.

Section Recording.
Context {T : Types} {C : @Collaborators T}.

Definition recording_types : Types :=
  {| Writer := @Writer T; SliceWriter := @SliceWriter T; StypBox := @StypBox T;
     SidxBox := @SidxBox T; TrexBox := @TrexBox T; FragData := @FragData T * Journal |}.

(** A fragment without its journal, the journal of a fragment, and a
    fragment with a journal. *)
Definition forget (f : @Fragment recording_types) : @Fragment T :=
  mkFragment T (Moof f) (FragEncOptimize f) (Body f).1.

Definition journal (f : @Fragment recording_types) : Journal := (Body f).2.

Definition with_journal (j : Journal) (f : @Fragment T) : @Fragment recording_types :=
  mkFragment recording_types (Moof f) (FragEncOptimize f) (Body f, j).

(** A box of the given collaborators, as a box of the recording ones. *)
Definition same_box {B} (b : @Box T B) : @Box recording_types B :=
  @Build_Box recording_types B
    (@box_Size T B b) (@box_Encode T B b) (@box_EncodeSW T B b) (@box_Info T B b)
    (@box_Size_nonneg T B b).

Definition recording : @Collaborators recording_types :=
  @Build_Collaborators recording_types
    (same_box (@styp_Box T C))
    (same_box (@sidx_Box T C))
    (@Build_Box recording_types (@Fragment recording_types)
       (fun f => @box_Size T _ (@frag_Box T C) (forget f))
       (fun f => @box_Encode T _ (@frag_Box T C) (forget f))
       (fun f => @box_EncodeSW T _ (@frag_Box T C) (forget f))
       (fun f => @box_Info T _ (@frag_Box T C) (forget f))
       (fun f => @box_Size_nonneg T _ (@frag_Box T C) (forget f)))
    (@sw_Offset T C)
    (fun f trex => @GetFullSamples T C (forget f) trex)
    (fun f trex => @frag_CommonSampleDuration T C (forget f) trex)
    (fun seq trackID =>
       outcome_map (with_journal (mkJournal (Some (seq, trackID)) []))
                   (@CreateFragment T C seq trackID))
    (fun smp trackID f =>
       let '(f', r) := @AddFullSampleToTrack T C smp trackID (forget f) in
       (with_journal (mkJournal (made_with (journal f))
                                (appended (journal f) ++ [(trackID, smp)])) f', r))
    (fun f => appended (journal f)).

Definition forget_heap (h : @Heap recording_types) : @Heap T :=
  @mkHeap T (styps h) (sidxs h) (forget <$> frags h).

(** A store whose fragments have empty journals. *)
Definition unrecorded (h : @Heap T) : @Heap recording_types :=
  @mkHeap recording_types (styps h) (sidxs h)
          (with_journal (mkJournal None []) <$> frags h).

Definition forget_state (st : @FragmentifyState recording_types) : @FragmentifyState T :=
  @mkFragmentifyState T (forget_heap (heap st)) (outFragments st) (of_ st) (cumDur st).

(** [m] does on the fragments what [mR] does on the fragments with their
    journals. *)
Definition mirrors {A B} (g : A -> B)
    (mR : M (@FragmentifyState recording_types) A) (m : M (@FragmentifyState T) B) : Prop :=
  ∀ st, m (forget_state st) = (forget_state (mR st).1, outcome_map g (mR st).2).

(** The journals of the fragments at [ps], in order; [None] if a pointer
    is nil or dangling. *)
Fixpoint journals_at (m : gmap loc (@Fragment recording_types)) (ps : list ptr)
  : option (list Journal) :=
  match ps with
  | [] => Some []
  | p :: ps' =>
      match p with
      | Some l =>
          match m !! l, journals_at m ps' with
          | Some f, Some rest => Some (journal f :: rest)
          | _, _ => None
          end
      | None => None
      end
  end.

(** The track id in the fragment header, [Moof.Traf.Tfhd.TrackID]; [None]
    where a link is nil. *)
Definition track_of (f : @Fragment T) : option Z :=
  moof ← Moof f; traf ← Traf moof; tfhd ← Tfhd traf; Some (TrackID tfhd).

(** The full samples of the fragments at [ps], each with the track id in
    the header of its fragment, in order. *)
Fixpoint input_samples (m : gmap loc (@Fragment T)) (trex : option TrexBox) (ps : list ptr)
  : option (list (Z * FullSample)) :=
  match ps with
  | [] => Some []
  | p :: ps' =>
      fr ← p ≫= (m !!.);
      t ← track_of fr;
      match GetFullSamples fr trex with
      | Done smps =>
          rest ← input_samples m trex ps';
          Some (((fun x => (t, x)) <$> smps) ++ rest)
      | _ => None
      end
  end.

(** A journal of a fragment that was created for the track of the first
    sample appended to it. *)
Definition well_made (j : Journal) : Prop :=
  ∃ seq t smp rest, made_with j = Some (seq, t) ∧ appended j = (t, smp) :: rest.

(** Every output fragment has such a journal; and the same where the
    fragment just opened for track [t] may still be empty. *)
Definition journals_ok (st : @FragmentifyState recording_types) : Prop :=
  ∀ l, Some l ∈ outFragments st →
    ∃ f, frags (heap st) !! l = Some f ∧ well_made (journal f).

Definition journals_open (t : Z) (st : @FragmentifyState recording_types) : Prop :=
  ∀ l, Some l ∈ outFragments st →
    ∃ f, frags (heap st) !! l = Some f ∧
      (well_made (journal f) ∨
       (of_ st = Some l ∧ ∃ seq, made_with (journal f) = Some (seq, t)
                                 ∧ appended (journal f) = [])).

End Recording.

(** * Proofs *)

(** ** The bucket bookkeeping of [AddSidx] and [AddFragment] *)

Lemma AddFragment_buckets_ok s f : buckets_ok s → buckets_ok (AddFragment s f).
Proof.
  unfold buckets_ok, AddFragment. simpl. rewrite length_app. simpl.
  intros [Hl | Hl]; case_decide; simpl; rewrite ?length_app; simpl; lia.
Qed.

Lemma AddSidx_buckets_ok s p :
  buckets_ok s → ∃ s', AddSidx s p = Some s' ∧ buckets_ok s' ∧ Fragments s' = Fragments s.
Proof.
  unfold buckets_ok, AddSidx. intros Hl.
  destruct (Sidx s); simpl; case_decide as Heq; simpl.
  all: try (rewrite lookup_app_r by lia; rewrite Heq, Nat.sub_diag; simpl;
            eexists; split; [done|]; simpl; rewrite length_insert, length_app; simpl;
            split; [lia | done]).
  all: destruct (lookup_lt_is_Some_2 (SidxsByFrag s) (length (Fragments s))) as [b Hbk];
         [lia|]; rewrite Hbk; eexists; split; [done|]; simpl; rewrite length_insert;
         split; [lia | done].
Qed.

Lemma call_buckets_ok s c : buckets_ok s → ∃ s', call s c = Some s' ∧ buckets_ok s'.
Proof.
  intros Hs. destruct c as [p | p]; simpl.
  - destruct (AddSidx_buckets_ok s p Hs) as (s' & ? & ? & _); eauto.
  - eauto using AddFragment_buckets_ok.
Qed.

Lemma trace_buckets_ok cs : ∀ s,
  buckets_ok s → ∃ ss, trace s cs = Some ss ∧ Forall buckets_ok ss.
Proof.
  induction cs as [| c cs IH]; intros s Hs; simpl.
  - exists []. split; [done | constructor].
  - destruct (call_buckets_ok s c Hs) as (s' & -> & Hs').
    destruct (IH s' Hs') as (ss & -> & Hss).
    exists (s' :: ss). split; [done | by constructor].
Qed.

Lemma New_buckets_ok styp : buckets_ok (NewMediaSegmentWithStyp styp).
Proof. by left. Qed.

(** C1. From an empty segment, whatever the interleaving of [AddSidx] and
    [AddFragment] calls, no call panics and after each of them
    [len(SidxsByFrag)] is [len(Fragments)] or [len(Fragments) + 1]. *)
Theorem bucket_count_invariant (styp : ptr) (cs : list Call) :
  ∃ ss, trace (NewMediaSegmentWithStyp styp) cs = Some ss ∧
        length ss = length cs ∧
        Forall (λ s, length (SidxsByFrag s) = length (Fragments s) ∨
                     length (SidxsByFrag s) = (length (Fragments s) + 1)%nat) ss.
Proof.
  destruct (trace_buckets_ok cs _ (New_buckets_ok styp)) as (ss & Htr & Hss).
  exists ss. split; [done|]. split.
  - clear Hss. revert Htr. generalize (NewMediaSegmentWithStyp styp). revert ss.
    induction cs as [| c cs IH]; intros ss s; simpl.
    + by intros [= <-].
    + destruct (call s c) as [s'|]; [|done].
      destruct (trace s' cs) as [ss'|] eqn:Hss'; [|done].
      intros [= <-]. simpl. f_equal. by eapply IH.
  - eapply Forall_impl; [exact Hss|]. unfold buckets_ok. intros s. lia.
Qed.

(** ** [Sidx] and the first index box *)

Lemma first_non_nil_app ps qs :
  first_non_nil (ps ++ qs) =
  match first_non_nil ps with
  | Some l => Some l
  | None => first_non_nil qs
  end.
Proof. induction ps as [| [l|] ps IH]; simpl; auto. Qed.

Lemma concat_insert_last (bs : list (list ptr)) i b b' x :
  length bs = S i → bs !! i = Some b → b' = b ++ [x] →
  concat (<[i := b']> bs) = concat bs ++ [x].
Proof.
  intros Hlen Hb ->. revert i Hlen Hb.
  induction bs as [| b0 bs IH]; intros i Hlen Hb; [done|].
  destruct i as [| i]; simpl in *.
  - destruct bs; [|done]. simplify_eq. simpl. by rewrite !app_nil_r.
  - rewrite (IH i) by (done || lia). by rewrite app_assoc.
Qed.

(** What [AddSidx] does to a segment that satisfies the bucket invariant:
    the box goes to the end of the last bucket. *)
Lemma AddSidx_concat s p s' :
  buckets_ok s → AddSidx s p = Some s' →
  concat (SidxsByFrag s') = concat (SidxsByFrag s) ++ [p] ∧
  Sidx s' = match Sidx s with Some l => Some l | None => p end.
Proof.
  unfold buckets_ok, AddSidx. intros Hl.
  destruct (Sidx s) eqn:HS; simpl; case_decide as Heq; simpl.
  all: try (rewrite lookup_app_r by lia; rewrite Heq, Nat.sub_diag; simpl;
            intros [= <-]; simpl; rewrite ?HS; split; [|done];
            rewrite (concat_insert_last _ _ [] _ p);
            [ by rewrite concat_app; simpl; rewrite !app_nil_r
            | rewrite length_app; simpl; lia
            | rewrite lookup_app_r by lia; by rewrite Heq, Nat.sub_diag
            | done ]).
  all: destruct (SidxsByFrag s !! length (Fragments s)) as [b|] eqn:Hb; [|done];
       intros [= <-]; simpl; rewrite ?HS; split; [|done];
       eapply concat_insert_last; [lia | done | done].
Qed.

Lemma AddFragment_concat s f :
  concat (SidxsByFrag (AddFragment s f)) = concat (SidxsByFrag s) ∧
  Sidx (AddFragment s f) = Sidx s.
Proof.
  unfold AddFragment. case_decide; simpl; [|done].
  rewrite concat_app. simpl. by rewrite !app_nil_r.
Qed.

Lemma call_Sidx_ok s c : Sidx_ok s → ∃ s', call s c = Some s' ∧ Sidx_ok s'.
Proof.
  intros [Hb HS]. destruct (call_buckets_ok s c Hb) as (s' & Hc & Hb').
  exists s'. split; [done|]. split; [done|]. destruct c as [p | p]; simpl in Hc.
  - destruct (AddSidx_concat s p s' Hb Hc) as [-> ->].
    rewrite first_non_nil_app, <- HS. destruct (Sidx s); [done|]. by destruct p.
  - simplify_eq. destruct (AddFragment_concat s p) as [-> ->]. done.
Qed.

Lemma run_Sidx_ok cs : ∀ s, Sidx_ok s → ∃ s', run s cs = Some s' ∧ Sidx_ok s'.
Proof.
  induction cs as [| c cs IH]; intros s Hs; simpl; [eauto|].
  destruct (call_Sidx_ok s c Hs) as (s1 & -> & Hs1). eauto.
Qed.

Lemma call_Sidx_heads l s c : Sidx_heads l s → ∃ s', call s c = Some s' ∧ Sidx_heads l s'.
Proof.
  intros (Hb & HS & b & H0). destruct (call_buckets_ok s c Hb) as (s' & Hc & Hb').
  exists s'. split; [done|]. split; [done|]. destruct c as [p | p]; simpl in Hc.
  - destruct (AddSidx_concat s p s' Hb Hc) as [_ ->]. rewrite HS. split; [done|].
    revert Hc. unfold AddSidx. rewrite HS. case_decide as Heq; simpl.
    + rewrite lookup_app_r by lia. rewrite Heq, Nat.sub_diag. simpl. intros [= <-]. simpl.
      assert (length (Fragments s) ≠ 0)%nat.
      { apply lookup_lt_Some in H0. lia. }
      rewrite list_lookup_insert_ne by done. rewrite lookup_app_l by (by eapply lookup_lt_Some).
      eauto.
    + destruct (SidxsByFrag s !! length (Fragments s)) as [b'|] eqn:Hb2; [|done].
      intros [= <-]. simpl. destruct (decide (length (Fragments s) = 0%nat)) as [Hz | Hz].
      * rewrite Hz in *. simplify_eq. rewrite list_lookup_insert_eq by (by eapply lookup_lt_Some).
        simpl. eauto.
      * rewrite list_lookup_insert_ne by done. eauto.
  - simplify_eq. destruct (AddFragment_concat s p) as [_ ->]. split; [done|].
    unfold AddFragment. case_decide; simpl; [|eauto].
    rewrite lookup_app_l by (by eapply lookup_lt_Some). eauto.
Qed.

Lemma run_Sidx_heads l cs : ∀ s, Sidx_heads l s → ∃ s', run s cs = Some s' ∧ Sidx_heads l s'.
Proof.
  induction cs as [| c cs IH]; intros s Hs; simpl; [eauto|].
  destruct (call_Sidx_heads l s c Hs) as (s1 & -> & Hs1). eauto.
Qed.

(** C6, as amended. From an empty segment, after any sequence of [AddSidx]
    and [AddFragment] calls, [Sidx] is the first non-nil box of the buckets
    read in order (the first index box ever appended); it is
    [SidxsByFrag[0][0]] when the first call of the sequence was an [AddSidx]
    of a non-nil box. *)
Theorem Sidx_is_first_appended (styp : ptr) (cs : list Call) :
  (∃ s, run (NewMediaSegmentWithStyp styp) cs = Some s ∧
        Sidx s = first_non_nil (concat (SidxsByFrag s))) ∧
  (∀ l, ∃ s b, run (NewMediaSegmentWithStyp styp) (CallAddSidx (Some l) :: cs) = Some s ∧
               Sidx s = Some l ∧ SidxsByFrag s !! 0%nat = Some (Some l :: b)).
Proof.
  split.
  - destruct (run_Sidx_ok cs (NewMediaSegmentWithStyp styp)) as (s & Hr & _ & HS).
    + split; [apply New_buckets_ok | done].
    + eauto.
  - intros l. simpl.
    destruct (run_Sidx_heads l cs
                (mkMediaSegment styp (Some l) [[Some l]] [] OptimizeNone 0))
      as (s & Hr & _ & HS & b & H0).
    + split; [by right|]. split; [done|]. by exists [].
    + exists s, b. done.
Qed.

(** ** The monad and its loops *)

Lemma bind_ext {St A B} (m m' : M St A) (k k' : A → M St B) st :
  m st = m' st → (∀ a st', k a st' = k' a st') → bind m k st = bind m' k' st.
Proof. unfold bind. intros -> Hk. destruct (m' st) as [st' [a | e |]]; auto. Qed.

Lemma bind_assoc {St A B C} (m : M St A) (k : A → M St B) (k' : B → M St C) st :
  bind (bind m k) k' st = bind m (λ a, bind (k a) k') st.
Proof. unfold bind. destruct (m st) as [st' [a | e |]]; auto. Qed.

Lemma bind_ret_r {St} (m : M St unit) st : bind m (λ _, ret tt) st = m st.
Proof. unfold bind, ret. destruct (m st) as [st' [[] | e |]]; auto. Qed.

Lemma bind_Done {St A B} (m : M St A) (k : A → M St B) st st' b :
  bind m k st = (st', Done b) ↔ ∃ st1 a, m st = (st1, Done a) ∧ k a st1 = (st', Done b).
Proof.
  unfold bind. destruct (m st) as [st1 [a | e |]]; split.
  all: try (intros (? & ? & [=] & ?); by subst).
  all: try done.
  eauto.
Qed.

Lemma for_each_app {St A} (v : A → M St unit) xs ys st :
  for_each v (xs ++ ys) st = bind (for_each v xs) (λ _, for_each v ys) st.
Proof.
  revert st. induction xs as [| x xs IH]; intros st; simpl; [done|].
  rewrite bind_assoc. apply bind_ext; auto.
Qed.

Lemma for_each_fmap {St A B} (g : A → B) (v : B → M St unit) xs st :
  for_each v (g <$> xs) st = for_each (λ x, v (g x)) xs st.
Proof.
  revert st. induction xs as [| x xs IH]; intros st; simpl; [done|].
  apply bind_ext; auto.
Qed.

(** Where a loop over a list stops: at the first element whose body does
    not return normally, with that outcome and in the state the body left. *)
Lemma for_each_stops {St A} (v : A → M St unit) pre x post st st1 st2 r :
  for_each v pre st = (st1, Done tt) → v x st1 = (st2, r) → r ≠ Done tt →
  for_each v (pre ++ x :: post) st = (st2, r).
Proof.
  intros Hpre Hx Hr. rewrite for_each_app. unfold bind at 1. rewrite Hpre. simpl.
  unfold bind. rewrite Hx. destruct r as [[] | e |]; done.
Qed.

Section Proofs.
Context `{Collaborators}.

(** ** The traversals visit [traversal s] in order *)

Lemma range_from_flat {St} (v : BoxRef → M St unit) (bs : list (list ptr))
    (body : nat → ptr → M St unit) :
  (∀ i f st, body i f st
             = (bucket <- index bs i ;; for_each v (boxes_of_fragment f bucket)) st) →
  ∀ fs i st,
    range_from body i fs st
    = (for_each v (concat (zip_with boxes_of_fragment fs (drop i bs))) ;;
       if decide (length fs ≤ length (drop i bs))%nat then ret tt else panic) st.
Proof.
  intros Hbody. induction fs as [| f fs IH]; intros i st.
  - simpl. done.
  - simpl. destruct (drop i bs) as [| b rest] eqn:Hdrop.
    + simpl. unfold bind at 1. rewrite Hbody. unfold bind at 1, index.
      assert (bs !! i = None) as ->.
      { apply lookup_ge_None. apply (f_equal length) in Hdrop.
        rewrite length_drop in Hdrop. simpl in Hdrop. lia. }
      repeat case_decide; simpl in *; done || lia.
    + assert (bs !! i = Some b) as Hi.
      { rewrite <- (Nat.add_0_r i), <- lookup_drop, Hdrop. done. }
      assert (drop (S i) bs = rest) as Hrest.
      { rewrite (drop_S _ _ _ Hi) in Hdrop. by simplify_eq. }
      simpl.
      transitivity
        (bind (for_each v (boxes_of_fragment f b))
              (λ _, for_each v (concat (zip_with boxes_of_fragment fs rest)) ;;
                    if decide (length fs ≤ length rest)%nat then ret tt else panic) st).
      * unfold bind at 1. rewrite Hbody. unfold bind at 1, index. rewrite Hi.
        unfold bind at 1.
        destruct (for_each v (boxes_of_fragment f b) st) as [st1 [[] | e |]]; [|done..].
        rewrite IH, Hrest. done.
      * rewrite <- bind_assoc. apply bind_ext.
        -- by rewrite for_each_app.
        -- intros _ st'. repeat case_decide; simpl in *; done || lia.
Qed.

Lemma walk_flat {St} (v : BoxRef → M St unit) (s : MediaSegment)
    (on_styp : M St unit) (body : nat → ptr → M St unit) :
  (∀ st, on_styp st = v (RefStyp (Styp s)) st) →
  (∀ i f st, body i f st
             = (bucket <- index (SidxsByFrag s) i ;;
                for_each v (boxes_of_fragment f bucket)) st) →
  ∀ st,
    (match Styp s with Some _ => on_styp | None => ret tt end ;;
     range body (Fragments s)) st
    = (for_each v (traversal s) ;; bucket_check s) st.
Proof.
  intros Hstyp Hbody st. unfold traversal, range, bucket_check.
  destruct (Styp s) as [l|] eqn:HS.
  - simpl. rewrite !bind_assoc. apply bind_ext; [by rewrite Hstyp|].
    intros _ st'. rewrite (range_from_flat v _ body Hbody). by rewrite drop_0.
  - simpl. unfold bind at 1, ret at 1.
    rewrite (range_from_flat v _ body Hbody). by rewrite drop_0.
Qed.

Lemma for_each_boxes_of_fragment {St} (v : BoxRef → M St unit) f bucket st :
  for_each v (boxes_of_fragment f bucket) st
  = (for_each (λ sidx, v (RefSidx sidx)) bucket ;; v (RefFrag f)) st.
Proof.
  unfold boxes_of_fragment. rewrite for_each_app. apply bind_ext.
  - apply for_each_fmap.
  - intros _ st'. simpl. apply bind_ret_r.
Qed.

Lemma Size_walk_flat s st :
  Size_walk s st = (for_each size_box (traversal s) ;; bucket_check s) st.
Proof.
  unfold Size_walk. apply (walk_flat size_box); [done|].
  intros i f st'. apply bind_ext; [done|]. intros bucket st2.
  rewrite for_each_boxes_of_fragment. done.
Qed.

Lemma Encode_flat s st :
  Encode s st
  = (for_each (encode_box (SegEncOptimize s)) (traversal s) ;; bucket_check s) st.
Proof.
  unfold Encode. apply (walk_flat (encode_box (SegEncOptimize s))); [done|].
  intros i f st'. apply bind_ext; [done|]. intros bucket st2.
  rewrite for_each_boxes_of_fragment. done.
Qed.

Lemma EncodeSW_flat s st :
  EncodeSW s st
  = (for_each (encodeSW_box (SegEncOptimize s)) (traversal s) ;; bucket_check s) st.
Proof.
  unfold EncodeSW. apply (walk_flat (encodeSW_box (SegEncOptimize s))); [done|].
  intros i f st'. apply bind_ext; [done|]. intros bucket st2.
  rewrite for_each_boxes_of_fragment. done.
Qed.

Lemma Info_flat s lv ind step st :
  Info s lv ind step st
  = (for_each (info_box lv ind step) (traversal s) ;; bucket_check s) st.
Proof.
  unfold Info. apply (walk_flat (info_box lv ind step)); [done|].
  intros i f st'. apply bind_ext; [done|]. intros bucket st2.
  rewrite for_each_boxes_of_fragment. done.
Qed.

(** ** Failures inside a traversal *)

(** C8, as amended. When the call on a box of the traversal fails, [Encode],
    [EncodeSW] and [Info] stop there: they return the error of that call as
    it is, with no context added, and leave the store and the target as that
    call left them. *)
Theorem failure_returned_unchanged (s : MediaSegment) (pre post : list BoxRef)
    (x : BoxRef) (e : error) (lv ind step : string) :
  traversal s = pre ++ x :: post →
  (∀ st st1 st2,
     for_each (encode_box (SegEncOptimize s)) pre st = (st1, Done tt) →
     encode_box (SegEncOptimize s) x st1 = (st2, Fail e) →
     Encode s st = (st2, Fail e)) ∧
  (∀ st st1 st2,
     for_each (encodeSW_box (SegEncOptimize s)) pre st = (st1, Done tt) →
     encodeSW_box (SegEncOptimize s) x st1 = (st2, Fail e) →
     EncodeSW s st = (st2, Fail e)) ∧
  (∀ st st1 st2,
     for_each (info_box lv ind step) pre st = (st1, Done tt) →
     info_box lv ind step x st1 = (st2, Fail e) →
     Info s lv ind step st = (st2, Fail e)).
Proof.
  intros Htr. repeat split; intros st st1 st2 Hpre Hx.
  - rewrite Encode_flat. unfold bind. rewrite Htr.
    by rewrite (for_each_stops _ pre x post st st1 st2 (Fail e)).
  - rewrite EncodeSW_flat. unfold bind. rewrite Htr.
    by rewrite (for_each_stops _ pre x post st st1 st2 (Fail e)).
  - rewrite Info_flat. unfold bind. rewrite Htr.
    by rewrite (for_each_stops _ pre x post st st1 st2 (Fail e)).
Qed.

(** ** What encoding does to the store *)

Lemma set_frags_id (h : Heap) : set_frags (frags h) h = h.
Proof. by destruct h. Qed.

Lemma only_flags_refl o h : only_flags o h h.
Proof. repeat split; auto. Qed.

Lemma only_flags_trans o h1 h2 h3 :
  only_flags o h1 h2 → only_flags o h2 h3 → only_flags o h1 h3.
Proof.
  intros (Ha & Hb & Hc) (Ha' & Hb' & Hc'). repeat split; [congruence..|].
  intros l. destruct (Hc l) as [H1 | H1], (Hc' l) as [H2 | H2]; rewrite H2, H1; auto.
  right. destruct (frags h1 !! l); done.
Qed.

Lemma store_EncOptimize_spec {W} p o (st st' : Heap * W) r :
  store_EncOptimize p o st = (st', r) →
  match r with
  | Done _ => ∃ l f, p = Some l ∧ frags st.1 !! l = Some f ∧
                     st' = (set_frags (alter (set_FragEncOptimize o) l (frags st.1)) st.1, st.2)
  | _ => st' = st
  end.
Proof.
  unfold store_EncOptimize. destruct p as [l|]; [|by intros [= <- <-]].
  destruct (frags st.1 !! l) as [f|] eqn:Hl; intros [= <- <-]; [|done].
  exists l, f. repeat split; try done. do 2 f_equal.
  apply map_eq. intros l'. rewrite lookup_alter. case_decide as Hll.
  - subst l'. by rewrite lookup_insert_eq, Hl.
  - by rewrite lookup_insert_ne.
Qed.

Lemma alter_only_flags o l (h : Heap) :
  only_flags o h (set_frags (alter (set_FragEncOptimize o) l (frags h)) h).
Proof.
  repeat split. intros l'. simpl. rewrite lookup_alter. case_decide; subst; auto.
Qed.

(** The three kinds of step of a traversal, as far as the store goes. *)
Lemma load_then_target_heap {W B} (ld : M (Heap * W) B) (op : B → M W unit) st st' r :
  (∀ st0, (ld st0).1 = st0) →
  (b <- ld ;; on_target (op b)) st = (st', r) → st'.1 = st.1.
Proof.
  intros Hld. unfold bind, on_target. specialize (Hld st).
  destruct (ld st) as [st0 [b | e |]]; simpl in Hld; subst st0.
  - destruct (op b st.2) as [w' r']. by intros [= <- <-].
  - by intros [= <- <-].
  - by intros [= <- <-].
Qed.

Lemma frag_step_heap {W} (op : Fragment → M W unit) p o (st st' : Heap * W) r :
  (store_EncOptimize p o ;; b <- load_frag p ;; on_target (op b)) st = (st', r) →
  only_flags o st.1 st'.1 ∧
  (r = Done tt →
   ∃ l f, p = Some l ∧ frags st.1 !! l = Some f ∧
          st'.1 = set_frags (alter (set_FragEncOptimize o) l (frags st.1)) st.1).
Proof.
  unfold bind at 1.
  destruct (store_EncOptimize p o st) as [st1 r1] eqn:Hst.
  apply store_EncOptimize_spec in Hst.
  destruct r1 as [[] | e |]; try (intros [= <- <-]; subst st1; split; [apply only_flags_refl | done]).
  destruct Hst as (l & f & -> & Hl & ->). intros Hrest.
  apply load_then_target_heap in Hrest; [|done]. simpl in Hrest. rewrite Hrest.
  split; [apply alter_only_flags | eauto].
Qed.

Lemma encode_box_heap o r st st' res :
  encode_box o r st = (st', res) →
  only_flags o st.1 st'.1 ∧
  (res = Done tt → st'.1 = set_frags (project o (frag_ptrs [r]) (frags st.1)) st.1).
Proof.
  destruct r as [p | p | p]; simpl.
  - intros Hr%load_then_target_heap; [|done]. rewrite Hr, set_frags_id.
    split; [apply only_flags_refl | done].
  - intros Hr%load_then_target_heap; [|done]. rewrite Hr, set_frags_id.
    split; [apply only_flags_refl | done].
  - intros [Hof Hd]%frag_step_heap. split; [done|]. intros Hres.
    destruct (Hd Hres) as (l & f & -> & _ & ->). done.
Qed.

Lemma encodeSW_box_heap o r st st' res :
  encodeSW_box o r st = (st', res) →
  only_flags o st.1 st'.1 ∧
  (res = Done tt → st'.1 = set_frags (project o (frag_ptrs [r]) (frags st.1)) st.1).
Proof.
  destruct r as [p | p | p]; simpl.
  - intros Hr%load_then_target_heap; [|done]. rewrite Hr, set_frags_id.
    split; [apply only_flags_refl | done].
  - intros Hr%load_then_target_heap; [|done]. rewrite Hr, set_frags_id.
    split; [apply only_flags_refl | done].
  - intros [Hof Hd]%frag_step_heap. split; [done|]. intros Hres.
    destruct (Hd Hres) as (l & f & -> & _ & ->). done.
Qed.

Lemma project_app o ps qs m : project o (ps ++ qs) m = project o qs (project o ps m).
Proof. unfold project. apply foldl_app. Qed.

Lemma frag_ptrs_app rs rs' : frag_ptrs (rs ++ rs') = frag_ptrs rs ++ frag_ptrs rs'.
Proof. induction rs as [| [p | p | p] rs IH]; simpl; by rewrite ?IH. Qed.

(** A loop of steps that only project the flag only projects the flag. *)
Lemma for_each_heap {W} (v : BoxRef → M (Heap * W) unit) o :
  (∀ r st st' res, v r st = (st', res) →
     only_flags o st.1 st'.1 ∧
     (res = Done tt → st'.1 = set_frags (project o (frag_ptrs [r]) (frags st.1)) st.1)) →
  ∀ rs st st' res, for_each v rs st = (st', res) →
     only_flags o st.1 st'.1 ∧
     (res = Done tt → st'.1 = set_frags (project o (frag_ptrs rs) (frags st.1)) st.1).
Proof.
  intros Hv. induction rs as [| r rs IH]; intros st st' res; simpl.
  - intros [= <- <-]. rewrite set_frags_id. split; [apply only_flags_refl | done].
  - unfold bind. destruct (v r st) as [st1 r1] eqn:Hr. apply Hv in Hr as [Hof Hd].
    destruct r1 as [[] | e |]; try (intros [= <- <-]; split; [done | done]).
    intros [Hof' Hd']%IH. split; [by eapply only_flags_trans|].
    intros Hres. rewrite (Hd' Hres), (Hd eq_refl).
    by destruct r as [[?|] | [?|] | [?|]], (st.1).
Qed.

Lemma frag_ptrs_traversal s :
  (length (Fragments s) ≤ length (SidxsByFrag s))%nat →
  frag_ptrs (traversal s) = Fragments s.
Proof.
  unfold traversal. rewrite frag_ptrs_app.
  assert (frag_ptrs match Styp s with Some _ => [RefStyp (Styp s)] | None => [] end = [])
    as -> by (by destruct (Styp s)).
  simpl. generalize (SidxsByFrag s).
  induction (Fragments s) as [| f fs IH]; intros bs Hlen; [done|].
  destruct bs as [| b bs]; simpl in *; [lia|].
  unfold boxes_of_fragment at 1. rewrite !frag_ptrs_app. simpl.
  rewrite IH by lia.
  assert (frag_ptrs (RefSidx <$> b) = []) as ->; [|done].
  induction b; simpl; auto.
Qed.

Lemma traversal_heap {W} (v : BoxRef → M (Heap * W) unit) o s st st' res :
  (∀ r st st' res, v r st = (st', res) →
     only_flags o st.1 st'.1 ∧
     (res = Done tt → st'.1 = set_frags (project o (frag_ptrs [r]) (frags st.1)) st.1)) →
  (for_each v (traversal s) ;; bucket_check s) st = (st', res) →
  only_flags o st.1 st'.1 ∧
  (res = Done tt → st'.1 = set_frags (project o (Fragments s) (frags st.1)) st.1).
Proof.
  intros Hv. unfold bind.
  destruct (for_each v (traversal s) st) as [st1 r1] eqn:Hfe.
  apply (for_each_heap v o Hv) in Hfe as [Hof Hd].
  destruct r1 as [[] | e |]; try (intros [= <- <-]; split; done).
  unfold bucket_check. case_decide as Hlen; intros [= <- <-]; [|done].
  split; [done|]. intros _. rewrite (Hd eq_refl). by rewrite frag_ptrs_traversal.
Qed.

Lemma project_lookup o ps (m : gmap loc Fragment) l :
  project o ps m !! l =
  if decide (Some l ∈ ps) then set_FragEncOptimize o <$> m !! l else m !! l.
Proof.
  revert m. induction ps as [| p ps IH] using rev_ind; intros m.
  - rewrite decide_False by apply not_elem_of_nil. done.
  - rewrite project_app. simpl.
    assert (Hin : Some l ∈ ps ++ [p] ↔ Some l ∈ ps ∨ p = Some l).
    { rewrite elem_of_app, list_elem_of_singleton. split; intros [? | ?]; auto. }
    destruct p as [l'|].
    + rewrite lookup_alter.
      destruct (decide (l' = l)) as [-> | Hne]; rewrite IH.
      * rewrite (decide_True (P := Some l ∈ ps ++ [Some l])) by (apply Hin; auto).
        case_decide; by destruct (m !! l).
      * case_decide as H1; case_decide as H2; try done; exfalso.
        -- apply H2, Hin. auto.
        -- apply Hin in H2 as [H2 | H2]; [done | congruence].
    + rewrite IH. case_decide as H1; case_decide as H2; try done; exfalso.
      * apply H2, Hin. auto.
      * apply Hin in H2 as [H2 | H2]; [done | congruence].
Qed.

(** The flags after a traversal, whatever its outcome. *)
Lemma project_assigned o ps (h h' : Heap) :
  frags h' = project o ps (frags h) → assigned o ps h h'.
Proof.
  intros Hh l. unfold flag. rewrite Hh, project_lookup.
  case_decide; [|done]. by destruct (frags h !! l).
Qed.

Lemma frag_step_store {W} (op : Fragment → M W unit) p o (st st' : Heap * W) r :
  (store_EncOptimize p o ;; b <- load_frag p ;; on_target (op b)) st = (st', r) →
  frags st'.1 = project o [p] (frags st.1).
Proof.
  unfold bind at 1, store_EncOptimize. destruct p as [l|]; [|by intros [= <- <-]].
  destruct (frags st.1 !! l) as [f|] eqn:Hl.
  - intros Hrest. apply load_then_target_heap in Hrest; [|done]. rewrite Hrest. simpl.
    apply map_eq. intros l'. rewrite lookup_alter. case_decide as Hll.
    + subst l'. by rewrite lookup_insert_eq, Hl.
    + by rewrite lookup_insert_ne.
  - intros [= <- <-]. simpl.
    apply map_eq. intros l'. rewrite lookup_alter. case_decide as Hll; [|done].
    subst l'. by rewrite Hl.
Qed.

Lemma encode_box_store o r st st' res :
  encode_box o r st = (st', res) → frags st'.1 = project o (frag_ptrs [r]) (frags st.1).
Proof.
  destruct r as [p | p | p]; simpl.
  - intros Hr%load_then_target_heap; [|done]. by rewrite Hr.
  - intros Hr%load_then_target_heap; [|done]. by rewrite Hr.
  - apply frag_step_store.
Qed.

Lemma encodeSW_box_store o r st st' res :
  encodeSW_box o r st = (st', res) → frags st'.1 = project o (frag_ptrs [r]) (frags st.1).
Proof.
  destruct r as [p | p | p]; simpl.
  - intros Hr%load_then_target_heap; [|done]. by rewrite Hr.
  - intros Hr%load_then_target_heap; [|done]. by rewrite Hr.
  - apply frag_step_store.
Qed.

(** A loop that stops at [x] has assigned the flag in the fragments it
    went through and in [x]. *)
Lemma for_each_store {W} (v : BoxRef → M (Heap * W) unit) o :
  (∀ r st st' res, v r st = (st', res) →
     frags st'.1 = project o (frag_ptrs [r]) (frags st.1)) →
  (∀ rs st st', for_each v rs st = (st', Done tt) →
     frags st'.1 = project o (frag_ptrs rs) (frags st.1)) ∧
  (∀ pre x st st1 st2 res, for_each v pre st = (st1, Done tt) → v x st1 = (st2, res) →
     frags st2.1 = project o (frag_ptrs (pre ++ [x])) (frags st.1)).
Proof.
  intros Hv.
  assert (Hall : ∀ rs st st', for_each v rs st = (st', Done tt) →
                   frags st'.1 = project o (frag_ptrs rs) (frags st.1)).
  { induction rs as [| r rs IH]; intros st st'; simpl.
    - by intros [= <-].
    - intros (st1 & [] & Hr & Hrest)%bind_Done.
      rewrite (IH _ _ Hrest), (Hv _ _ _ _ Hr).
      by rewrite <- project_app, <- frag_ptrs_app. }
  split; [done|]. intros pre x st st1 st2 res Hpre Hx.
  by rewrite (Hv _ _ _ _ Hx), (Hall _ _ _ Hpre), frag_ptrs_app, project_app.
Qed.

(** C9, as amended. [Encode] and [EncodeSW] assign the segment's
    [EncOptimize] to each fragment they reach, before they encode it, and
    the assignment stays on the fragment after they return.  After a
    successful encoding every fragment of the segment carries the segment's
    value.  When the traversal stops at a box, with an error or a panic,
    the fragments before that box carry it, and so does that box if it is a
    fragment; the flags of all other fragments are as they were.  The
    segment itself is an argument of [Encode] and [EncodeSW], which return
    no segment: they assign to none of its fields. *)
Theorem EncOptimize_stays_on_fragments (s : MediaSegment) (h : Heap) :
  (∀ w h' w', Encode s (h, w) = ((h', w'), Done tt) →
     assigned (SegEncOptimize s) (Fragments s) h h') ∧
  (∀ pre x post w st1 h' w' res,
     traversal s = pre ++ x :: post →
     for_each (encode_box (SegEncOptimize s)) pre (h, w) = (st1, Done tt) →
     encode_box (SegEncOptimize s) x st1 = ((h', w'), res) → res ≠ Done tt →
     Encode s (h, w) = ((h', w'), res) ∧
     assigned (SegEncOptimize s) (frag_ptrs (pre ++ [x])) h h') ∧
  (∀ sw h' sw', EncodeSW s (h, sw) = ((h', sw'), Done tt) →
     assigned (SegEncOptimize s) (Fragments s) h h') ∧
  (∀ pre x post sw st1 h' sw' res,
     traversal s = pre ++ x :: post →
     for_each (encodeSW_box (SegEncOptimize s)) pre (h, sw) = (st1, Done tt) →
     encodeSW_box (SegEncOptimize s) x st1 = ((h', sw'), res) → res ≠ Done tt →
     EncodeSW s (h, sw) = ((h', sw'), res) ∧
     assigned (SegEncOptimize s) (frag_ptrs (pre ++ [x])) h h').
Proof.
  destruct (for_each_store _ (SegEncOptimize s) (encode_box_store (SegEncOptimize s)))
    as [HE HE'].
  destruct (for_each_store _ (SegEncOptimize s) (encodeSW_box_store (SegEncOptimize s)))
    as [HS HS'].
  split; [|split; [|split]].
  - intros w h' w'. rewrite Encode_flat.
    intros (st1 & [] & Hfe & Hb)%bind_Done. unfold bucket_check in Hb.
    case_decide as Hlen; [|done]. injection Hb as ->.
    apply project_assigned. rewrite <- (frag_ptrs_traversal s Hlen).
    apply (HE _ _ _ Hfe).
  - intros pre x post w st1 h' w' res Htr Hpre Hx Hres. split.
    + rewrite Encode_flat. unfold bind. rewrite Htr.
      rewrite (for_each_stops _ pre x post (h, w) st1 (h', w') res) by done.
      by destruct res as [[] | e |].
    + apply project_assigned. apply (HE' _ _ _ _ _ _ Hpre Hx).
  - intros w h' w'. rewrite EncodeSW_flat.
    intros (st1 & [] & Hfe & Hb)%bind_Done. unfold bucket_check in Hb.
    case_decide as Hlen; [|done]. injection Hb as ->.
    apply project_assigned. rewrite <- (frag_ptrs_traversal s Hlen).
    apply (HS _ _ _ Hfe).
  - intros pre x post w st1 h' w' res Htr Hpre Hx Hres. split.
    + rewrite EncodeSW_flat. unfold bind. rewrite Htr.
      rewrite (for_each_stops _ pre x post (h, w) st1 (h', w') res) by done.
      by destruct res as [[] | e |].
    + apply project_assigned. apply (HS' _ _ _ _ _ _ Hpre Hx).
Qed.

(** ** [Size] against [EncodeSW] *)

Lemma wrap64_add_l a b : wrap64 (wrap64 a + b) = wrap64 (a + b).
Proof. unfold wrap64. by rewrite Zplus_mod_idemp_l. Qed.

Lemma wrap64_small a : 0 <= a < uint64_mod → wrap64 a = a.
Proof. unfold wrap64. apply Z.mod_small. Qed.

Lemma size_box_step r h acc :
  size_box r (h, acc) =
  match size_at h r with
  | Done n => ((h, wrap64 (acc + n)), Done tt)
  | Fail e => ((h, acc), Fail e)
  | Panic => ((h, acc), Panic)
  end.
Proof.
  destruct r as [p | p | p]; simpl; unfold bind, load_styp, load_sidx, load_frag; simpl.
  - by destruct (deref (styps h) p).
  - by destruct (deref (sidxs h) p).
  - by destruct (deref (frags h) p).
Qed.

Lemma size_at_nonneg h r n : size_at h r = Done n → 0 <= n.
Proof.
  destruct r as [p | p | p]; simpl.
  - destruct (deref (styps h) p); intros [= <-]. apply box_Size_nonneg.
  - destruct (deref (sidxs h) p); intros [= <-]. apply box_Size_nonneg.
  - destruct (deref (frags h) p); intros [= <-]. apply box_Size_nonneg.
Qed.

Lemma sum_sizes_nonneg h rs n : sum_sizes h rs = Some n → 0 <= n.
Proof.
  revert n. induction rs as [| r rs IH]; intros n; simpl; [intros [= <-]; lia|].
  destruct (size_at h r) as [a | |] eqn:Hr; try done.
  destruct (sum_sizes h rs) as [m|]; [|done]. intros [= <-].
  apply size_at_nonneg in Hr. specialize (IH m eq_refl). lia.
Qed.

(** The loop of [Size] adds up the sizes, modulo [2^64]. *)
Lemma for_each_size_box h rs n acc :
  wrap64 acc = acc → sum_sizes h rs = Some n →
  for_each size_box rs (h, acc) = ((h, wrap64 (acc + n)), Done tt).
Proof.
  revert n acc. induction rs as [| r rs IH]; intros n acc Hacc; simpl.
  - intros [= <-]. unfold ret. by rewrite Z.add_0_r, Hacc.
  - destruct (size_at h r) as [a | |] eqn:Hr; try done.
    destruct (sum_sizes h rs) as [m|] eqn:Hm; [|done]. intros [= <-].
    unfold bind. rewrite size_box_step, Hr.
    rewrite (IH m (wrap64 (acc + a))); [| apply Zmod_mod | done].
    rewrite wrap64_add_l. do 3 f_equal. lia.
Qed.

Lemma for_each_size_box_heap rs st : (for_each size_box rs st).1.1 = st.1.
Proof.
  revert st. induction rs as [| r rs IH]; intros [h acc]; simpl; [done|].
  unfold bind. rewrite size_box_step.
  destruct (size_at h r); simpl; try done. all: try by rewrite IH.
Qed.

Lemma Size_sum h s n :
  (length (Fragments s) ≤ length (SidxsByFrag s))%nat →
  sum_sizes h (traversal s) = Some n → Size h s = Done (wrap64 n).
Proof.
  intros Hlen Hsum. unfold Size. rewrite Size_walk_flat. unfold bind, bucket_check.
  rewrite decide_True by done.
  by rewrite (for_each_size_box h _ n 0 eq_refl Hsum).
Qed.

(** One step of [EncodeSW], when it succeeds: the cursor moves by the size
    of the box, and the sizes of the boxes to come are what they were. *)
Lemma encodeSW_box_Done o r rs h1 sw1 h2 sw2 :
  Forall (writes_its_size o h1) (r :: rs) →
  flag_blind o h1 (r :: rs) →
  encodeSW_box o r (h1, sw1) = ((h2, sw2), Done tt) →
  ∃ n, size_at h1 r = Done n ∧ sw_Offset sw2 = sw_Offset sw1 + n ∧
       Forall (writes_its_size o h2) rs ∧
       flag_blind o h2 rs ∧ sum_sizes h2 rs = sum_sizes h1 rs.
Proof.
  intros [Hexact Hrest]%Forall_cons Hblind. destruct r as [p | p | p]; simpl.
  - unfold bind, load_styp, on_target. simpl.
    destruct (deref (styps h1) p) as [b | |] eqn:Hp; try done.
    destruct (box_EncodeSW b sw1) as [w' [[] | |]] eqn:Hb; intros [= <- <-].
    exists (box_Size b). repeat split; eauto.
    intros l f Hl. apply Hblind. by right.
  - unfold bind, load_sidx, on_target. simpl.
    destruct (deref (sidxs h1) p) as [b | |] eqn:Hp; try done.
    destruct (box_EncodeSW b sw1) as [w' [[] | |]] eqn:Hb; intros [= <- <-].
    exists (box_Size b). repeat split; eauto.
    intros l f Hl. apply Hblind. by right.
  - unfold bind at 1.
    destruct (store_EncOptimize p o (h1, sw1)) as [st1 r1] eqn:Hst.
    apply store_EncOptimize_spec in Hst. destruct r1 as [[] | e |]; try done.
    destruct Hst as (l & f & -> & Hl & ->). simpl in *.
    unfold bind, load_frag, on_target. simpl. rewrite lookup_alter, decide_True by done.
    rewrite Hl. simpl.
    destruct (box_EncodeSW (set_FragEncOptimize o f) sw1) as [w' [[] | |]] eqn:Hb;
      intros [= <- <-].
    assert (Hsz : box_Size (set_FragEncOptimize o f) = box_Size f).
    { apply (Hblind l f); [by left | done]. }
    exists (box_Size f). split; [done|]. split.
    { rewrite <- Hsz. apply (Hexact f); [by rewrite Hl | done]. }
    assert (Hat : ∀ r', size_at (set_frags (alter (set_FragEncOptimize o) l (frags h1)) h1) r'
                        = size_at h1 r').
    { intros [q | q | [l'|]]; simpl; try done.
      rewrite lookup_alter. case_decide as Hll; [|done]. subst l'.
      rewrite Hl. simpl. by rewrite Hsz. }
    split; [|split].
    + eapply Forall_impl; [exact Hrest|]. intros [q | q | [l'|]]; simpl; try done.
      intros Hq f'. rewrite lookup_alter. case_decide as Hll.
      * subst l'. rewrite Hl. simpl. intros [= <-]. apply (Hq f). by rewrite Hl.
      * apply Hq.
    + intros l' f' Hin. simpl. rewrite lookup_alter. case_decide as Hll.
      * subst l'. rewrite Hl. simpl. by intros [= <-].
      * intros Hl'. apply (Hblind l' f'); [by right | done].
    + clear -Hat. induction rs as [| r' rs IH]; simpl; [done|]. by rewrite Hat, IH.
Qed.

Lemma for_each_encodeSW_Done o rs : ∀ h1 sw1 h2 sw2,
  Forall (writes_its_size o h1) rs →
  flag_blind o h1 rs →
  for_each (encodeSW_box o) rs (h1, sw1) = ((h2, sw2), Done tt) →
  sum_sizes h1 rs = Some (sw_Offset sw2 - sw_Offset sw1).
Proof.
  induction rs as [| r rs IH]; intros h1 sw1 h2 sw2 Hexact Hblind; simpl.
  - intros [= <- <-]. f_equal. lia.
  - unfold bind.
    destruct (encodeSW_box o r (h1, sw1)) as [[h3 sw3] [[] | e |]] eqn:Hr; try done.
    intros Hrest.
    destruct (encodeSW_box_Done o r rs h1 sw1 h3 sw3 Hexact Hblind Hr)
      as (n & -> & Hoff & Hexact' & Hblind' & <-).
    rewrite (IH h3 sw3 h2 sw2 Hexact' Hblind' Hrest). f_equal. lia.
Qed.

(** Boxes that all write their size do so in every store. *)
Lemma writes_its_size_any o h rs :
  (∀ (b : StypBox) w w', box_EncodeSW b w = (w', Done tt) →
                           sw_Offset w' = sw_Offset w + box_Size b) →
  (∀ (b : SidxBox) w w', box_EncodeSW b w = (w', Done tt) →
                           sw_Offset w' = sw_Offset w + box_Size b) →
  (∀ (b : Fragment) w w', box_EncodeSW b w = (w', Done tt) →
                            sw_Offset w' = sw_Offset w + box_Size b) →
  Forall (writes_its_size o h) rs.
Proof.
  intros Hstyp Hsidx Hfrag. apply Forall_forall. intros [p | p | p] _; simpl; eauto.
Qed.

Lemma RefFrag_in_traversal s l : RefFrag (Some l) ∈ traversal s → Some l ∈ Fragments s.
Proof.
  unfold traversal. rewrite elem_of_app. intros [Hin | Hin].
  - destruct (Styp s); [|by apply elem_of_nil in Hin].
    by apply list_elem_of_singleton in Hin.
  - revert Hin. generalize (SidxsByFrag s).
    induction (Fragments s) as [| f fs IH]; intros bs; simpl.
    + intros Hin. by apply elem_of_nil in Hin.
    + destruct bs as [| b bs]; simpl; [intros Hin; by apply elem_of_nil in Hin|].
      unfold boxes_of_fragment at 1. rewrite !elem_of_app, list_elem_of_singleton.
      intros [[Hin | Hin] | Hin].
      * apply list_elem_of_fmap in Hin as (? & ? & ?). done.
      * simplify_eq. by left.
      * right. eauto.
Qed.

(** C7, as amended. [Size] leaves the store as it is, and it reads the boxes
    that [EncodeSW] writes, in the same order: the styp box, then for each
    fragment its sidx boxes in append order and the fragment. When each box
    of the segment, as it is encoded, moves the cursor by its [Size()]
    whenever its [EncodeSW] succeeds, and assigning the segment's
    [EncOptimize] to a fragment of the segment does not change the
    fragment's [Size()], then [Size] is the number of bytes that a
    successful [EncodeSW] of the segment writes.  Nothing is asked of boxes
    that are not in the segment. *)
Theorem Size_is_bytes_written (s : MediaSegment) (h h' : Heap) (sw sw' : SliceWriter) :
  (∀ r, r ∈ traversal s → writes_its_size (SegEncOptimize s) h r) →
  (∀ l f, Some l ∈ Fragments s → frags h !! l = Some f →
          box_Size (set_FragEncOptimize (SegEncOptimize s) f) = box_Size f) →
  EncodeSW s (h, sw) = ((h', sw'), Done tt) →
  sw_Offset sw' - sw_Offset sw < uint64_mod →
  Size h s = Done (sw_Offset sw' - sw_Offset sw) ∧
  sum_sizes h (traversal s) = Some (sw_Offset sw' - sw_Offset sw) ∧
  (∀ st, Size_walk s st = (for_each size_box (traversal s) ;; bucket_check s) st) ∧
  (∀ st, EncodeSW s st
         = (for_each (encodeSW_box (SegEncOptimize s)) (traversal s) ;; bucket_check s) st) ∧
  (∀ st, (Size_walk s st).1.1 = st.1).
Proof.
  intros Hexact Hflag Henc Hfit.
  assert (Hpure : ∀ st, (Size_walk s st).1.1 = st.1).
  { intros st. rewrite Size_walk_flat. unfold bind.
    pose proof (for_each_size_box_heap (traversal s) st) as Hh.
    destruct (for_each size_box (traversal s) st) as [st1 [[] | e |]]; try done.
    unfold bucket_check. by case_decide. }
  rewrite EncodeSW_flat in Henc. unfold bind in Henc.
  destruct (for_each (encodeSW_box (SegEncOptimize s)) (traversal s) (h, sw))
    as [[h1 sw1] [[] | e |]] eqn:Hfe; try done.
  unfold bucket_check in Henc. case_decide as Hlen; [|done].
  injection Henc as <- <-.
  assert (Hsum : sum_sizes h (traversal s) = Some (sw_Offset sw1 - sw_Offset sw)).
  { eapply for_each_encodeSW_Done; [by apply Forall_forall | | exact Hfe].
    intros l f Hin. apply Hflag. by apply RefFrag_in_traversal. }
  split; [|split; [done|]; split; [apply Size_walk_flat|]; split; [apply EncodeSW_flat | done]].
  rewrite (Size_sum h s _ Hlen Hsum). f_equal. apply wrap64_small.
  apply sum_sizes_nonneg in Hsum. lia.
Qed.

(** ** CommonSampleDuration *)

Lemma deref_not_Fail {B} (m : gmap loc B) p e : deref m p ≠ Fail e.
Proof. unfold deref. destruct p as [l|]; [destruct (m !! l)|]; done. Qed.

(** One turn of the loop, in terms of what the fragment reports. *)
Lemma CommonSampleDuration_body_reported h trex i frag commonDur :
  CommonSampleDuration_body h trex i frag commonDur
  = match reported h trex frag with
    | Panic => (commonDur, Panic)
    | Fail err => (commonDur, Fail ("fragment.CommonSampleDuration: " +:+ err))
    | Done cDur =>
        if decide (i = 0%nat) then (cDur, Done tt)
        else if decide (commonDur = cDur) then (commonDur, Done tt)
             else (commonDur,
                   Fail ("different common sample duration in fragment "
                         +:+ pretty (i + 1)%nat))
    end.
Proof.
  unfold CommonSampleDuration_body, reported, bind, of_outcome.
  pose proof (deref_not_Fail (frags h) frag) as Hnf.
  destruct (deref (frags h) frag) as [fr | e |]; [| by destruct (Hnf e) | done].
  destruct (frag_CommonSampleDuration fr trex) as [cDur | e |]; try done.
  repeat case_decide; done.
Qed.

(** After the first fragment the loop keeps [commonDur], and it goes on only
    over fragments that report it. *)
Lemma CommonSampleDuration_loop_rest h trex fs : ∀ i c c',
  i ≠ 0%nat →
  range_from (CommonSampleDuration_body h trex) i fs c = (c', Done tt) →
  c' = c ∧ Forall (λ frag, reported h trex frag = Done c) fs.
Proof.
  induction fs as [| frag fs IH]; intros i c c' Hi; simpl.
  - intros [= <-]. split; [done | constructor].
  - unfold bind. rewrite CommonSampleDuration_body_reported.
    destruct (reported h trex frag) as [cDur | e |] eqn:Hrep; try done.
    rewrite decide_False by done. case_decide as Heq; [|done]. subst cDur.
    intros [-> Hall]%IH; [|lia]. split; [done | by constructor].
Qed.

Lemma CommonSampleDuration_Done h s trex d :
  CommonSampleDuration h s trex = Done d →
  match Fragments s with
  | [] => d = 0
  | _ => Forall (λ frag, reported h trex frag = Done d) (Fragments s)
  end.
Proof.
  unfold CommonSampleDuration, CommonSampleDuration_loop, range.
  destruct trex as [t|]; [|done].
  destruct (Fragments s) as [| frag fs]; simpl; [by intros [= <-]|].
  unfold bind. rewrite CommonSampleDuration_body_reported.
  destruct (reported h (Some t) frag) as [cDur | e |] eqn:Hrep; try done.
  rewrite decide_True by done.
  destruct (range_from _ 1 fs cDur) as [c' [[] | e |]] eqn:Hloop; try done.
  intros [= <-]. apply CommonSampleDuration_loop_rest in Hloop as [-> Hall]; [|lia].
  by constructor.
Qed.

(** C4. With a trex box, when the fragments of the segment report the
    common sample durations [1024, 1024, 1024], [CommonSampleDuration]
    returns 1024 and no error; when they report [1024, 2048] it returns the
    error "different common sample duration in fragment 2". *)
Theorem CommonSampleDuration_examples (h : Heap) (s : MediaSegment) (trex : TrexBox) :
  (reported h (Some trex) <$> Fragments s = [Done 1024; Done 1024; Done 1024] →
   CommonSampleDuration h s (Some trex) = Done 1024) ∧
  (reported h (Some trex) <$> Fragments s = [Done 1024; Done 2048] →
   CommonSampleDuration h s (Some trex)
   = Fail "different common sample duration in fragment 2").
Proof.
  unfold CommonSampleDuration, CommonSampleDuration_loop, range. split.
  - destruct (Fragments s) as [| p1 [| p2 [| p3 [| ? ?]]]]; try done.
    simpl. intros [= H1 H2 H3]. unfold bind.
    rewrite !CommonSampleDuration_body_reported, H1. simpl.
    rewrite !CommonSampleDuration_body_reported, H2. simpl.
    rewrite !CommonSampleDuration_body_reported, H3. simpl. done.
  - destruct (Fragments s) as [| p1 [| p2 [| ? ?]]]; try done.
    simpl. intros [= H1 H2]. unfold bind.
    rewrite !CommonSampleDuration_body_reported, H1. simpl.
    rewrite !CommonSampleDuration_body_reported, H2. simpl. done.
Qed.


(** C10. With a trex box and no fragments, [CommonSampleDuration] returns
    duration 0 and no error. *)
Theorem CommonSampleDuration_no_fragments (h : Heap) (s : MediaSegment) (trex : TrexBox) :
  Fragments s = [] → CommonSampleDuration h s (Some trex) = Done 0.
Proof. unfold CommonSampleDuration, CommonSampleDuration_loop. by intros ->. Qed.

(** ** The grouping of samples *)

Lemma add_last_snoc {A} (x : A) gs g : add_last x (gs ++ [g]) = gs ++ [g ++ [x]].
Proof.
  induction gs as [| g' gs IH]; simpl; [done|]. rewrite IH.
  by destruct gs.
Qed.

Lemma total_dur_app g g' : total_dur (g ++ g') = total_dur g + total_dur g'.
Proof. unfold total_dur. induction g as [| x g IH]; simpl; lia. Qed.

Lemma wrap32_add_l a b : wrap32 (wrap32 a + b) = wrap32 (a + b).
Proof. unfold wrap32. by rewrite Zplus_mod_idemp_l. Qed.

Lemma wrap32_small a : is_uint32 a → wrap32 a = a.
Proof. unfold wrap32. apply Z.mod_small. Qed.

Lemma wrap32_le a : 0 <= a → wrap32 a <= a.
Proof. unfold wrap32, uint32_mod. intros Ha. apply Z.mod_le; lia. Qed.

Lemma wrap32_zero a : 0 < a → wrap32 a = 0 → uint32_mod <= a.
Proof.
  unfold wrap32, uint32_mod. intros Ha Hz.
  destruct (Z_lt_le_dec a (2 ^ 32)) as [Hlt | Hle]; [|done].
  rewrite Z.mod_small in Hz by lia. lia.
Qed.

(** The groups behind [cumDur]: no group is empty, every group but the
    last is closed, the samples have durations of 32 bits, and the last
    group is closed when [cumDur] is zero and has [cumDur] as its wrapped
    total otherwise. *)
Lemma place_groups duration gs c x :
  is_uint32 duration → is_uint32 (Dur x.2) →
  groups_ok duration (gs, c) → groups_ok duration (place duration (gs, c) x).
Proof.
  unfold groups_ok, place. simpl. intros Hd Hx (Hne & Hu & Hnil & Hlast).
  assert (Hclosed : c = 0 → Forall (closed duration) gs).
  { intros Hc. destruct gs as [| g0 gs0 _] using rev_ind; [constructor|].
    destruct (Hlast gs0 g0 eq_refl) as (Hall & Hz & _).
    apply Forall_app. split; [done|]. constructor; [auto | constructor]. }
  destruct (decide (c = 0)) as [-> | Hc].
  - rewrite add_last_snoc. simpl.
    assert (Htot : total_dur [x] = Dur x.2) by (unfold total_dur; simpl; lia).
    rewrite Z.add_0_l, (wrap32_small (Dur x.2)) by done.
    split; [|split; [|split]].
    + apply Forall_app. split; [done|]. by constructor.
    + apply Forall_app. split; [done|]. repeat (constructor; try done).
    + intros Heq. by destruct gs.
    + intros gs' g [<- <-]%app_inj_tail. split; [auto|]. split.
      * case_decide as Hge.
        -- intros _. left. lia.
        -- intros Hz. right. exists x. done.
      * case_decide as Hge; [done|]. intros Hnz.
        rewrite Htot. rewrite wrap32_small by done. unfold is_uint32 in Hx. lia.
  - destruct gs as [| g0 gs0 _] using rev_ind; [by specialize (Hnil eq_refl)|].
    destruct (Hlast gs0 g0 eq_refl) as (Hall & _ & Hopen).
    destruct (Hopen Hc) as [Hcg Hpos].
    apply Forall_app in Hne as [Hne0 Hg0]. apply Forall_app in Hu as [Hu0 Hug0].
    apply Forall_cons in Hug0 as [Hug0 _].
    rewrite add_last_snoc.
    assert (Htot : total_dur (g0 ++ [x]) = total_dur g0 + Dur x.2).
    { rewrite total_dur_app. unfold total_dur. simpl. lia. }
    assert (Hc1 : wrap32 (c + Dur x.2) = wrap32 (total_dur (g0 ++ [x]))).
    { by rewrite Hcg, wrap32_add_l, Htot. }
    assert (Hpos' : 0 < total_dur (g0 ++ [x])).
    { unfold is_uint32 in Hx. lia. }
    split; [|split; [|split]].
    + apply Forall_app. split; [done|]. constructor; [|constructor]. by destruct g0.
    + apply Forall_app. split; [done|]. constructor; [|constructor].
      apply Forall_app. split; [done|]. by constructor.
    + intros Heq. by destruct gs0.
    + intros gs' g [<- <-]%app_inj_tail. split; [done|]. rewrite Hc1. split.
      * case_decide as Hge.
        -- intros _. left. pose proof (wrap32_le (total_dur (g0 ++ [x]))). lia.
        -- intros Hz. left. apply wrap32_zero in Hz; [|done].
           unfold is_uint32 in Hd. lia.
      * case_decide as Hge; [done|]. done.
Qed.

Lemma foldl_place_groups duration xs : ∀ acc,
  is_uint32 duration → Forall (λ x, is_uint32 (Dur x.2)) xs →
  groups_ok duration acc → groups_ok duration (foldl (place duration) acc xs).
Proof.
  induction xs as [| x xs IH]; intros [gs c] Hd Hxs Hacc; simpl; [done|].
  apply Forall_cons in Hxs as [Hx Hxs]. apply IH; try done.
  by apply place_groups.
Qed.

Lemma grouping_groups duration xs :
  is_uint32 duration → Forall (λ x, is_uint32 (Dur x.2)) xs →
  groups_ok duration (grouping duration xs).
Proof.
  intros Hd Hxs. apply foldl_place_groups; try done.
  split; [constructor|]. split; [constructor|]. split; [done|].
  intros gs' g Heq. by destruct gs'.
Qed.

(** No sample is lost, doubled or moved. *)
Lemma place_concat duration gs c x :
  (gs = [] → c = 0) →
  concat (place duration (gs, c) x).1 = concat gs ++ [x] ∧
  (place duration (gs, c) x).1 ≠ [].
Proof.
  unfold place. simpl. intros Hnil. case_decide as Hc.
  - rewrite add_last_snoc, !concat_app. simpl. split; [done|]. by destruct gs.
  - destruct gs as [| g0 gs0 _] using rev_ind; [by specialize (Hnil eq_refl)|].
    rewrite add_last_snoc, !concat_app. simpl. rewrite !app_nil_r, app_assoc.
    split; [done|]. by destruct gs0.
Qed.

Lemma foldl_place_concat duration xs : ∀ gs c,
  (gs = [] → c = 0) →
  concat (foldl (place duration) (gs, c) xs).1 = concat gs ++ xs.
Proof.
  induction xs as [| x xs IH]; intros gs c Hnil; simpl; [by rewrite app_nil_r|].
  destruct (place_concat duration gs c x Hnil) as [Hcat Hne].
  destruct (place duration (gs, c) x) as [gs1 c1] eqn:Hp. simpl in *.
  rewrite IH by done. rewrite Hcat. by rewrite <- app_assoc.
Qed.

Lemma grouping_concat duration xs : concat (grouping duration xs).1 = xs.
Proof. unfold grouping. by rewrite foldl_place_concat. Qed.

(** ** Fragmentify *)

Section Refragmentation.

(** What the sample claims take from the fragment's constructor and from
    its sample insertion: a new fragment holds no sample, and a successful
    insertion adds the sample, under its track id, after those held. *)
Hypothesis CreateFragment_empty :
  ∀ seq trackID f, CreateFragment seq trackID = Done f → frag_samples f = [].
Hypothesis AddFullSampleToTrack_appends :
  ∀ smp trackID f f', AddFullSampleToTrack smp trackID f = (f', Done tt) →
                      frag_samples f' = frag_samples f ++ [(trackID, smp)].

Lemma samples_at_app m ps qs :
  samples_at m (ps ++ qs) =
  match samples_at m ps, samples_at m qs with
  | Some a, Some b => Some (a ++ b)
  | _, _ => None
  end.
Proof.
  induction ps as [| [l|] ps IH]; simpl.
  - by destruct (samples_at m qs).
  - destruct (m !! l); [|done]. rewrite IH.
    destruct (samples_at m ps), (samples_at m qs); done.
  - done.
Qed.

Lemma samples_at_Some m ps gs :
  samples_at m ps = Some gs → ∀ l, Some l ∈ ps → is_Some (m !! l).
Proof.
  revert gs. induction ps as [| [l|] ps IH]; intros gs; simpl.
  - intros _ l Hin. by apply elem_of_nil in Hin.
  - destruct (m !! l) as [f|] eqn:Hl; [|done].
    destruct (samples_at m ps) as [rest|]; [|done]. intros _ l' Hin.
    apply elem_of_cons in Hin as [[= ->] | Hin]; [by rewrite Hl | by eapply IH].
  - done.
Qed.

Lemma samples_at_insert_ne m ps l f :
  Some l ∉ ps → samples_at (<[l := f]> m) ps = samples_at m ps.
Proof.
  induction ps as [| [l'|] ps IH]; simpl; [done | | done].
  intros Hnin. apply not_elem_of_cons in Hnin as [Hne Hnin].
  rewrite lookup_insert_ne by congruence. by rewrite IH.
Qed.

(** [CreateFragment] and the append to [outFragments]. *)
Lemma open_fragment_inv h0 gs seq trackID st st' :
  Fragmentify_inv h0 gs st →
  open_fragment seq trackID st = (st', Done tt) →
  Fragmentify_inv h0 (gs ++ [[]]) st' ∧ cumDur st' = cumDur st.
Proof.
  intros (Hagree & Hnd & Hnew & Hof & Hgs). unfold open_fragment.
  destruct (CreateFragment seq trackID) as [f | e |] eqn:Hf; try done.
  set (l := fresh (dom (frags (heap st)))). intros [= <-]. simpl.
  assert (Hl : frags (heap st) !! l = None).
  { apply not_elem_of_dom. apply is_fresh. }
  assert (Hout : Some l ∉ outFragments st).
  { intros Hin. destruct (samples_at_Some _ _ _ Hgs l Hin) as [? Hx]. congruence. }
  split; [|done]. repeat split; simpl.
  - intros l' Hl'. rewrite lookup_insert_ne; [by apply Hagree|].
    intros <-. rewrite Hagree in Hl by done. rewrite Hl in Hl'. by destruct Hl'.
  - apply NoDup_app. split; [done|]. split; [|apply NoDup_singleton].
    intros p Hp Hp'. apply list_elem_of_singleton in Hp'. by subst p.
  - intros l' Hin. apply elem_of_app in Hin as [Hin | Hin]; [by apply Hnew|].
    apply list_elem_of_singleton in Hin. simplify_eq.
    destruct (frags h0 !! l) as [f0|] eqn:H0l; [|done].
    rewrite Hagree in Hl by (by rewrite H0l). congruence.
  - by rewrite last_snoc.
  - rewrite samples_at_app, samples_at_insert_ne, Hgs by done. simpl.
    rewrite lookup_insert_eq. by rewrite (CreateFragment_empty _ _ _ Hf).
Qed.

(** [of.AddFullSampleToTrack(s, trackID)] *)
Lemma add_to_open_fragment_inv h0 gs smp trackID st st' :
  Fragmentify_inv h0 gs st →
  add_to_open_fragment smp trackID st = (st', Done tt) →
  Fragmentify_inv h0 (add_last (trackID, smp) gs) st' ∧ cumDur st' = cumDur st.
Proof.
  intros (Hagree & Hnd & Hnew & Hof & Hgs). unfold add_to_open_fragment.
  destruct (of_ st) as [l|] eqn:Hofl; [|done].
  destruct (frags (heap st) !! l) as [f|] eqn:Hl; [|done].
  destruct (AddFullSampleToTrack smp trackID f) as [f' r] eqn:Hadd.
  intros [= <- ->]. simpl. split; [|done].
  destruct (outFragments st) as [| p0 out0] eqn:Hout using rev_ind; [done|]. clear IHout0.
  rewrite last_snoc in Hof. simpl in Hof. subst p0.
  apply NoDup_app in Hnd as (Hnd0 & Hnin & _).
  assert (Hl0 : Some l ∉ out0).
  { intros Hin. apply (Hnin _ Hin). by apply list_elem_of_singleton. }
  rewrite samples_at_app in Hgs. simpl in Hgs. rewrite Hl in Hgs.
  destruct (samples_at (frags (heap st)) out0) as [gs0|] eqn:Hgs0; [|done].
  injection Hgs as <-.
  repeat split; simpl.
  - intros l' Hl'. rewrite lookup_insert_ne; [by apply Hagree|].
    intros <-. rewrite Hnew in Hl'; [by destruct Hl'|].
    apply elem_of_app. right. by apply list_elem_of_singleton.
  - apply NoDup_app. split; [done|]. split; [|apply NoDup_singleton].
    intros p Hp Hp'. apply list_elem_of_singleton in Hp'. subst p. done.
  - apply Hnew.
  - by rewrite last_snoc.
  - rewrite samples_at_app, samples_at_insert_ne, Hgs0 by done. simpl.
    rewrite lookup_insert_eq, add_last_snoc.
    by rewrite (AddFullSampleToTrack_appends _ _ _ _ Hadd).
Qed.

(** One turn of the inner loop does to the output fragments what [place]
    does to the groups. *)
Lemma place_sample_inv h0 gs inFrag trackID duration smp st st' :
  Fragmentify_inv h0 gs st →
  place_sample inFrag trackID duration smp st = (st', Done tt) →
  Fragmentify_inv h0 (place duration (gs, cumDur st) (trackID, smp)).1 st' ∧
  cumDur st' = (place duration (gs, cumDur st) (trackID, smp)).2.
Proof.
  intros Hinv. unfold place_sample, place. simpl.
  intros (st0 & c & [= <- <-] & Hrun)%bind_Done.
  apply bind_Done in Hrun as (st1 & [] & Hopen & Hrun).
  apply bind_Done in Hrun as (st2 & [] & Hadd & Hrun).
  apply bind_Done in Hrun as (st3 & c2 & [= <- <-] & Hrun).
  apply bind_Done in Hrun as (st3 & [] & [= <-] & Hrun).
  apply bind_Done in Hrun as (st4 & c4 & [= <- <-] & Hrun). simpl in Hrun.
  assert (Hinv1 : Fragmentify_inv h0
            (if decide (cumDur st = 0) then gs ++ [[]] else gs) st1
          ∧ cumDur st1 = cumDur st).
  { destruct (decide (cumDur st = 0)).
    - apply bind_Done in Hopen as (? & fr & [= <- _] & Hopen).
      apply bind_Done in Hopen as (? & seq & [= <- _] & Hopen).
      by eapply open_fragment_inv.
    - by injection Hopen as <-. }
  destruct Hinv1 as [Hinv1 Hc1].
  destruct (add_to_open_fragment_inv _ _ _ _ _ _ Hinv1 Hadd) as [Hinv2 Hc2].
  rewrite Hc2, Hc1 in Hrun.
  destruct Hinv2 as (Ha & Hb & Hc & Hd & He).
  destruct (decide (wrap32 (cumDur st + Dur smp) >= duration));
    injection Hrun as <-; done.
Qed.

Lemma for_each_place_sample_inv h0 inFrag trackID duration smps : ∀ gs st st',
  Fragmentify_inv h0 gs st →
  for_each (place_sample inFrag trackID duration) smps st = (st', Done tt) →
  Fragmentify_inv h0
    (foldl (place duration) (gs, cumDur st) ((λ x, (trackID, x)) <$> smps)).1 st' ∧
  cumDur st'
  = (foldl (place duration) (gs, cumDur st) ((λ x, (trackID, x)) <$> smps)).2.
Proof.
  induction smps as [| smp smps IH]; intros gs st st' Hinv; simpl.
  - by intros [= <-].
  - intros (st1 & [] & Hstep & Hrest)%bind_Done.
    destruct (place_sample_inv _ _ _ _ _ _ _ _ Hinv Hstep) as [Hinv1 Hc1].
    destruct (IH _ _ _ Hinv1 Hrest) as [Hinv2 Hc2].
    rewrite Hc1 in Hinv2, Hc2.
    by destruct (place duration (gs, cumDur st) (trackID, smp)).
Qed.

(** One turn of the outer loop: the samples of the input fragment, as it
    was in the initial store, are placed under its track id. *)
Lemma split_fragment_inv h0 trex duration inFrag gs st st' :
  Fragmentify_inv h0 gs st →
  no_dangling (frags h0) [inFrag] →
  split_fragment trex duration inFrag st = (st', Done tt) →
  ∃ fr trackID smps,
    deref (frags h0) inFrag = Done fr ∧ read_TrackID fr = Done trackID ∧
    GetFullSamples fr trex = Done smps ∧
    Fragmentify_inv h0
      (foldl (place duration) (gs, cumDur st) ((λ x, (trackID, x)) <$> smps)).1 st' ∧
    cumDur st'
    = (foldl (place duration) (gs, cumDur st) ((λ x, (trackID, x)) <$> smps)).2.
Proof.
  intros Hinv Hvalid. unfold split_fragment.
  intros (? & fr & [= <- Hfr] & Hrun)%bind_Done.
  apply bind_Done in Hrun as (? & trackID & [= <- Ht] & Hrun).
  apply bind_Done in Hrun as (? & fr' & [= <- Hfr'] & Hrun).
  apply bind_Done in Hrun as (? & smps & [= <- Hsm] & Hrun).
  rewrite Hfr in Hfr'. injection Hfr' as <-.
  assert (Hfr0 : deref (frags h0) inFrag = Done fr).
  { destruct inFrag as [l|]; [|done]. simpl in *.
    destruct Hinv as (Hagree & _). rewrite <- Hagree; [done|].
    apply Hvalid. by apply list_elem_of_singleton. }
  exists fr, trackID, smps. repeat split; try done.
  all: by eapply for_each_place_sample_inv.
Qed.

Lemma for_each_split_fragment_inv h0 trex duration ps : ∀ gs st st',
  Fragmentify_inv h0 gs st →
  no_dangling (frags h0) ps →
  for_each (split_fragment trex duration) ps st = (st', Done tt) →
  ∃ xs, extracted (frags h0) trex ps = Some xs ∧
        Fragmentify_inv h0 (foldl (place duration) (gs, cumDur st) xs).1 st' ∧
        cumDur st' = (foldl (place duration) (gs, cumDur st) xs).2.
Proof.
  induction ps as [| p ps IH]; intros gs st st' Hinv Hvalid; simpl.
  - intros [= <-]. by exists [].
  - intros (st1 & [] & Hstep & Hrest)%bind_Done.
    assert (Hp : no_dangling (frags h0) [p]).
    { intros l Hl. apply Hvalid. apply list_elem_of_singleton in Hl. subst. by left. }
    assert (Hps : no_dangling (frags h0) ps).
    { intros l Hl. apply Hvalid. by right. }
    destruct (split_fragment_inv _ _ _ _ _ _ _ Hinv Hp Hstep)
      as (fr & t & smps & Hfr & Ht & Hsm & Hinv1 & Hc1).
    destruct (IH _ _ _ Hinv1 Hps Hrest) as (xs & Hxs & Hinv2 & Hc2).
    exists (((λ x, (t, x)) <$> smps) ++ xs). rewrite Hfr, Ht, Hsm, Hxs.
    split; [done|]. rewrite foldl_app. rewrite Hc1 in Hinv2, Hc2.
    by destruct (foldl (place duration) (gs, cumDur st) ((λ x, (t, x)) <$> smps)).
Qed.

(** [Fragmentify], when it succeeds, returns new fragments that hold the
    groups of [grouping] on the samples extracted from the input fragments,
    and leaves the input fragments as they were. *)
Lemma Fragmentify_grouping s timescale trex duration h h' out :
  no_dangling (frags h) (Fragments s) →
  Fragmentify s timescale trex duration h = (h', Done out) →
  ∃ xs, extracted (frags h) trex (Fragments s) = Some xs ∧
        samples_at (frags h') out = Some (grouping duration xs).1 ∧
        (∀ l, is_Some (frags h !! l) → frags h' !! l = frags h !! l).
Proof.
  intros Hvalid. unfold Fragmentify.
  destruct (for_each _ _ _) as [st [[] | e |]] eqn:Hrun; try done.
  intros [= <- <-].
  destruct (for_each_split_fragment_inv h trex duration (Fragments s) []
              (mkFragmentifyState h [] None 0) st) as (xs & Hxs & Hinv & Hc); try done.
  { repeat split; simpl; try done.
    - apply NoDup_nil_2.
    - intros l Hl. by apply elem_of_nil in Hl. }
  exists xs. destruct Hinv as (Hagree & _ & _ & _ & Hgs). done.
Qed.

Lemma extracted_uint32 m trex ps xs :
  (∀ fr t smps, GetFullSamples fr t = Done smps →
                Forall (λ smp, is_uint32 (Dur smp)) smps) →
  extracted m trex ps = Some xs → Forall (λ x, is_uint32 (Dur x.2)) xs.
Proof.
  intros Hget. revert xs. induction ps as [| p ps IH]; intros xs; simpl.
  - intros [= <-]. constructor.
  - destruct (deref m p) as [fr | |]; try done.
    destruct (read_TrackID fr) as [t | |]; try done.
    destruct (GetFullSamples fr trex) as [smps | |] eqn:Hsm; try done.
    destruct (extracted m trex ps) as [rest|]; [|done]. intros [= <-].
    apply Forall_app. split; [|by apply IH].
    apply Forall_fmap. eapply Forall_impl; [by eapply Hget|]. done.
Qed.

(** C2, as amended. When [Fragmentify] succeeds, every returned fragment
    holds at least one sample, and every returned fragment but the last
    either has samples whose durations sum to the target duration or more,
    or holds a single sample of duration zero. *)
Theorem Fragmentify_duration_bound (s : MediaSegment) (timescale : Z)
    (trex : option TrexBox) (duration : Z) (h h' : Heap) (out : list ptr) :
  (∀ fr t smps, GetFullSamples fr t = Done smps →
                Forall (λ smp, is_uint32 (Dur smp)) smps) →
  is_uint32 duration →
  no_dangling (frags h) (Fragments s) →
  Fragmentify s timescale trex duration h = (h', Done out) →
  ∃ gs, samples_at (frags h') out = Some gs ∧
        Forall (λ g, g ≠ []) gs ∧
        ∀ gs' g, gs = gs' ++ [g] →
          Forall (λ g', duration <= total_dur g' ∨ ∃ x, g' = [x] ∧ Dur x.2 = 0) gs'.
Proof.
  intros Hget Hd Hvalid Hrun.
  destruct (Fragmentify_grouping _ _ _ _ _ _ _ Hvalid Hrun) as (xs & Hxs & Hgs & _).
  exists (grouping duration xs).1. split; [done|].
  destruct (grouping_groups duration xs Hd) as (Hne & _ & _ & Hlast).
  { by eapply extracted_uint32. }
  split; [done|]. intros gs' g Heq. by destruct (Hlast gs' g Heq) as (Hall & _).
Qed.
End Refragmentation.

End Proofs.

(** ** What [Fragmentify] appends

    The run with the recording collaborators mirrors the run with the given
    ones, step by step. *)

Section RecordingProofs.
Context {T : Types} {C : @Collaborators T}.

Local Abbreviation RT := (@recording_types T).
Local Abbreviation RC := (@recording T C).

Lemma forget_with_journal j (f : @Fragment T) : forget (with_journal j f) = f.
Proof. by destruct f. Qed.

Lemma forget_unrecorded (h : @Heap T) : forget_heap (unrecorded h) = h.
Proof.
  destruct h as [a b m]. unfold forget_heap, unrecorded. simpl. f_equal.
  rewrite <- map_fmap_compose. rewrite <- (map_fmap_id m) at 2.
  apply map_fmap_ext. intros l f _. apply forget_with_journal.
Qed.

Lemma outcome_map_id {A} (r : outcome A) : outcome_map id r = r.
Proof. by destruct r. Qed.

Lemma mirrors_ret {A B} (g : A → B) a : mirrors g (ret a) (ret (g a)).
Proof. by intros st. Qed.

Lemma mirrors_bind {A B A' B'} (g : A → B) (g' : A' → B') mR m kR k :
  mirrors g mR m → (∀ a, mirrors g' (kR a) (k (g a))) →
  mirrors g' (bind mR kR) (bind m k).
Proof.
  intros Hm Hk st. unfold bind. rewrite (Hm st).
  destruct (mR st) as [st1 [a | e |]]; simpl; [apply Hk | done..].
Qed.

Lemma mirrors_for_each {A} (vR : A → M (@FragmentifyState RT) unit) v xs :
  (∀ x, mirrors id (vR x) (v x)) → mirrors id (for_each vR xs) (for_each v xs).
Proof.
  intros Hv. induction xs as [| x xs IH]; simpl.
  - apply (mirrors_ret id tt).
  - eapply (mirrors_bind id id); [apply Hv | intros []; apply IH].
Qed.

Lemma mirrors_of_outcome {A B} (g : A → B) (rR : outcome A) (r : outcome B) :
  r = outcome_map g rR → mirrors g (of_outcome rR) (of_outcome r).
Proof. by intros -> st. Qed.

Lemma deref_forget (m : gmap loc (@Fragment RT)) p :
  deref (forget <$> m) p = outcome_map forget (deref m p).
Proof.
  destruct p as [l|]; simpl; [|done]. rewrite lookup_fmap. by destruct (m !! l).
Qed.

Lemma mirrors_load p : mirrors forget (@load RT p) (@load T p).
Proof. intros st. unfold load. simpl. by rewrite deref_forget. Qed.

Lemma mirrors_get_cumDur : mirrors id (@get_cumDur RT) (@get_cumDur T).
Proof. by intros st. Qed.

Lemma mirrors_set_cumDur c : mirrors id (@set_cumDur RT c) (@set_cumDur T c).
Proof. by intros st. Qed.

Lemma mirrors_open_fragment seq trackID :
  mirrors id (@open_fragment RT RC seq trackID) (@open_fragment T C seq trackID).
Proof.
  intros st. unfold open_fragment. simpl.
  destruct (@CreateFragment T C seq trackID) as [f | e |]; simpl; try done.
  unfold forget_state, forget_heap. simpl. rewrite dom_fmap_L, fmap_insert.
  by rewrite forget_with_journal.
Qed.

Lemma mirrors_add_to_open_fragment smp trackID :
  mirrors id (@add_to_open_fragment RT RC smp trackID)
             (@add_to_open_fragment T C smp trackID).
Proof.
  intros st. unfold add_to_open_fragment. simpl.
  destruct (of_ st) as [l|]; [|done]. rewrite lookup_fmap.
  destruct (frags (heap st) !! l) as [f|]; simpl; [|done].
  destruct (@AddFullSampleToTrack T C smp trackID (forget f)) as [f' r]. simpl.
  unfold forget_state, forget_heap. simpl. rewrite fmap_insert.
  rewrite forget_with_journal. by destruct r as [[] | |].
Qed.

Lemma mirrors_place_sample inFrag trackID duration smp :
  mirrors id (@place_sample RT RC inFrag trackID duration smp)
             (@place_sample T C inFrag trackID duration smp).
Proof.
  unfold place_sample.
  eapply (mirrors_bind id id); [apply mirrors_get_cumDur|]. intros c. simpl.
  eapply (mirrors_bind id id).
  { case_decide; [|apply (mirrors_ret id tt)].
    eapply (mirrors_bind forget id); [apply mirrors_load|]. intros fr.
    eapply (mirrors_bind id id).
    { apply (mirrors_of_outcome id). by rewrite outcome_map_id. }
    intros seq. apply mirrors_open_fragment. }
  intros [].
  eapply (mirrors_bind id id); [apply mirrors_add_to_open_fragment|]. intros [].
  eapply (mirrors_bind id id); [apply mirrors_get_cumDur|]. intros c'.
  eapply (mirrors_bind id id); [apply mirrors_set_cumDur|]. intros [].
  eapply (mirrors_bind id id); [apply mirrors_get_cumDur|]. intros c''. simpl.
  case_decide; [apply mirrors_set_cumDur | apply (mirrors_ret id tt)].
Qed.

Lemma mirrors_split_fragment trex duration inFrag :
  mirrors id (@split_fragment RT RC trex duration inFrag)
             (@split_fragment T C trex duration inFrag).
Proof.
  unfold split_fragment.
  eapply (mirrors_bind forget id); [apply mirrors_load|]. intros fr.
  eapply (mirrors_bind id id).
  { apply (mirrors_of_outcome id). by rewrite outcome_map_id. }
  intros trackID.
  eapply (mirrors_bind forget id); [apply mirrors_load|]. intros fr'.
  eapply (mirrors_bind id id).
  { apply (mirrors_of_outcome id). by rewrite outcome_map_id. }
  intros samples. apply mirrors_for_each. intros smp. apply mirrors_place_sample.
Qed.

(** [Fragmentify] with the recording collaborators does on the fragments
    what [Fragmentify] does, and returns the same. *)
Lemma Fragmentify_recording s timescale trex duration (hR : @Heap RT) :
  @Fragmentify T C s timescale trex duration (forget_heap hR)
  = (forget_heap (@Fragmentify RT RC s timescale trex duration hR).1,
     (@Fragmentify RT RC s timescale trex duration hR).2).
Proof.
  unfold Fragmentify.
  pose proof (mirrors_for_each _ _ (Fragments s)
                (mirrors_split_fragment trex duration)
                (@mkFragmentifyState RT hR [] None 0)) as Hsim.
  unfold forget_state in Hsim at 1. simpl in Hsim. rewrite Hsim. clear Hsim.
  destruct (for_each (@split_fragment RT RC trex duration) (Fragments s) _)
    as [st [[] | e |]]; done.
Qed.

(** The journals along a run. *)
Lemma open_fragment_journals seq trackID st st' :
  journals_ok st →
  @open_fragment RT RC seq trackID st = (st', Done tt) →
  journals_open trackID st'.
Proof.
  intros Hok. unfold open_fragment. simpl.
  destruct (@CreateFragment T C seq trackID) as [f | e |]; simpl; try done.
  set (l := fresh (dom (frags (heap st)))). intros [= <-]. simpl.
  assert (Hl : frags (heap st) !! l = None).
  { apply not_elem_of_dom. apply is_fresh. }
  intros l' Hin. simpl in *. apply elem_of_app in Hin as [Hin | Hin].
  - destruct (Hok l' Hin) as (f' & Hf' & Hw). exists f'. split; [|by left].
    rewrite lookup_insert_ne; [done|]. intros <-. congruence.
  - apply list_elem_of_singleton in Hin. injection Hin as ->.
    eexists. rewrite lookup_insert_eq. split; [done|]. right. split; [done|].
    by exists seq.
Qed.

Lemma add_to_open_fragment_journals smp trackID st st' :
  journals_open trackID st →
  @add_to_open_fragment RT RC smp trackID st = (st', Done tt) →
  journals_ok st'.
Proof.
  intros Hopen. unfold add_to_open_fragment. simpl.
  destruct (of_ st) as [l|] eqn:Hof; [|done].
  destruct (frags (heap st) !! l) as [f|] eqn:Hl; [|done].
  destruct (@AddFullSampleToTrack T C smp trackID (forget f)) as [f' r].
  intros [= <- ->]. intros l' Hin. simpl in *.
  destruct (Hopen l' Hin) as (f0 & Hf0 & Hw).
  destruct (decide (l' = l)) as [-> | Hne].
  - rewrite Hl in Hf0. injection Hf0 as <-.
    eexists. rewrite lookup_insert_eq. split; [done|]. unfold journal at 1. simpl.
    destruct Hw as [(seq & t & smp0 & rest & Hm & Ha) | (_ & seq & Hm & Ha)].
    + exists seq, t, smp0, (rest ++ [(trackID, smp)]). simpl. by rewrite Ha.
    + exists seq, trackID, smp, []. simpl. by rewrite Ha.
  - exists f0. rewrite lookup_insert_ne by done. split; [done|].
    destruct Hw as [Hw | ([= Heq] & _)]; [done | congruence].
Qed.

Lemma place_sample_journals inFrag trackID duration smp st st' :
  journals_ok st →
  @place_sample RT RC inFrag trackID duration smp st = (st', Done tt) →
  journals_ok st'.
Proof.
  intros Hok. unfold place_sample.
  intros (st0 & c & [= <- <-] & Hrun)%bind_Done.
  apply bind_Done in Hrun as (st1 & [] & Hopen & Hrun).
  apply bind_Done in Hrun as (st2 & [] & Hadd & Hrun).
  apply bind_Done in Hrun as (st3 & c2 & [= <- <-] & Hrun).
  apply bind_Done in Hrun as (st3 & [] & [= <-] & Hrun).
  apply bind_Done in Hrun as (st4 & c4 & [= <- <-] & Hrun). simpl in Hrun.
  assert (H1 : journals_open trackID st1).
  { destruct (decide (cumDur st = 0)).
    - apply bind_Done in Hopen as (? & fr & [= <- _] & Hopen).
      apply bind_Done in Hopen as (? & seq & [= <- _] & Hopen).
      by eapply open_fragment_journals.
    - injection Hopen as <-. intros l Hin. destruct (Hok l Hin) as (f & ? & ?).
      exists f. split; [done | by left]. }
  pose proof (add_to_open_fragment_journals _ _ _ _ H1 Hadd) as H2.
  case_decide; injection Hrun as <-; exact H2.
Qed.

Lemma for_each_journals {A} (v : A → M (@FragmentifyState RT) unit) xs :
  (∀ x st st', journals_ok st → v x st = (st', Done tt) → journals_ok st') →
  ∀ st st', journals_ok st → for_each v xs st = (st', Done tt) → journals_ok st'.
Proof.
  intros Hv. induction xs as [| x xs IH]; intros st st' Hok; simpl.
  - by intros [= <-].
  - intros (st1 & [] & Hx & Hrest)%bind_Done. eauto.
Qed.

Lemma split_fragment_journals trex duration inFrag st st' :
  journals_ok st →
  @split_fragment RT RC trex duration inFrag st = (st', Done tt) →
  journals_ok st'.
Proof.
  intros Hok. unfold split_fragment.
  intros (? & fr & [= <- _] & Hrun)%bind_Done.
  apply bind_Done in Hrun as (? & trackID & [= <- _] & Hrun).
  apply bind_Done in Hrun as (? & fr' & [= <- _] & Hrun).
  apply bind_Done in Hrun as (? & smps & [= <- _] & Hrun).
  revert Hrun. apply for_each_journals; [|done].
  intros smp st1 st2. apply place_sample_journals.
Qed.

Lemma Fragmentify_journals s timescale trex duration (hR hR' : @Heap RT) out :
  @Fragmentify RT RC s timescale trex duration hR = (hR', Done out) →
  ∀ l, Some l ∈ out → ∃ f, frags hR' !! l = Some f ∧ well_made (journal f).
Proof.
  unfold Fragmentify.
  destruct (for_each _ _ _) as [st [[] | e |]] eqn:Hrun; try done.
  intros [= <- <-].
  apply (for_each_journals _ _ (split_fragment_journals trex duration) _ _) in Hrun; [done|].
  intros l Hin. by apply elem_of_nil in Hin.
Qed.

Lemma recording_CreateFragment_empty seq trackID (f : @Fragment RT) :
  @CreateFragment RT RC seq trackID = Done f → @frag_samples RT RC f = [].
Proof.
  simpl. destruct (@CreateFragment T C seq trackID); simpl; [|done..]. by intros [= <-].
Qed.

Lemma recording_AddFullSampleToTrack_appends smp trackID (f f' : @Fragment RT) :
  @AddFullSampleToTrack RT RC smp trackID f = (f', Done tt) →
  @frag_samples RT RC f' = @frag_samples RT RC f ++ [(trackID, smp)].
Proof.
  simpl. destruct (@AddFullSampleToTrack T C smp trackID (forget f)) as [f0 r].
  by intros [= <- _].
Qed.

Lemma extracted_recording (m : gmap loc (@Fragment RT)) trex ps :
  @extracted RT RC m trex ps = @extracted T C (forget <$> m) trex ps.
Proof.
  induction ps as [| p ps IH]; simpl; [done|]. rewrite deref_forget, IH.
  by destruct (deref m p).
Qed.

Lemma read_TrackID_track_of (fr : @Fragment T) :
  read_TrackID fr = match track_of fr with Some t => Done t | None => Panic end.
Proof.
  unfold read_TrackID, track_of. destruct (Moof fr) as [moof|]; simpl; [|done].
  destruct (Traf moof) as [traf|]; simpl; [|done]. by destruct (Tfhd traf).
Qed.

Lemma extracted_input_samples (m : gmap loc (@Fragment T)) trex ps :
  extracted m trex ps = input_samples m trex ps.
Proof.
  induction ps as [| p ps IH]; simpl; [done|]. rewrite IH.
  destruct p as [l|]; simpl; [|done]. destruct (m !! l) as [fr|]; simpl; [|done].
  rewrite read_TrackID_track_of. destruct (track_of fr) as [t|]; simpl; [|done].
  by destruct (GetFullSamples fr trex).
Qed.

Lemma samples_at_journals (m : gmap loc (@Fragment RT)) ps :
  @samples_at RT RC m ps = (λ js : list Journal, appended <$> js) <$> journals_at m ps.
Proof.
  induction ps as [| [l|] ps IH]; simpl; [done | | done]. rewrite IH.
  destruct (m !! l); [|done]. by destruct (journals_at m ps).
Qed.

Lemma journals_at_Forall (P : Journal → Prop) (m : gmap loc (@Fragment RT)) ps js :
  journals_at m ps = Some js →
  (∀ l, Some l ∈ ps → ∃ f, m !! l = Some f ∧ P (journal f)) →
  Forall P js.
Proof.
  revert js. induction ps as [| [l|] ps IH]; intros js; simpl; [| | done].
  - intros [= <-] _. constructor.
  - destruct (m !! l) as [f|] eqn:Hl; [|done].
    destruct (journals_at m ps) as [rest|]; [|done]. intros [= <-] Hall.
    constructor.
    + destruct (Hall l) as (f' & Hf' & HP); [by left|]. congruence.
    + apply IH; [done|]. intros l' Hin. apply Hall. by right.
Qed.

End RecordingProofs.

(** * The claims on concrete segments

    The collaborators are those of [Demo]. *)

Lemma Demo_CreateFragment_empty (seq trackID : Z) (f : @Fragment Demo.types) :
  @CreateFragment _ Demo.collaborators seq trackID = Done f →
  @frag_samples _ Demo.collaborators f = [].
Proof. by intros [= <-]. Qed.

Lemma Demo_AddFullSampleToTrack_appends (smp : FullSample) (trackID : Z)
    (f f' : @Fragment Demo.types) :
  @AddFullSampleToTrack _ Demo.collaborators smp trackID f = (f', Done tt) →
  @frag_samples _ Demo.collaborators f'
  = @frag_samples _ Demo.collaborators f ++ [(trackID, smp)].
Proof. by intros [= <-]. Qed.

Lemma Demo_GetFullSamples_uint32 (fr : @Fragment Demo.types) (t : option unit)
    (smps : list FullSample) :
  @GetFullSamples _ Demo.collaborators fr t = Done smps →
  Forall (λ smp, is_uint32 (Dur smp)) smps.
Proof.
  simpl. unfold Demo.get_samples. case_decide as Hall; [|done]. by intros [= <-].
Qed.

Lemma Demo_bytes_EncodeSW (b w w' : list Z) :
  @box_EncodeSW _ _ Demo.bytes_Box b w = (w', Done tt) →
  Z.of_nat (length w') = Z.of_nat (length w) + Z.of_nat (length b).
Proof. intros [= <-]. rewrite length_app. lia. Qed.

Lemma Demo_fragment_EncodeSW (f : @Fragment Demo.types) (w w' : list Z) :
  @box_EncodeSW _ _ Demo.fragment_Box f w = (w', Done tt) →
  Z.of_nat (length w') = Z.of_nat (length w) + @box_Size _ _ Demo.fragment_Box f.
Proof.
  simpl. unfold Demo.frag_write. destruct (Demo.broken (Body f)); [done|].
  intros [= <-]. rewrite length_app. lia.
Qed.

Lemma Demo_no_dangling (fs : list (loc * @Fragment Demo.types)) (ps : list ptr) :
  forallb (λ p, match p with
                | Some l => bool_decide (is_Some (frags (Demo.store fs) !! l))
                | None => true
                end) ps = true →
  no_dangling (frags (Demo.store fs)) ps.
Proof.
  intros Hall l Hin. rewrite forallb_forall in Hall.
  apply list_elem_of_In in Hin. specialize (Hall _ Hin). simpl in Hall.
  by apply bool_decide_eq_true in Hall.
Qed.

(** C2, as stated, fails: a sample of duration zero is left alone in its
    fragment, which is not the last and stays under the target of 10. *)
Lemma Fragmentify_zero_duration_fragment :
  let h := Demo.store [(1%positive, Demo.fragment_of 3 [0; 5])] in
  let s := Demo.segment OptimizeNone [[]] [Some 1%positive] in
  let r := @Fragmentify _ Demo.collaborators s 90000 None 10 h in
  r.2 = Done [Some 2%positive; Some 3%positive] ∧
  @samples_at _ Demo.collaborators (frags r.1) [Some 2%positive; Some 3%positive]
  = Some [[(1, Demo.sample 0)]; [(1, Demo.sample 5)]] ∧
  total_dur [(1, Demo.sample 0)] < 10.
Proof. vm_compute. repeat split; reflexivity. Qed.

(** A run of [Fragmentify] over two input fragments, target 10. *)
Lemma Fragmentify_duration_bound_witness :
  let h := Demo.store [(1%positive, Demo.fragment_of 3 [0; 5; 7; 2]);
                       (2%positive, Demo.fragment_of 4 [10; 1])] in
  let s := Demo.segment OptimizeNone [[]; []] [Some 1%positive; Some 2%positive] in
  let r := @Fragmentify _ Demo.collaborators s 90000 None 10 h in
  let out := [Some 3%positive; Some 4%positive; Some 5%positive; Some 6%positive] in
  ∃ gs, @samples_at _ Demo.collaborators (frags r.1) out = Some gs ∧
        Forall (λ g, g ≠ []) gs ∧
        ∀ gs' g, gs = gs' ++ [g] →
          Forall (λ g', 10 <= total_dur g' ∨ ∃ x, g' = [x] ∧ Dur x.2 = 0) gs'.
Proof.
  intros h s r out.
  apply (@Fragmentify_duration_bound _ Demo.collaborators
           Demo_CreateFragment_empty Demo_AddFullSampleToTrack_appends
           s 90000 None 10 h r.1 out Demo_GetFullSamples_uint32).
  - vm_compute. split; [discriminate | reflexivity].
  - apply Demo_no_dangling. vm_compute. reflexivity.
  - vm_compute. reflexivity.
Defined.



(** The two examples of the duration check. *)
Lemma CommonSampleDuration_examples_witness :
  let f d := Demo.fragment OptimizeNone [] [] (Done d) None in
  let h3 := Demo.store [(1%positive, f 1024); (2%positive, f 1024); (3%positive, f 1024)] in
  let s3 := Demo.segment OptimizeNone [[]; []; []]
              [Some 1%positive; Some 2%positive; Some 3%positive] in
  let h2 := Demo.store [(1%positive, f 1024); (2%positive, f 2048)] in
  let s2 := Demo.segment OptimizeNone [[]; []] [Some 1%positive; Some 2%positive] in
  @CommonSampleDuration _ Demo.collaborators h3 s3 (Some tt) = Done 1024 ∧
  @CommonSampleDuration _ Demo.collaborators h2 s2 (Some tt)
  = Fail "different common sample duration in fragment 2".
Proof.
  intros f h3 s3 h2 s2. split.
  - apply (proj1 (@CommonSampleDuration_examples _ Demo.collaborators h3 s3 tt)).
    vm_compute. reflexivity.
  - apply (proj2 (@CommonSampleDuration_examples _ Demo.collaborators h2 s2 tt)).
    vm_compute. reflexivity.
Defined.


(** The empty segment. *)
Lemma CommonSampleDuration_no_fragments_witness :
  @CommonSampleDuration _ Demo.collaborators (Demo.store [])
     (Demo.segment OptimizeNone [] []) (Some tt) = Done 0.
Proof.
  apply (@CommonSampleDuration_no_fragments _ Demo.collaborators). reflexivity.
Defined.

(** C7, as stated, fails: every box's [EncodeSW] writes as many bytes as
    its [Size()] says, yet [Size] of the segment is 3 and [EncodeSW] of the
    segment writes 1 byte, because the fragment is encoded after its
    [EncOptimize] field is overwritten. *)
Lemma Size_differs_from_bytes_written :
  let f := Demo.fragment OptimizeNone [1; 2; 3] [9] (Done 1) None in
  let h := Demo.store [(1%positive, f)] in
  let s := Demo.segment OptimizeTrun [[]] [Some 1%positive] in
  let r := @EncodeSW _ Demo.collaborators s (h, []) in
  (∀ (b : @Fragment Demo.types) w w',
     @box_EncodeSW _ _ Demo.fragment_Box b w = (w', Done tt) →
     Z.of_nat (length w') = Z.of_nat (length w) + @box_Size _ _ Demo.fragment_Box b) ∧
  @Size _ Demo.collaborators h s = Done 3 ∧
  r.2 = Done tt ∧
  @sw_Offset _ Demo.collaborators r.1.2 - @sw_Offset _ Demo.collaborators [] = 1.
Proof.
  split; [apply Demo_fragment_EncodeSW|]. vm_compute. repeat split; reflexivity.
Qed.

(** A segment with a styp box, three sidx boxes and two fragments whose
    sizes do not depend on [EncOptimize]: 11 bytes. *)
Lemma Size_is_bytes_written_witness :
  let f1 := Demo.fragment OptimizeNone [1; 2; 3] [9] (Done 1) None in
  let f2 := Demo.fragment OptimizeTrun [4; 5] [4; 5] (Done 1) None in
  let h := Demo.store_of [(7%positive, [0; 0])] [(8%positive, [6]); (9%positive, [6; 6])]
             [(1%positive, f1); (2%positive, f2)] in
  let s := mkMediaSegment (Some 7%positive) (Some 8%positive)
             [[Some 8%positive]; [Some 9%positive; Some 8%positive]]
             [Some 1%positive; Some 2%positive] OptimizeNone 0 in
  @Size _ Demo.collaborators h s = Done 11 ∧
  (@EncodeSW _ Demo.collaborators s (h, [])).1.2 = [0; 0; 6; 1; 2; 3; 6; 6; 6; 4; 5].
Proof.
  intros f1 f2 h s.
  pose (r := @EncodeSW _ Demo.collaborators s (h, [])).
  destruct (@Size_is_bytes_written _ Demo.collaborators s h r.1.1 [] r.1.2)
    as (HSize & _).
  - intros [p | p | p] _; simpl; intros b _ w w'.
    + apply Demo_bytes_EncodeSW.
    + apply Demo_bytes_EncodeSW.
    + apply Demo_fragment_EncodeSW.
  - intros l f Hin Hl.
    apply elem_of_cons in Hin as [[= ->] | Hin];
      [| apply list_elem_of_singleton in Hin; injection Hin as ->];
      vm_compute in Hl; injection Hl as <-; reflexivity.
  - vm_compute. reflexivity.
  - vm_compute. reflexivity.
  - split; [|vm_compute; reflexivity]. rewrite HSize. vm_compute. reflexivity.
Defined.

(** C8, as stated, fails: the error of a failing fragment comes back as it
    is, the same whether the fragment is the first or the second of the
    segment; nothing in it names a box or a fragment index. *)
Lemma failure_without_context :
  let good := Demo.fragment OptimizeNone [1] [1] (Done 1) None in
  let bad := Demo.fragment OptimizeNone [2] [2] (Done 1) (Some "short write") in
  let h := Demo.store [(1%positive, good); (2%positive, bad)] in
  let first := Demo.segment OptimizeNone [[]; []] [Some 2%positive; Some 1%positive] in
  let second := Demo.segment OptimizeNone [[]; []] [Some 1%positive; Some 2%positive] in
  (@Encode _ Demo.collaborators first (h, [])).2 = Fail "short write" ∧
  (@Encode _ Demo.collaborators second (h, [])).2 = Fail "short write" ∧
  (@EncodeSW _ Demo.collaborators first (h, [])).2 = Fail "short write" ∧
  (@EncodeSW _ Demo.collaborators second (h, [])).2 = Fail "short write" ∧
  (@Info _ Demo.collaborators first "" "" "  " (h, [])).2 = Fail "short write" ∧
  (@Info _ Demo.collaborators second "" "" "  " (h, [])).2 = Fail "short write".
Proof. vm_compute. repeat split; reflexivity. Qed.

(** The second of three fragments fails: the first is written, the third
    is not reached. *)
Lemma failure_returned_unchanged_witness :
  let good := Demo.fragment OptimizeNone [1] [1] (Done 1) None in
  let bad := Demo.fragment OptimizeNone [2] [2] (Done 1) (Some "short write") in
  let h := Demo.store [(1%positive, good); (2%positive, bad); (3%positive, good)] in
  let s := Demo.segment OptimizeNone [[]; []; []]
             [Some 1%positive; Some 2%positive; Some 3%positive] in
  (@Encode _ Demo.collaborators s (h, [])).2 = Fail "short write" ∧
  (@Encode _ Demo.collaborators s (h, [])).1.2 = [1] ∧
  (@EncodeSW _ Demo.collaborators s (h, [])).2 = Fail "short write" ∧
  (@Info _ Demo.collaborators s "" "" "  " (h, [])).2 = Fail "short write".
Proof.
  intros good bad h s.
  destruct (@failure_returned_unchanged _ Demo.collaborators s
              [RefFrag (Some 1%positive)] [RefFrag (Some 3%positive)]
              (RefFrag (Some 2%positive)) "short write" "" "" "  " eq_refl)
    as (HEncode & HEncodeSW & HInfo).
  pose (o := SegEncOptimize s).
  pose (e1 := @for_each _ _ (@encode_box _ Demo.collaborators o)
                [RefFrag (Some 1%positive)] (h, [])).
  pose (e2 := @encode_box _ Demo.collaborators o (RefFrag (Some 2%positive)) e1.1).
  pose (w1 := @for_each _ _ (@encodeSW_box _ Demo.collaborators o)
                [RefFrag (Some 1%positive)] (h, [])).
  pose (w2 := @encodeSW_box _ Demo.collaborators o (RefFrag (Some 2%positive)) w1.1).
  pose (i1 := @for_each _ _ (@info_box _ Demo.collaborators "" "" "  ")
                [RefFrag (Some 1%positive)] (h, [])).
  pose (i2 := @info_box _ Demo.collaborators "" "" "  " (RefFrag (Some 2%positive)) i1.1).
  rewrite (HEncode (h, []) e1.1 e2.1), (HEncodeSW (h, []) w1.1 w2.1),
    (HInfo (h, []) i1.1 i2.1).
  - vm_compute. repeat split; reflexivity.
  - vm_compute. reflexivity.
  - vm_compute. reflexivity.
  - vm_compute. reflexivity.
  - vm_compute. reflexivity.
  - vm_compute. reflexivity.
  - vm_compute. reflexivity.
Defined.

(** C9, as stated, fails: the fragment had [OptimizeNone] before [Encode]
    and has the segment's [OptimizeTrun] after it returned, and likewise
    for [EncodeSW]. *)
Lemma EncOptimize_changed_after_encoding :
  let f := Demo.fragment OptimizeNone [1; 2; 3] [9] (Done 1) None in
  let h := Demo.store [(1%positive, f)] in
  let s := Demo.segment OptimizeTrun [[]] [Some 1%positive] in
  Demo.flag_at h 1%positive = Some OptimizeNone ∧
  (@Encode _ Demo.collaborators s (h, [])).2 = Done tt ∧
  Demo.flag_at (@Encode _ Demo.collaborators s (h, [])).1.1 1%positive
  = Some OptimizeTrun ∧
  (@EncodeSW _ Demo.collaborators s (h, [])).2 = Done tt ∧
  Demo.flag_at (@EncodeSW _ Demo.collaborators s (h, [])).1.1 1%positive
  = Some OptimizeTrun.
Proof. vm_compute. repeat split; reflexivity. Qed.

(** Two fragments encoded with success: both carry the segment's
    [OptimizeTrun], a third fragment of the store is as it was.  And three
    fragments, the second of which fails: the first two carry
    [OptimizeTrun], the third is not reached. *)
Lemma EncOptimize_stays_on_fragments_witness :
  let f := Demo.fragment OptimizeNone [1; 2; 3] [9] (Done 1) None in
  let bad := Demo.fragment OptimizeNone [2] [2] (Done 1) (Some "short write") in
  let h := Demo.store [(1%positive, f); (2%positive, f); (3%positive, f)] in
  let s := Demo.segment OptimizeTrun [[]; []] [Some 1%positive; Some 2%positive] in
  let h2 := Demo.store [(1%positive, f); (2%positive, bad); (3%positive, f)] in
  let s2 := Demo.segment OptimizeTrun [[]; []; []]
              [Some 1%positive; Some 2%positive; Some 3%positive] in
  let r := @Encode _ Demo.collaborators s (h, []) in
  let r2 := @Encode _ Demo.collaborators s2 (h2, []) in
  (r.2 = Done tt ∧
   @assigned _ OptimizeTrun [Some 1%positive; Some 2%positive] h r.1.1 ∧
   Demo.flag_at r.1.1 3%positive = Some OptimizeNone) ∧
  (r2.2 = Fail "short write" ∧
   @assigned _ OptimizeTrun [Some 1%positive; Some 2%positive] h2 r2.1.1 ∧
   Demo.flag_at r2.1.1 2%positive = Some OptimizeTrun ∧
   Demo.flag_at r2.1.1 3%positive = Some OptimizeNone).
Proof.
  intros f bad h s h2 s2 r r2. split.
  - destruct (@EncOptimize_stays_on_fragments _ Demo.collaborators s h) as [HEncode _].
    split; [vm_compute; reflexivity|]. split; [|vm_compute; reflexivity].
    apply (HEncode [] r.1.1 r.1.2). vm_compute. reflexivity.
  - destruct (@EncOptimize_stays_on_fragments _ Demo.collaborators s2 h2)
      as (_ & HEncode & _).
    pose (o := SegEncOptimize s2).
    pose (e1 := @for_each _ _ (@encode_box _ Demo.collaborators o)
                  [RefFrag (Some 1%positive)] (h2, [])).
    pose (e2 := @encode_box _ Demo.collaborators o (RefFrag (Some 2%positive)) e1.1).
    destruct (HEncode [RefFrag (Some 1%positive)] (RefFrag (Some 2%positive))
                [RefFrag (Some 3%positive)] [] e1.1 e2.1.1 e2.1.2 (Fail "short write"))
      as [Hrun Hflags].
    + reflexivity.
    + vm_compute. reflexivity.
    + vm_compute. reflexivity.
    + discriminate.
    + assert (Hr2 : r2 = (e2.1.1, e2.1.2, Fail "short write")) by exact Hrun.
      rewrite Hr2. split; [reflexivity|]. split; [exact Hflags|].
      vm_compute. split; reflexivity.
Defined.

(** C6, as stated, fails: an index box appended after the first fragment
    becomes [Sidx], and it lands in bucket 1; bucket 0 is empty. *)
Lemma Sidx_not_in_first_bucket :
  ∃ s, run (NewMediaSegmentWithStyp None)
           [CallAddFragment (Some 1%positive); CallAddSidx (Some 2%positive)] = Some s ∧
       Sidx s = Some 2%positive ∧ SidxsByFrag s !! 0%nat = Some [].
Proof. eexists. repeat split; reflexivity. Qed.

(** * The rest of the code *)

(** ** More on [AddSidx] and [AddFragment] *)

(** X1. [AddSidx] panics exactly on a segment that has fewer buckets than
    fragments. *)
Theorem AddSidx_panics_iff (s : MediaSegment) (sidx : ptr) :
  AddSidx s sidx = None ↔ (length (SidxsByFrag s) < length (Fragments s))%nat.
Proof.
  unfold AddSidx.
  destruct (Sidx s); simpl; case_decide as Heq; simpl.
  all: try (rewrite lookup_app_r by lia; rewrite Heq, Nat.sub_diag; simpl;
            split; [done | lia]).
  all: destruct (SidxsByFrag s !! length (Fragments s)) as [b|] eqn:Hb;
       [ apply lookup_lt_Some in Hb; split; [done | lia]
       | apply lookup_ge_None in Hb; split; [lia | done] ].
Qed.

Lemma zip_with_take_l {A B C} (f : A → B → C) (xs : list A) (ys : list B) :
  zip_with f xs ys = zip_with f xs (take (length xs) ys).
Proof.
  revert ys. induction xs as [| x xs IH]; intros [| y ys]; simpl; try done.
  by rewrite <- IH.
Qed.

Lemma traversal_take s :
  traversal s
  = styp_ref (Styp s)
    ++ concat (zip_with boxes_of_fragment (Fragments s)
                 (take (length (Fragments s)) (SidxsByFrag s))).
Proof. unfold traversal, styp_ref. by rewrite <- zip_with_take_l. Qed.

(** The segment that [AddSidx] leaves, given the bucket invariant: the box
    is at the end of the bucket of the fragment to come. *)
Lemma AddSidx_shape s p s' :
  buckets_ok s → AddSidx s p = Some s' →
  Styp s' = Styp s ∧ Fragments s' = Fragments s ∧
  SegEncOptimize s' = SegEncOptimize s ∧ StartPos s' = StartPos s ∧
  SidxsByFrag s'
  = take (length (Fragments s)) (SidxsByFrag s) ++ [pending s ++ [p]].
Proof.
  unfold buckets_ok, AddSidx, pending. intros Hl.
  destruct (Sidx s); simpl; case_decide as Heq; simpl.
  all: try (rewrite lookup_app_r by lia; rewrite Heq, Nat.sub_diag; simpl;
            intros [= <-]; simpl; repeat split;
            rewrite <- Heq, take_ge, lookup_ge_None_2 by lia; simpl;
            rewrite <- (Nat.add_0_r (length (SidxsByFrag s)));
            by rewrite insert_app_r).
  all: destruct (SidxsByFrag s !! length (Fragments s)) as [b|] eqn:Hb; [|done];
       intros [= <-]; simpl; repeat split;
       rewrite <- (take_drop_middle _ _ _ Hb) at 1;
       rewrite <- (Nat.add_0_r (length (Fragments s))) at 1;
       replace (length (Fragments s) + 0)%nat
         with (length (take (length (Fragments s)) (SidxsByFrag s)) + 0)%nat
         by (rewrite length_take; lia);
       rewrite insert_app_r; simpl;
       rewrite drop_ge by lia; done.
Qed.

(** The segment that [AddFragment] leaves, given the bucket invariant: the
    fragment takes the pending bucket. *)
Lemma AddFragment_shape s f :
  buckets_ok s →
  Styp (AddFragment s f) = Styp s ∧ Sidx (AddFragment s f) = Sidx s ∧
  Fragments (AddFragment s f) = Fragments s ++ [f] ∧
  SegEncOptimize (AddFragment s f) = SegEncOptimize s ∧
  StartPos (AddFragment s f) = StartPos s ∧
  SidxsByFrag (AddFragment s f)
  = take (length (Fragments s)) (SidxsByFrag s) ++ [pending s].
Proof.
  unfold buckets_ok, AddFragment, pending. simpl. rewrite length_app. simpl.
  intros Hl. case_decide as Hlt; simpl; repeat split.
  - rewrite take_ge, lookup_ge_None_2 by lia. done.
  - destruct (SidxsByFrag s !! length (Fragments s)) as [b|] eqn:Hb.
    + rewrite <- (take_drop_middle _ _ _ Hb) at 1. simpl.
      rewrite drop_ge by lia. done.
    + apply lookup_ge_None in Hb. lia.
Qed.

(** [AddSidx] moves no box of the stream: the new box waits in the pending
    bucket. *)
Lemma AddSidx_traversal s p s' :
  buckets_ok s → AddSidx s p = Some s' →
  traversal s' = traversal s ∧ pending s' = pending s ++ [p].
Proof.
  intros Hok Hadd.
  destruct (AddSidx_shape s p s' Hok Hadd) as (HS & HF & _ & _ & HB).
  assert (Hlen : length (take (length (Fragments s)) (SidxsByFrag s))
                 = length (Fragments s)).
  { rewrite length_take. unfold buckets_ok in Hok. lia. }
  split.
  - rewrite (traversal_take s'), (traversal_take s), HS, HF, HB.
    by rewrite take_app_length'.
  - unfold pending at 1. rewrite HF, HB.
    rewrite lookup_app_r by lia. by rewrite Hlen, Nat.sub_diag.
Qed.

(** [AddFragment] puts the pending boxes and then the fragment at the end
    of the stream. *)
Lemma AddFragment_traversal s f :
  buckets_ok s →
  traversal (AddFragment s f)
  = traversal s ++ (RefSidx <$> pending s) ++ [RefFrag f] ∧
  pending (AddFragment s f) = [].
Proof.
  intros Hok.
  destruct (AddFragment_shape s f Hok) as (HS & _ & HF & _ & _ & HB).
  assert (Hlen : length (take (length (Fragments s)) (SidxsByFrag s))
                 = length (Fragments s)).
  { rewrite length_take. unfold buckets_ok in Hok. lia. }
  split.
  - rewrite (traversal_take (AddFragment s f)), (traversal_take s), HS, HF, HB.
    rewrite length_app. simpl. rewrite take_ge by (rewrite length_app; simpl; lia).
    rewrite zip_with_app by done. simpl. rewrite concat_app. simpl.
    rewrite app_nil_r. by rewrite <- app_assoc.
  - unfold pending. rewrite HF, HB. rewrite lookup_ge_None_2; [done|].
    rewrite !length_app. simpl. lia.
Qed.

Lemma run_app s cs cs' :
  run s (cs ++ cs') = match run s cs with
                      | Some s1 => run s1 cs'
                      | None => None
                      end.
Proof.
  revert s. induction cs as [| c cs IH]; intros s; simpl; [done|].
  destruct (call s c); [apply IH | done].
Qed.

(** What a sequence of calls makes of a segment that satisfies the bucket
    invariant. *)
Lemma run_fields cs : ∀ s,
  buckets_ok s →
  ∃ s', run s cs = Some s' ∧ buckets_ok s' ∧
        Styp s' = Styp s ∧ SegEncOptimize s' = SegEncOptimize s ∧
        StartPos s' = StartPos s ∧
        Fragments s' = Fragments s ++ frag_args cs ∧
        concat (SidxsByFrag s') = concat (SidxsByFrag s) ++ sidx_args cs ∧
        traversal s' ++ (RefSidx <$> pending s')
        = traversal s ++ (RefSidx <$> pending s) ++ (call_ref <$> cs).
Proof.
  induction cs as [| c cs IH]; intros s Hok; simpl.
  - exists s. by rewrite !app_nil_r.
  - destruct c as [p | p]; simpl.
    + destruct (AddSidx_buckets_ok s p Hok) as (s1 & Hadd & Hok1 & _).
      destruct (AddSidx_shape s p s1 Hok Hadd) as (HS & HF & HO & HP & _).
      destruct (AddSidx_concat s p s1 Hok Hadd) as [Hcat _].
      destruct (AddSidx_traversal s p s1 Hok Hadd) as [Htr Hpend].
      destruct (IH s1 Hok1) as (s' & Hrun & Hok' & HS' & HO' & HP' & HF' & Hcat' & Htr').
      exists s'. rewrite Hadd. split; [done|]. split; [done|].
      rewrite HS', HO', HP', HF', Hcat', Htr', HS, HO, HP, HF, Hcat, Htr, Hpend.
      repeat split; try done.
      * by rewrite <- app_assoc.
      * rewrite fmap_app. simpl. by rewrite <- !app_assoc.
    + pose proof (AddFragment_buckets_ok s p Hok) as Hok1.
      destruct (AddFragment_shape s p Hok) as (HS & _ & HF & HO & HP & _).
      destruct (AddFragment_concat s p) as [Hcat _].
      destruct (AddFragment_traversal s p Hok) as [Htr Hpend].
      destruct (IH _ Hok1) as (s' & Hrun & Hok' & HS' & HO' & HP' & HF' & Hcat' & Htr').
      exists s'. split; [done|]. split; [done|].
      rewrite HS', HO', HP', HF', Hcat', Htr', HS, HO, HP, HF, Hcat, Htr, Hpend.
      repeat split; try done.
      * by rewrite <- app_assoc.
      * simpl. by rewrite <- !app_assoc.
Qed.

(** X2. A segment is append-only: after any sequence of [AddSidx] and
    [AddFragment] calls on an empty segment, [Fragments] holds the fragments
    of the calls in call order, the buckets read in order hold the sidx
    boxes of the calls in call order, and [Styp], [EncOptimize] and
    [StartPos] are as the constructor set them. *)
Theorem built_segment_fields (styp : ptr) (cs : list Call) :
  ∃ s, run (NewMediaSegmentWithStyp styp) cs = Some s ∧
       Fragments s = frag_args cs ∧
       concat (SidxsByFrag s) = sidx_args cs ∧
       Styp s = styp ∧ SegEncOptimize s = OptimizeNone ∧ StartPos s = 0.
Proof.
  destruct (run_fields cs _ (New_buckets_ok styp))
    as (s & Hrun & _ & HS & HO & HP & HF & Hcat & _).
  exists s. repeat split; done.
Qed.

(** X3. Stream order is call order: after any sequence of calls on an empty
    segment, the boxes that the traversals visit, followed by the sidx boxes
    appended since the last fragment, are the styp box followed by the boxes
    of the calls in call order. No sidx box is pending when the last call
    was [AddFragment]. *)
Theorem traversal_is_call_order (styp : ptr) (cs : list Call) :
  ∃ s, run (NewMediaSegmentWithStyp styp) cs = Some s ∧
       traversal s ++ (RefSidx <$> pending s) = styp_ref styp ++ (call_ref <$> cs) ∧
       (∀ cs' f, cs = cs' ++ [CallAddFragment f] →
                 traversal s = styp_ref styp ++ (call_ref <$> cs)).
Proof.
  destruct (run_fields cs _ (New_buckets_ok styp))
    as (s & Hrun & _ & _ & _ & _ & _ & _ & Htr).
  assert (Hall : traversal s ++ (RefSidx <$> pending s)
                 = styp_ref styp ++ (call_ref <$> cs)).
  { rewrite Htr. unfold traversal, pending, styp_ref. simpl.
    destruct styp; simpl; by rewrite ?app_nil_r. }
  exists s. split; [done|]. split; [done|].
  intros cs' f ->. rewrite <- Hall.
  rewrite run_app in Hrun.
  destruct (run_fields cs' _ (New_buckets_ok styp)) as (s1 & Hrun1 & Hok1 & _).
  rewrite Hrun1 in Hrun. simpl in Hrun. injection Hrun as <-.
  destruct (AddFragment_traversal s1 f Hok1) as [_ ->]. simpl. by rewrite app_nil_r.
Qed.

(** X6. [LastFragment] returns the fragment of the last [AddFragment] call,
    and nil when there was none. *)
Theorem LastFragment_is_last_added (styp : ptr) (cs : list Call) :
  ∃ s, run (NewMediaSegmentWithStyp styp) cs = Some s ∧
       LastFragment s = default None (last (frag_args cs)).
Proof.
  destruct (run_fields cs _ (New_buckets_ok styp))
    as (s & Hrun & _ & _ & _ & _ & HF & _).
  exists s. split; [done|]. unfold LastFragment. rewrite HF. simpl.
  destruct (frag_args cs) as [| p ps _] using rev_ind; [done|].
  rewrite last_snoc. simpl.
  destruct (ps ++ [p]) eqn:Heq; [by destruct ps|]. rewrite <- Heq.
  rewrite length_app. simpl.
  rewrite lookup_app_r by lia.
  replace (length ps + 1 - 1 - length ps)%nat with 0%nat by lia. done.
Qed.

(** X23. [Sidx] is set once: after any sequence of calls on an empty
    segment it is the first non-nil box passed to [AddSidx], and nil when
    there was none. *)
Theorem Sidx_is_first_AddSidx (styp : ptr) (cs : list Call) :
  ∃ s, run (NewMediaSegmentWithStyp styp) cs = Some s ∧
       Sidx s = first_non_nil (sidx_args cs).
Proof.
  destruct (run_Sidx_ok cs (NewMediaSegmentWithStyp styp)) as (s & Hrun & _ & HS).
  { split; [apply New_buckets_ok | done]. }
  destruct (run_fields cs _ (New_buckets_ok styp))
    as (s' & Hrun' & _ & _ & _ & _ & _ & Hcat & _).
  rewrite Hrun in Hrun'. injection Hrun' as <-.
  exists s. split; [done|]. by rewrite HS, Hcat.
Qed.

Section MoreProofs.
Context `{Collaborators} `{!FragmentTree}.

(** ** More on [Size], [Encode], [EncodeSW] and [Info] *)

Lemma bucket_check_ok {St} s (st : St) :
  (length (Fragments s) ≤ length (SidxsByFrag s))%nat →
  bucket_check s st = (st, Done tt).
Proof. intros Hlen. unfold bucket_check. by rewrite decide_True. Qed.

Lemma buckets_ok_le s :
  buckets_ok s → (length (Fragments s) ≤ length (SidxsByFrag s))%nat.
Proof. unfold buckets_ok. lia. Qed.

(** X4. A sidx box appended by [AddSidx] is pending: until a fragment
    follows it, it does not count in [Size] and [Encode], [EncodeSW] and
    [Info] do what they did without it. *)
Theorem AddSidx_is_pending (s s' : MediaSegment) (sidx : ptr) (h : Heap) :
  length (SidxsByFrag s) = length (Fragments s) ∨
  length (SidxsByFrag s) = S (length (Fragments s)) →
  AddSidx s sidx = Some s' →
  Size h s' = Size h s ∧
  (∀ st, Encode s' st = Encode s st) ∧
  (∀ st, EncodeSW s' st = EncodeSW s st) ∧
  (∀ lv ind step st, Info s' lv ind step st = Info s lv ind step st).
Proof.
  intros Hok Hadd.
  destruct (AddSidx_buckets_ok s sidx Hok) as (s1 & Hadd1 & Hok' & _).
  rewrite Hadd in Hadd1. injection Hadd1 as <-.
  destruct (AddSidx_traversal s sidx s' Hok Hadd) as [Htr _].
  destruct (AddSidx_shape s sidx s' Hok Hadd) as (_ & _ & HO & _).
  pose proof (buckets_ok_le s Hok) as Hle. pose proof (buckets_ok_le s' Hok') as Hle'.
  repeat split.
  - unfold Size. rewrite !Size_walk_flat. unfold bind. rewrite Htr.
    destruct (for_each size_box (traversal s) (h, 0)) as [st [[] | e |]]; try done.
    by rewrite !bucket_check_ok.
  - intros st. rewrite !Encode_flat. unfold bind. rewrite Htr, HO.
    destruct (for_each _ (traversal s) st) as [st1 [[] | e |]]; try done.
    by rewrite !bucket_check_ok.
  - intros st. rewrite !EncodeSW_flat. unfold bind. rewrite Htr, HO.
    destruct (for_each _ (traversal s) st) as [st1 [[] | e |]]; try done.
    by rewrite !bucket_check_ok.
  - intros lv ind step st. rewrite !Info_flat. unfold bind. rewrite Htr.
    destruct (for_each _ (traversal s) st) as [st1 [[] | e |]]; try done.
    by rewrite !bucket_check_ok.
Qed.

Lemma size_at_not_Fail h r e : size_at h r ≠ Fail e.
Proof.
  destruct r as [p | p | p]; simpl.
  - pose proof (deref_not_Fail (styps h) p) as Hnf.
    destruct (deref (styps h) p) as [b | e' |]; [done | by destruct (Hnf e') | done].
  - pose proof (deref_not_Fail (sidxs h) p) as Hnf.
    destruct (deref (sidxs h) p) as [b | e' |]; [done | by destruct (Hnf e') | done].
  - pose proof (deref_not_Fail (frags h) p) as Hnf.
    destruct (deref (frags h) p) as [b | e' |]; [done | by destruct (Hnf e') | done].
Qed.

Lemma for_each_size_box_None h rs : ∀ acc,
  sum_sizes h rs = None → (for_each size_box rs (h, acc)).2 = Panic.
Proof.
  induction rs as [| r rs IH]; intros acc; simpl; [done|].
  unfold bind. rewrite size_box_step.
  pose proof (size_at_not_Fail h r) as Hnf.
  destruct (size_at h r) as [a | e |] eqn:Hr; [| by destruct (Hnf e) | done].
  destruct (sum_sizes h rs) eqn:Hs; [done|]. intros _. by apply IH.
Qed.

Lemma for_each_size_box_not_Fail h rs : ∀ acc e,
  (for_each size_box rs (h, acc)).2 ≠ Fail e.
Proof.
  induction rs as [| r rs IH]; intros acc e; simpl; [done|].
  unfold bind. rewrite size_box_step.
  pose proof (size_at_not_Fail h r) as Hnf.
  destruct (size_at h r) as [a | e' |] eqn:Hr; [| by destruct (Hnf e') | done].
  apply IH.
Qed.

Lemma Size_outcome h s :
  Size h s =
  if decide (length (Fragments s) ≤ length (SidxsByFrag s))%nat
  then match sum_sizes h (traversal s) with
       | Some n => Done (wrap64 n)
       | None => Panic
       end
  else Panic.
Proof.
  case_decide as Hlen.
  - destruct (sum_sizes h (traversal s)) as [n|] eqn:Hsum.
    + by apply Size_sum.
    + unfold Size. rewrite Size_walk_flat. unfold bind.
      pose proof (for_each_size_box_None h (traversal s) 0 Hsum) as Hp.
      destruct (for_each size_box (traversal s) (h, 0)) as [st r]. simpl in Hp.
      by subst r.
  - unfold Size. rewrite Size_walk_flat. unfold bind, bucket_check.
    rewrite decide_False by done.
    pose proof (for_each_size_box_not_Fail h (traversal s) 0) as Hnf.
    destruct (for_each size_box (traversal s) (h, 0)) as [st [[] | e |]]; try done.
    by destruct (Hnf e).
Qed.

(** X11. [Size] is the sum of the sizes of the boxes of the traversal,
    modulo [2^64]; it panics when a fragment has no bucket or a box of the
    traversal is behind a nil pointer, and it never returns an error. *)
Theorem Size_is_wrapped_sum (h : Heap) (s : MediaSegment) :
  Size h s =
  if decide (length (Fragments s) ≤ length (SidxsByFrag s))%nat
  then match sum_sizes h (traversal s) with
       | Some n => Done (wrap64 n)
       | None => Panic
       end
  else Panic.
Proof. apply Size_outcome. Qed.

Lemma sum_sizes_app h rs rs' :
  sum_sizes h (rs ++ rs') =
  match sum_sizes h rs, sum_sizes h rs' with
  | Some n, Some m => Some (n + m)
  | _, _ => None
  end.
Proof.
  induction rs as [| r rs IH]; simpl.
  - by destruct (sum_sizes h rs').
  - rewrite IH. destruct (size_at h r); try done.
    destruct (sum_sizes h rs), (sum_sizes h rs'); try done. f_equal. lia.
Qed.

Lemma sum_sizes_singleton h r k : size_at h r = Done k → sum_sizes h [r] = Some k.
Proof. simpl. intros ->. f_equal. lia. Qed.

(** X5. Sizes add up: on a segment that satisfies the bucket invariant,
    [Size] after [AddFragment] is [Size] before it plus the sizes of the
    pending sidx boxes plus the size of the fragment, modulo [2^64]. *)
Theorem Size_AddFragment (h : Heap) (s : MediaSegment) (f : ptr) (a m k : Z) :
  length (SidxsByFrag s) = length (Fragments s) ∨
  length (SidxsByFrag s) = S (length (Fragments s)) →
  Size h s = Done a →
  sum_sizes h (RefSidx <$> pending s) = Some m →
  size_at h (RefFrag f) = Done k →
  Size h (AddFragment s f) = Done (wrap64 (a + m + k)).
Proof.
  intros Hok Ha Hm Hk.
  pose proof (buckets_ok_le _ (AddFragment_buckets_ok s f Hok)) as Hle'.
  rewrite Size_outcome in Ha. rewrite decide_True in Ha by (by apply buckets_ok_le).
  destruct (sum_sizes h (traversal s)) as [n|] eqn:Hn; [|done]. injection Ha as <-.
  rewrite Size_outcome, decide_True by done.
  destruct (AddFragment_traversal s f Hok) as [-> _].
  rewrite !sum_sizes_app, Hn, Hm, (sum_sizes_singleton h _ k Hk). f_equal.
  rewrite Z.add_assoc. unfold wrap64.
  rewrite <- (Zplus_mod_idemp_l (n mod uint64_mod + m)), <- (Zplus_mod_idemp_l (n mod uint64_mod)).
  rewrite Zmod_mod. rewrite (Zplus_mod_idemp_l n), (Zplus_mod_idemp_l (n + m)). done.
Qed.

(** X10. A segment with no styp box and no fragments is empty for the
    traversals, whatever sidx boxes are pending: [Size] is 0 and [Encode],
    [EncodeSW] and [Info] succeed without touching the store or the target.
    [FirstBox] all the same returns the first pending sidx box. *)
Theorem pending_sidx_not_written (h : Heap) (s : MediaSegment) :
  Styp s = None → Fragments s = [] →
  Size h s = Done 0 ∧
  (∀ st, Encode s st = (st, Done tt)) ∧
  (∀ st, EncodeSW s st = (st, Done tt)) ∧
  (∀ lv ind step st, Info s lv ind step st = (st, Done tt)) ∧
  (∀ sidx b bs, SidxsByFrag s = (sidx :: b) :: bs →
                FirstBox h s = Done (BoxOfSidx sidx)).
Proof.
  intros HS HF. unfold Size, Size_walk, Encode, EncodeSW, Info, FirstBox.
  rewrite HS, HF. repeat split. intros sidx b bs ->. done.
Qed.

(** X12. [Info] leaves the store as it is (it does not assign
    [EncOptimize]). *)
Theorem Info_keeps_store (s : MediaSegment) (lv ind step : string)
    (st : Heap * Writer) :
  (Info s lv ind step st).1.1 = st.1.
Proof.
  rewrite Info_flat. unfold bind.
  assert (Hfe : ∀ rs st0, (for_each (info_box lv ind step) rs st0).1.1 = st0.1).
  { induction rs as [| r rs IH]; intros st0; simpl; [done|]. unfold bind.
    destruct (info_box lv ind step r st0) as [st1 r1] eqn:Hr.
    assert (st1.1 = st0.1) as Hst.
    { destruct r; simpl in Hr; by eapply load_then_target_heap in Hr. }
    destruct r1 as [[] | e |]; simpl; try done. by rewrite IH. }
  specialize (Hfe (traversal s) st).
  destruct (for_each (info_box lv ind step) (traversal s) st) as [st1 [[] | e |]];
    simpl in *; try done.
  unfold bucket_check. by case_decide.
Qed.

(** Every fragment of [rs] in the store has [o] in its [EncOptimize]
    field. *)
Lemma store_EncOptimize_same {W} l o (f : Fragment) (st : Heap * W) :
  frags st.1 !! l = Some f → FragEncOptimize f = o →
  store_EncOptimize (Some l) o st = (st, Done tt).
Proof.
  intros Hl Ho. unfold store_EncOptimize. rewrite Hl.
  assert (set_FragEncOptimize o f = f) as -> by (destruct f; simpl in *; by subst).
  rewrite insert_id by done. rewrite set_frags_id. by destruct st.
Qed.

Lemma load_then_target_keeps {W B} (ld : M (Heap * W) B) (op : B → M W unit) st :
  (∀ st0, (ld st0).1 = st0) → ((b <- ld ;; on_target (op b)) st).1.1 = st.1.
Proof.
  intros Hld. destruct ((b <- ld ;; on_target (op b)) st) as [st' r] eqn:Hr.
  by apply load_then_target_heap in Hr.
Qed.

Lemma frag_step_keeps_store {W} (op : Fragment → M W unit) p o (st : Heap * W) :
  (∀ l f, p = Some l → frags st.1 !! l = Some f → FragEncOptimize f = o) →
  ((store_EncOptimize p o ;; b <- load_frag p ;; on_target (op b)) st).1.1 = st.1.
Proof.
  intros Hflag. destruct p as [l|]; [|done].
  destruct (frags st.1 !! l) as [f|] eqn:Hl.
  - unfold bind at 1. rewrite (store_EncOptimize_same l o f st Hl (Hflag l f eq_refl Hl)).
    by apply load_then_target_keeps.
  - unfold bind, store_EncOptimize. by rewrite Hl.
Qed.

Lemma for_each_keeps_store {W} (v : BoxRef → M (Heap * W) unit) h rs :
  (∀ r w, r ∈ rs → (v r (h, w)).1.1 = h) →
  ∀ w, (for_each v rs (h, w)).1.1 = h.
Proof.
  induction rs as [| r rs IH]; intros Hv w; simpl; [done|]. unfold bind.
  pose proof (Hv r w (list_elem_of_here _ _)) as Hr.
  destruct (v r (h, w)) as [[h1 w1] [[] | e |]]; simpl in *; try done.
  subst h1. apply IH. intros r' w' Hin. apply Hv. by right.
Qed.

Lemma flagged_keeps_store s h :
  (∀ l f, Some l ∈ Fragments s → frags h !! l = Some f →
          FragEncOptimize f = SegEncOptimize s) →
  (∀ w, (Encode s (h, w)).1.1 = h) ∧ (∀ sw, (EncodeSW s (h, sw)).1.1 = h).
Proof.
  intros Hflag. split.
  - intros w. rewrite Encode_flat. unfold bind.
    pose proof (for_each_keeps_store (encode_box (SegEncOptimize s)) h (traversal s)) as Hfe.
    destruct (for_each _ (traversal s) (h, w)) as [[h1 w1] r] eqn:Hrun.
    assert (h1 = h) as ->.
    { specialize (Hfe) with (w := w). rewrite Hrun in Hfe. apply Hfe.
      intros [p | p | p] w0 Hin; simpl.
      - by apply (load_then_target_keeps _ _ (h, w0)).
      - by apply (load_then_target_keeps _ _ (h, w0)).
      - apply (frag_step_keeps_store box_Encode p _ (h, w0)).
        intros l f -> Hl. apply (Hflag l f); [|done]. by apply RefFrag_in_traversal. }
    destruct r as [[] | e |]; try done. unfold bucket_check. by case_decide.
  - intros w. rewrite EncodeSW_flat. unfold bind.
    pose proof (for_each_keeps_store (encodeSW_box (SegEncOptimize s)) h (traversal s)) as Hfe.
    destruct (for_each _ (traversal s) (h, w)) as [[h1 w1] r] eqn:Hrun.
    assert (h1 = h) as ->.
    { specialize (Hfe) with (w := w). rewrite Hrun in Hfe. apply Hfe.
      intros [p | p | p] w0 Hin; simpl.
      - by apply (load_then_target_keeps _ _ (h, w0)).
      - by apply (load_then_target_keeps _ _ (h, w0)).
      - apply (frag_step_keeps_store box_EncodeSW p _ (h, w0)).
        intros l f -> Hl. apply (Hflag l f); [|done]. by apply RefFrag_in_traversal. }
    destruct r as [[] | e |]; try done. unfold bucket_check. by case_decide.
Qed.

Lemma project_flagged s h (m : gmap loc Fragment) :
  m = project (SegEncOptimize s) (Fragments s) (frags h) →
  ∀ l f, Some l ∈ Fragments s → m !! l = Some f →
         FragEncOptimize f = SegEncOptimize s.
Proof.
  intros -> l f Hin. rewrite project_lookup, decide_True by done.
  destruct (frags h !! l); [|done]. by intros [= <-].
Qed.

(** X13. The first successful encoding is the only one that changes the
    store: after a successful [Encode] or [EncodeSW] of a segment, a further
    [Encode] or [EncodeSW] of it leaves the store as it is, whatever its
    outcome. *)
Theorem encoding_again_keeps_store (s : MediaSegment) (h h1 : Heap) :
  (∀ w w1, Encode s (h, w) = ((h1, w1), Done tt) →
     (∀ w2, (Encode s (h1, w2)).1.1 = h1) ∧
     (∀ sw2, (EncodeSW s (h1, sw2)).1.1 = h1)) ∧
  (∀ sw sw1, EncodeSW s (h, sw) = ((h1, sw1), Done tt) →
     (∀ w2, (Encode s (h1, w2)).1.1 = h1) ∧
     (∀ sw2, (EncodeSW s (h1, sw2)).1.1 = h1)).
Proof.
  split.
  - intros w w1. rewrite Encode_flat.
    intros [_ Hd]%(traversal_heap _ (SegEncOptimize s)); [|apply encode_box_heap].
    apply flagged_keeps_store. apply (project_flagged s h).
    simpl in Hd. by rewrite (Hd eq_refl).
  - intros w w1. rewrite EncodeSW_flat.
    intros [_ Hd]%(traversal_heap _ (SegEncOptimize s)); [|apply encodeSW_box_heap].
    apply flagged_keeps_store. apply (project_flagged s h).
    simpl in Hd. by rewrite (Hd eq_refl).
Qed.

(** X14. Once a segment has been encoded, [Size] is exact: when a
    successful [EncodeSW] of any box moves the cursor by that box's
    [Size()], then after one successful [EncodeSW] of the segment, [Size]
    is the number of bytes that a further successful [EncodeSW] writes. *)
Theorem Size_exact_after_encoding (s : MediaSegment) (h h1 h2 : Heap)
    (sw sw1 sw2 sw3 : SliceWriter) :
  (∀ (b : StypBox) w w', box_EncodeSW b w = (w', Done tt) →
                           sw_Offset w' = sw_Offset w + box_Size b) →
  (∀ (b : SidxBox) w w', box_EncodeSW b w = (w', Done tt) →
                           sw_Offset w' = sw_Offset w + box_Size b) →
  (∀ (b : Fragment) w w', box_EncodeSW b w = (w', Done tt) →
                            sw_Offset w' = sw_Offset w + box_Size b) →
  EncodeSW s (h, sw) = ((h1, sw1), Done tt) →
  EncodeSW s (h1, sw2) = ((h2, sw3), Done tt) →
  sw_Offset sw3 - sw_Offset sw2 < uint64_mod →
  Size h1 s = Done (sw_Offset sw3 - sw_Offset sw2).
Proof.
  intros Hstyp Hsidx Hfrag Hfirst Hsecond Hfit.
  assert (Hflag : ∀ l f, Some l ∈ Fragments s → frags h1 !! l = Some f →
                         FragEncOptimize f = SegEncOptimize s).
  { rewrite EncodeSW_flat in Hfirst.
    apply (traversal_heap _ (SegEncOptimize s)) in Hfirst as [_ Hd];
      [|apply encodeSW_box_heap].
    apply (project_flagged s h). simpl in Hd. by rewrite (Hd eq_refl). }
  rewrite EncodeSW_flat in Hsecond. unfold bind in Hsecond.
  destruct (for_each (encodeSW_box (SegEncOptimize s)) (traversal s) (h1, sw2))
    as [[h3 sw4] [[] | e |]] eqn:Hfe; try done.
  unfold bucket_check in Hsecond. case_decide as Hlen; [|done].
  injection Hsecond as <- <-.
  assert (Hsum : sum_sizes h1 (traversal s) = Some (sw_Offset sw4 - sw_Offset sw2)).
  { eapply for_each_encodeSW_Done; [by apply writes_its_size_any | | exact Hfe].
    intros l f Hin Hl. apply RefFrag_in_traversal in Hin.
    specialize (Hflag l f Hin Hl). destruct f; simpl in *. by subst. }
  rewrite (Size_sum h1 s _ Hlen Hsum). f_equal. apply wrap64_small.
  apply sum_sizes_nonneg in Hsum. lia.
Qed.

(** ** More on [CommonSampleDuration] *)

(** After the first fragment: the loop runs through fragments that report
    [commonDur] and stops at the first that does not. *)
Lemma CommonSampleDuration_loop_agree h trex fs : ∀ i d,
  i ≠ 0%nat → Forall (λ frag, reported h trex frag = Done d) fs →
  range_from (CommonSampleDuration_body h trex) i fs d = (d, Done tt).
Proof.
  induction fs as [| frag fs IH]; intros i d Hi Hall; simpl; [done|].
  apply Forall_cons in Hall as [Hfrag Hall]. unfold bind.
  rewrite CommonSampleDuration_body_reported, Hfrag.
  rewrite decide_False, decide_True by done. apply IH; [lia | done].
Qed.

Lemma CommonSampleDuration_loop_stops h trex pre frag post : ∀ i d,
  i ≠ 0%nat → Forall (λ frag, reported h trex frag = Done d) pre →
  range_from (CommonSampleDuration_body h trex) i (pre ++ frag :: post) d
  = match reported h trex frag with
    | Done d' =>
        if decide (d = d')
        then range_from (CommonSampleDuration_body h trex)
                        (S (i + length pre)) post d
        else (d, Fail ("different common sample duration in fragment "
                       +:+ pretty (i + length pre + 1)%nat))
    | Fail e => (d, Fail ("fragment.CommonSampleDuration: " +:+ e))
    | Panic => (d, Panic)
    end.
Proof.
  induction pre as [| p pre IH]; intros i d Hi Hall; simpl.
  - unfold bind. rewrite CommonSampleDuration_body_reported.
    rewrite Nat.add_0_r.
    destruct (reported h trex frag) as [d' | e |]; try done.
    rewrite decide_False by done. by case_decide.
  - apply Forall_cons in Hall as [Hp Hall]. unfold bind.
    rewrite CommonSampleDuration_body_reported, Hp.
    rewrite decide_False, decide_True by done.
    rewrite IH by (lia || done).
    replace (S i + length pre)%nat with (i + S (length pre))%nat by lia. done.
Qed.

(** X15. With a trex box, when every fragment of a segment with at least
    one fragment reports the same common sample duration,
    [CommonSampleDuration] returns it and no error. *)
Theorem CommonSampleDuration_agreeing (h : Heap) (s : MediaSegment)
    (trex : TrexBox) (d : Z) :
  Fragments s ≠ [] →
  Forall (λ frag, reported h (Some trex) frag = Done d) (Fragments s) →
  CommonSampleDuration h s (Some trex) = Done d.
Proof.
  intros Hne Hall. unfold CommonSampleDuration, CommonSampleDuration_loop, range.
  destruct (Fragments s) as [| frag fs]; [done|].
  apply Forall_cons in Hall as [Hfrag Hall]. simpl. unfold bind.
  rewrite CommonSampleDuration_body_reported, Hfrag. rewrite decide_True by done.
  by rewrite CommonSampleDuration_loop_agree.
Qed.

(** X16. The error of a mismatch names the first fragment, counted from 1,
    whose common sample duration differs from that of the first fragment. *)
Theorem CommonSampleDuration_first_mismatch (h : Heap) (s : MediaSegment)
    (trex : TrexBox) (pre post : list ptr) (frag : ptr) (d d' : Z) :
  Fragments s = pre ++ frag :: post →
  pre ≠ [] →
  Forall (λ frag, reported h (Some trex) frag = Done d) pre →
  reported h (Some trex) frag = Done d' →
  d' ≠ d →
  CommonSampleDuration h s (Some trex)
  = Fail ("different common sample duration in fragment "
          +:+ pretty (length pre + 1)%nat).
Proof.
  intros HF Hne Hall Hfrag Hdd. unfold CommonSampleDuration, CommonSampleDuration_loop, range.
  rewrite HF. destruct pre as [| p pre]; [done|].
  apply Forall_cons in Hall as [Hp Hall]. simpl. unfold bind.
  rewrite CommonSampleDuration_body_reported, Hp. rewrite decide_True by done.
  rewrite CommonSampleDuration_loop_stops by (lia || done). rewrite Hfrag.
  rewrite decide_False by congruence. done.
Qed.

(** X17. When a fragment fails to report a common sample duration and the
    fragments before it agree, [CommonSampleDuration] returns that
    fragment's error behind the prefix "fragment.CommonSampleDuration: ";
    when the fragment pointer is nil instead, it panics. *)
Theorem CommonSampleDuration_fragment_failure (h : Heap) (s : MediaSegment)
    (trex : TrexBox) (pre post : list ptr) (frag : ptr) (d : Z) :
  Fragments s = pre ++ frag :: post →
  Forall (λ frag, reported h (Some trex) frag = Done d) pre →
  (∀ e, reported h (Some trex) frag = Fail e →
        CommonSampleDuration h s (Some trex)
        = Fail ("fragment.CommonSampleDuration: " +:+ e)) ∧
  (frag = None → CommonSampleDuration h s (Some trex) = Panic).
Proof.
  intros HF Hall.
  assert (Hgen : CommonSampleDuration h s (Some trex)
                 = match reported h (Some trex) frag with
                   | Fail e => Fail ("fragment.CommonSampleDuration: " +:+ e)
                   | Panic => Panic
                   | Done _ => CommonSampleDuration h s (Some trex)
                   end).
  { unfold CommonSampleDuration, CommonSampleDuration_loop, range. rewrite HF.
    destruct pre as [| p pre]; simpl.
    - unfold bind. rewrite CommonSampleDuration_body_reported.
      by destruct (reported h (Some trex) frag).
    - apply Forall_cons in Hall as [Hp Hall]. unfold bind.
      rewrite CommonSampleDuration_body_reported, Hp. rewrite decide_True by done.
      rewrite CommonSampleDuration_loop_stops by (lia || done).
      by destruct (reported h (Some trex) frag). }
  split.
  - intros e He. rewrite Hgen, He. done.
  - intros ->. rewrite Hgen. done.
Qed.

(** ** [FirstBox] and [NewMediaSegment] *)

(** X7. [FirstBox] fails, with "no boxes in segment", exactly when there is
    no styp box, bucket 0 is missing or empty, and there is no fragment or
    the first fragment has no child. *)
Theorem FirstBox_fails_iff (h : Heap) (s : MediaSegment) (e : error) :
  FirstBox h s = Fail e ↔
  e = "no boxes in segment" ∧ Styp s = None ∧
  (SidxsByFrag s = [] ∨ ∃ bs, SidxsByFrag s = [] :: bs) ∧
  (Fragments s = [] ∨
   ∃ f fs fr, Fragments s = f :: fs ∧ deref (frags h) f = Done fr ∧
              frag_Children fr = []).
Proof.
  unfold FirstBox. split.
  - destruct (Styp s); [done|].
    assert (Hb : (SidxsByFrag s = [] ∨ ∃ bs, SidxsByFrag s = [] :: bs) ∨
                 ∃ x b bs, SidxsByFrag s = (x :: b) :: bs).
    { destruct (SidxsByFrag s) as [| [| x b] bs]; eauto. }
    destruct Hb as [Hb | (x & b & bs & Hb)]; [|by rewrite Hb].
    assert (Hrest : match Fragments s with
                    | [] => Fail "no boxes in segment"
                    | f :: _ =>
                        match deref (frags h) f with
                        | Done fr =>
                            match frag_Children fr with
                            | [] => Fail "no boxes in segment"
                            | c :: _ => Done (BoxOfChild c)
                            end
                        | Fail e => Fail e
                        | Panic => Panic
                        end
                    end = Fail e →
                    e = "no boxes in segment" ∧
                    (Fragments s = [] ∨
                     ∃ f fs fr, Fragments s = f :: fs ∧ deref (frags h) f = Done fr ∧
                                frag_Children fr = [])).
    { destruct (Fragments s) as [| f fs]; [intros [= <-]; auto|].
      pose proof (deref_not_Fail (frags h) f) as Hnf.
      destruct (deref (frags h) f) as [fr | e' |] eqn:Hfr;
        [| by destruct (Hnf e') | done].
      destruct (frag_Children fr) eqn:Hc; [|done]. intros [= <-].
      split; [done|]. right. by exists f, fs, fr. }
    destruct Hb as [Hb | [bs Hb]]; rewrite Hb; intros [-> Hf]%Hrest; eauto 6.
  - intros (-> & -> & Hb & Hf).
    assert (Hrest : match Fragments s with
                    | [] => Fail "no boxes in segment"
                    | f :: _ =>
                        match deref (frags h) f with
                        | Done fr =>
                            match frag_Children fr with
                            | [] => Fail "no boxes in segment"
                            | c :: _ => Done (BoxOfChild c)
                            end
                        | Fail e => Fail e
                        | Panic => Panic
                        end
                    end = Fail "no boxes in segment").
    { destruct Hf as [-> | (f & fs & fr & -> & -> & ->)]; done. }
    by destruct Hb as [-> | [bs ->]].
Qed.

(** X8. On a segment built without styp box by [AddSidx] and [AddFragment]
    calls, a non-nil sidx box that [FirstBox] returns is the box that the
    [Sidx] field names. *)
Theorem FirstBox_sidx_is_Sidx (h : Heap) (cs : list Call) (s : MediaSegment) (l : loc) :
  run NewMediaSegmentWithoutStyp cs = Some s →
  FirstBox h s = Done (BoxOfSidx (Some l)) →
  Sidx s = Some l.
Proof.
  intros Hrun. destruct (run_Sidx_ok cs NewMediaSegmentWithoutStyp) as (s' & Hrun' & _ & HS).
  { split; [apply New_buckets_ok | done]. }
  rewrite Hrun in Hrun'. injection Hrun' as <-. rewrite HS.
  unfold FirstBox. destruct (Styp s); [done|].
  destruct (SidxsByFrag s) as [| [| x b] bs]; simpl.
  - destruct (Fragments s) as [| f fs]; [done|].
    destruct (deref (frags h) f) as [fr | |]; try done. by destruct (frag_Children fr).
  - destruct (Fragments s) as [| f fs]; [done|].
    destruct (deref (frags h) f) as [fr | |]; try done. by destruct (frag_Children fr).
  - by intros [= ->].
Qed.

(** X9. On a segment with a bucket for every fragment, [FirstBox] follows
    the order of the traversals but looks inside a fragment.  It returns the
    styp or sidx box that the traversals visit first.  When the traversals
    visit a fragment first, it returns the first child of that fragment; it
    fails with "no boxes in segment" when that fragment has no child,
    although the traversals visit the fragment, and it panics when the
    fragment pointer is nil.  When the traversals visit nothing, it returns
    the first pending sidx box, and fails when there is none. *)
Theorem FirstBox_heads_traversal (h : Heap) (s : MediaSegment) :
  (length (Fragments s) ≤ length (SidxsByFrag s))%nat →
  FirstBox h s =
  match head (traversal s) with
  | Some (RefStyp p) => Done (BoxOfStyp p)
  | Some (RefSidx p) => Done (BoxOfSidx p)
  | Some (RefFrag f) =>
      match deref (frags h) f with
      | Done fr =>
          match frag_Children fr with
          | c :: _ => Done (BoxOfChild c)
          | [] => Fail "no boxes in segment"
          end
      | Fail e => Fail e
      | Panic => Panic
      end
  | None =>
      match pending s with
      | sidx :: _ => Done (BoxOfSidx sidx)
      | [] => Fail "no boxes in segment"
      end
  end.
Proof.
  unfold FirstBox, traversal, pending. intros Hlen.
  destruct (Styp s) as [l|]; [done|].
  destruct (Fragments s) as [| f fs]; simpl.
  - by destruct (SidxsByFrag s) as [| [| x bk] bs].
  - destruct (SidxsByFrag s) as [| [| x bk] bs]; simpl in *; [lia | done..].
Qed.

(** X22. [NewMediaSegment] adds one styp box, the one that [CreateStyp]
    builds, at an address that was free, and leaves the rest of the store as
    it is; the segment it returns has that box as its [FirstBox] and as the
    only box of its traversal, and [Encode] of it is [Encode] of that box. *)
Theorem NewMediaSegment_is_styp_only (h : Heap) :
  ∃ l h', NewMediaSegment h = (h', Done (NewMediaSegmentWithStyp (Some l))) ∧
          styps h !! l = None ∧
          styps h' = <[l := CreateStyp]> (styps h) ∧
          sidxs h' = sidxs h ∧ frags h' = frags h ∧
          FirstBox h' (NewMediaSegmentWithStyp (Some l)) = Done (BoxOfStyp (Some l)) ∧
          traversal (NewMediaSegmentWithStyp (Some l)) = [RefStyp (Some l)] ∧
          Size h' (NewMediaSegmentWithStyp (Some l))
          = Done (wrap64 (box_Size CreateStyp)) ∧
          ∀ w, Encode (NewMediaSegmentWithStyp (Some l)) (h', w)
               = on_target (box_Encode CreateStyp) (h', w).
Proof.
  exists (fresh (dom (styps h))). eexists. split; [reflexivity|].
  assert (Hl : styps h !! fresh (dom (styps h)) = None).
  { apply not_elem_of_dom. apply is_fresh. }
  repeat split; try done.
  - unfold Size, Size_walk. simpl. unfold bind, load_styp. simpl.
    rewrite lookup_insert_eq. simpl. by rewrite Z.add_0_l.
  - intros w. unfold Encode. simpl. unfold bind, load_styp. simpl.
    rewrite lookup_insert_eq. unfold on_target. simpl.
    by destruct (box_Encode CreateStyp w) as [w' [[] | e |]].
Qed.

(** ** More on [Fragmentify] *)

(** With a target of zero every sample closes its fragment. *)
Lemma foldl_place_zero xs : ∀ gs,
  foldl (place 0) (gs, 0) xs = (gs ++ ((λ x, [x]) <$> xs), 0).
Proof.
  induction xs as [| x xs IH]; intros gs; simpl; [by rewrite app_nil_r|].
  unfold place at 2. simpl. rewrite add_last_snoc. simpl.
  rewrite decide_True.
  - rewrite IH. by rewrite <- app_assoc.
  - unfold wrap32, uint32_mod.
    pose proof (Z.mod_pos_bound (0 + Dur x.2) (2 ^ 32) eq_refl). lia.
Qed.

(** A group whose samples before the last stay under the target: the
    fragment was closed by the first sample that reached it. *)
Lemma place_tight duration gs c x :
  0 <= Dur x.2 → c + Dur x.2 < uint32_mod →
  tight_groups duration (gs, c) → tight_groups duration (place duration (gs, c) x).
Proof.
  unfold tight_groups, place. simpl. intros Hx Hsmall (Hc0 & Hnil & Hlast).
  assert (Hw : wrap32 (c + Dur x.2) = c + Dur x.2).
  { apply wrap32_small. unfold is_uint32. lia. }
  rewrite Hw.
  assert (Hall : c = 0 → Forall (tight duration) gs).
  { intros Hc. destruct gs as [| g0 gs0 _] using rev_ind; [constructor|].
    destruct (Hlast gs0 g0 eq_refl) as (Hall & Hg0 & _).
    apply Forall_app. split; [done|]. by constructor. }
  destruct (decide (c = 0)) as [-> | Hc].
  - rewrite add_last_snoc. simpl. split; [|split].
    + case_decide; lia.
    + intros Heq. by destruct gs.
    + intros gs' g [<- <-]%app_inj_tail. split; [auto|]. split.
      * intros g0 y Heq Hne. destruct g0 as [| z g0]; [done|].
        destruct g0; simplify_eq.
      * case_decide as Hge; [done|]. intros _.
        unfold total_dur. simpl. lia.
  - destruct gs as [| g0 gs0 _] using rev_ind; [by specialize (Hnil eq_refl)|].
    destruct (Hlast gs0 g0 eq_refl) as (Hall0 & Hg0 & Hopen).
    destruct (Hopen Hc) as [Hcg Hlt].
    rewrite add_last_snoc. split; [|split].
    + case_decide; lia.
    + intros Heq. by destruct gs0.
    + intros gs' g [<- <-]%app_inj_tail. split; [done|]. split.
      * intros g1 y [<- <-]%app_inj_tail _. lia.
      * case_decide as Hge; [done|]. intros _.
        rewrite total_dur_app. unfold total_dur at 2. simpl. lia.
Qed.

Lemma foldl_place_tight duration xs : ∀ gs c,
  Forall (λ x, 0 <= Dur x.2) xs → c + total_dur xs < uint32_mod →
  tight_groups duration (gs, c) →
  tight_groups duration (foldl (place duration) (gs, c) xs).
Proof.
  induction xs as [| x xs IH]; intros gs c Hxs Hsmall Hacc; simpl; [done|].
  apply Forall_cons in Hxs as [Hx Hxs].
  assert (Hrest : 0 <= total_dur xs).
  { clear -Hxs. unfold total_dur. induction Hxs; simpl; lia. }
  assert (Htot : c + Dur x.2 + total_dur xs < uint32_mod).
  { unfold total_dur in *. simpl in Hsmall. lia. }
  pose proof (place_tight duration gs c x Hx) as Hstep.
  destruct (place duration (gs, c) x) as [gs1 c1] eqn:Hp.
  apply IH; try done.
  - assert (c1 <= c + Dur x.2).
    { destruct Hacc as (Hc0 & _). simpl in Hc0.
      unfold place in Hp. simpl in Hp.
      rewrite wrap32_small in Hp by (unfold is_uint32; lia).
      injection Hp as _ Hc1. clear Hstep.
      destruct (decide (c + Dur x.2 >= duration)); lia. }
    lia.
  - apply Hstep; [lia | done].
Qed.

Lemma grouping_tight duration xs :
  Forall (λ x, 0 <= Dur x.2) xs → total_dur xs < uint32_mod →
  Forall (tight duration) (grouping duration xs).1.
Proof.
  intros Hxs Hsmall.
  destruct (foldl_place_tight duration xs [] 0 Hxs) as (_ & _ & Hlast).
  - lia.
  - split; [done|]. split; [done|]. intros gs' g Heq. by destruct gs'.
  - fold (grouping duration xs) in Hlast.
    destruct (grouping duration xs).1 as [| g gs _] using rev_ind; [constructor|].
    destruct (Hlast gs g eq_refl) as (Hall & Hg & _).
    apply Forall_app. split; [done|]. by constructor.
Qed.

Section MoreRefragmentation.

Hypothesis CreateFragment_empty :
  ∀ seq trackID f, CreateFragment seq trackID = Done f → frag_samples f = [].
Hypothesis AddFullSampleToTrack_appends :
  ∀ smp trackID f f', AddFullSampleToTrack smp trackID f = (f', Done tt) →
                      frag_samples f' = frag_samples f ++ [(trackID, smp)].

(** The state in which a successful [Fragmentify] ends. *)
Lemma Fragmentify_final s timescale trex duration h h' out :
  no_dangling (frags h) (Fragments s) →
  Fragmentify s timescale trex duration h = (h', Done out) →
  ∃ xs st, extracted (frags h) trex (Fragments s) = Some xs ∧
           heap st = h' ∧ outFragments st = out ∧
           Fragmentify_inv h (grouping duration xs).1 st.
Proof.
  intros Hvalid. unfold Fragmentify.
  destruct (for_each _ _ _) as [st [[] | e |]] eqn:Hrun; try done.
  intros [= <- <-].
  destruct (for_each_split_fragment_inv CreateFragment_empty
              AddFullSampleToTrack_appends h trex duration (Fragments s) []
              (mkFragmentifyState h [] None 0) st) as (xs & Hxs & Hinv & Hc); try done.
  { repeat split; simpl; try done.
    - apply NoDup_nil_2.
    - intros l Hl. by apply elem_of_nil in Hl. }
  by exists xs, st.
Qed.

Lemma samples_at_length m ps gs : samples_at m ps = Some gs → length gs = length ps.
Proof.
  revert gs. induction ps as [| [l|] ps IH]; intros gs; simpl.
  - by intros [= <-].
  - destruct (m !! l); [|done]. destruct (samples_at m ps) as [rest|]; [|done].
    intros [= <-]. simpl. f_equal. by apply IH.
  - done.
Qed.

Lemma samples_at_not_nil m ps gs : samples_at m ps = Some gs → None ∉ ps.
Proof.
  revert gs. induction ps as [| [l|] ps IH]; intros gs; simpl.
  - intros _ Hin. by apply elem_of_nil in Hin.
  - destruct (m !! l); [|done]. destruct (samples_at m ps) as [rest|]; [|done].
    intros _ Hin. apply elem_of_cons in Hin as [? | Hin]; [done|]. by eapply IH.
  - done.
Qed.

(** X18. A successful [Fragmentify] leaves the fragments of the store as
    they were; the fragments it returns are new, non-nil and pairwise
    distinct. *)
Theorem Fragmentify_returns_new_fragments (s : MediaSegment) (timescale : Z)
    (trex : option TrexBox) (duration : Z) (h h' : Heap) (out : list ptr) :
  no_dangling (frags h) (Fragments s) →
  Fragmentify s timescale trex duration h = (h', Done out) →
  (∀ l, is_Some (frags h !! l) → frags h' !! l = frags h !! l) ∧
  NoDup out ∧
  ∀ p, p ∈ out → ∃ l, p = Some l ∧ frags h !! l = None ∧ is_Some (frags h' !! l).
Proof.
  intros Hvalid Hrun.
  destruct (Fragmentify_final _ _ _ _ _ _ _ Hvalid Hrun)
    as (xs & st & _ & <- & <- & Hagree & Hnd & Hnew & _ & Hgs).
  split; [done|]. split; [done|]. intros [l|] Hin.
  - exists l. split; [done|]. split; [by apply Hnew|]. by eapply samples_at_Some.
  - by apply samples_at_not_nil in Hgs.
Qed.

(** X19. With a target duration of zero, a successful [Fragmentify] returns
    one fragment for each sample. *)
Theorem Fragmentify_zero_target (s : MediaSegment) (timescale : Z)
    (trex : option TrexBox) (h h' : Heap) (out : list ptr) :
  no_dangling (frags h) (Fragments s) →
  Fragmentify s timescale trex 0 h = (h', Done out) →
  ∃ xs, extracted (frags h) trex (Fragments s) = Some xs ∧
        samples_at (frags h') out = Some ((λ x, [x]) <$> xs) ∧
        length out = length xs.
Proof.
  intros Hvalid Hrun.
  destruct (Fragmentify_final _ _ _ _ _ _ _ Hvalid Hrun)
    as (xs & st & Hxs & <- & <- & _ & _ & _ & _ & Hgs).
  exists xs. split; [done|].
  unfold grouping in Hgs. rewrite foldl_place_zero in Hgs. simpl in Hgs.
  split; [done|]. apply samples_at_length in Hgs. by rewrite length_fmap in Hgs.
Qed.


(** X21. When no sample has duration zero, the target is a lower bound for
    every fragment but the last: in a successful [Fragmentify] each returned
    fragment except possibly the last holds samples whose durations sum to
    the target or more. *)
Theorem Fragmentify_reaches_target (s : MediaSegment) (timescale : Z)
    (trex : option TrexBox) (duration : Z) (h h' : Heap) (out : list ptr)
    (xs : list (Z * FullSample)) :
  is_uint32 duration →
  no_dangling (frags h) (Fragments s) →
  extracted (frags h) trex (Fragments s) = Some xs →
  Forall (λ x, 0 < Dur x.2 < uint32_mod) xs →
  Fragmentify s timescale trex duration h = (h', Done out) →
  ∃ gs, samples_at (frags h') out = Some gs ∧
        ∀ gs' g, gs = gs' ++ [g] → Forall (λ g', duration <= total_dur g') gs'.
Proof.
  intros Hd Hvalid Hxs Hpos Hrun.
  destruct (Fragmentify_final _ _ _ _ _ _ _ Hvalid Hrun)
    as (xs' & st & Hxs' & <- & <- & _ & _ & _ & _ & Hgs).
  rewrite Hxs in Hxs'. injection Hxs' as <-.
  exists (grouping duration xs).1. split; [done|].
  destruct (grouping_groups duration xs Hd) as (_ & _ & _ & Hlast).
  { eapply Forall_impl; [exact Hpos|]. unfold is_uint32. simpl. lia. }
  intros gs' g Heq. destruct (Hlast gs' g Heq) as (Hall & _).
  pose proof (grouping_concat duration xs) as Hcat. rewrite Heq, concat_app in Hcat.
  assert (Hin : Forall (λ g', Forall (λ x, 0 < Dur x.2 < uint32_mod) g') gs').
  { rewrite <- Hcat in Hpos. apply Forall_app in Hpos as [Hpos _].
    clear -Hpos. induction gs' as [| g' gs' IH]; [constructor|].
    simpl in Hpos. apply Forall_app in Hpos as [Hg' Hrest]. constructor; auto. }
  clear -Hall Hin. induction Hall as [| g' gs' Hg' _ IH]; [constructor|].
  apply Forall_cons in Hin as [Hg'pos Hin]. constructor; [|by apply IH].
  destruct Hg' as [Hge | (x & -> & Hz)]; [done|].
  apply Forall_cons in Hg'pos as [Hx _]. lia.
Qed.

End MoreRefragmentation.

End MoreProofs.

(** * The rest of the code on concrete segments *)

(** Two sidx boxes and two fragments, interleaved. *)
Lemma traversal_is_call_order_witness :
  ∃ s, run (NewMediaSegmentWithStyp (Some 7%positive))
           [CallAddSidx (Some 8%positive); CallAddFragment (Some 1%positive);
            CallAddSidx (Some 9%positive); CallAddFragment (Some 2%positive)] = Some s ∧
       traversal s = [RefStyp (Some 7%positive); RefSidx (Some 8%positive);
                      RefFrag (Some 1%positive); RefSidx (Some 9%positive);
                      RefFrag (Some 2%positive)].
Proof.
  destruct (traversal_is_call_order (Some 7%positive)
              [CallAddSidx (Some 8%positive); CallAddFragment (Some 1%positive);
               CallAddSidx (Some 9%positive); CallAddFragment (Some 2%positive)])
    as (s & Hrun & _ & Hlast).
  exists s. split; [exact Hrun|].
  exact (Hlast [CallAddSidx (Some 8%positive); CallAddFragment (Some 1%positive);
                CallAddSidx (Some 9%positive)] (Some 2%positive) eq_refl).
Defined.

(** A sidx box appended after the only fragment. *)
Lemma AddSidx_is_pending_witness :
  let f := Demo.fragment OptimizeNone [1; 2; 3] [9] (Done 1) None in
  let h := Demo.store_of [] [(8%positive, [6])] [(1%positive, f)] in
  @Size _ Demo.collaborators h
    (mkMediaSegment None (Some 8%positive) [[]; [Some 8%positive]] [Some 1%positive]
                    OptimizeNone 0)
  = Done 3.
Proof.
  intros f h.
  destruct (@AddSidx_is_pending _ Demo.collaborators
              (Demo.segment OptimizeNone [[]] [Some 1%positive])
              (mkMediaSegment None (Some 8%positive) [[]; [Some 8%positive]]
                              [Some 1%positive] OptimizeNone 0)
              (Some 8%positive) h (or_introl eq_refl) eq_refl) as (HSize & _).
  rewrite HSize. vm_compute. reflexivity.
Defined.

(** A fragment appended after a pending sidx box. *)
Lemma Size_AddFragment_witness :
  let f1 := Demo.fragment OptimizeNone [1; 2; 3] [9] (Done 1) None in
  let f2 := Demo.fragment OptimizeNone [4; 5] [8] (Done 1) None in
  let h := Demo.store_of [] [(8%positive, [6])] [(1%positive, f1); (2%positive, f2)] in
  let s := mkMediaSegment None (Some 8%positive) [[]; [Some 8%positive]]
             [Some 1%positive] OptimizeNone 0 in
  @Size _ Demo.collaborators h (AddFragment s (Some 2%positive)) = Done 6.
Proof.
  intros f1 f2 h s.
  apply (@Size_AddFragment _ Demo.collaborators h s (Some 2%positive) 3 1 2).
  - right. reflexivity.
  - vm_compute. reflexivity.
  - vm_compute. reflexivity.
  - vm_compute. reflexivity.
Defined.

(** A sidx box and nothing else. *)
Lemma pending_sidx_not_written_witness :
  let h := Demo.store_of [] [(8%positive, [6])] [] in
  let s := mkMediaSegment None (Some 8%positive) [[Some 8%positive]] [] OptimizeNone 0 in
  @Size _ Demo.collaborators h s = Done 0 ∧
  @Encode _ Demo.collaborators s (h, []) = ((h, []), Done tt) ∧
  @FirstBox _ DemoTree.tree h s = Done (BoxOfSidx (Some 8%positive)).
Proof.
  intros h s.
  destruct (@pending_sidx_not_written _ Demo.collaborators DemoTree.tree h s
              eq_refl eq_refl) as (HSize & HEncode & _ & _ & HFirst).
  split; [exact HSize|]. split; [apply HEncode|].
  exact (HFirst (Some 8%positive) [] [] eq_refl).
Defined.

(** Encoding the same segment twice. *)
Lemma encoding_again_keeps_store_witness :
  let f := Demo.fragment OptimizeNone [1; 2; 3] [9] (Done 1) None in
  let h := Demo.store [(1%positive, f)] in
  let s := Demo.segment OptimizeTrun [[]] [Some 1%positive] in
  let h1 := (@Encode _ Demo.collaborators s (h, [])).1.1 in
  (@Encode _ Demo.collaborators s (h1, [])).1.1 = h1 ∧
  (@EncodeSW _ Demo.collaborators s (h1, [])).1.1 = h1.
Proof.
  intros f h s h1.
  destruct (@encoding_again_keeps_store _ Demo.collaborators s h h1) as [HEncode _].
  destruct (HEncode [] (@Encode _ Demo.collaborators s (h, [])).1.2) as [H1 H2].
  { vm_compute. reflexivity. }
  split; [apply H1 | apply H2].
Defined.

(** A fragment whose size depends on [EncOptimize]: after one encoding
    [Size] is the one byte that the next encoding writes. *)
Lemma Size_exact_after_encoding_witness :
  let f := Demo.fragment OptimizeNone [1; 2; 3] [9] (Done 1) None in
  let h := Demo.store [(1%positive, f)] in
  let s := Demo.segment OptimizeTrun [[]] [Some 1%positive] in
  let h1 := (@EncodeSW _ Demo.collaborators s (h, [])).1.1 in
  @Size _ Demo.collaborators h1 s = Done 1.
Proof.
  intros f h s h1.
  pose (r1 := @EncodeSW _ Demo.collaborators s (h, [])).
  pose (r2 := @EncodeSW _ Demo.collaborators s (h1, [])).
  rewrite (@Size_exact_after_encoding _ Demo.collaborators s h h1 r2.1.1 [] r1.1.2 []
             r2.1.2 Demo_bytes_EncodeSW Demo_bytes_EncodeSW Demo_fragment_EncodeSW).
  - vm_compute. reflexivity.
  - vm_compute. reflexivity.
  - vm_compute. reflexivity.
  - vm_compute. reflexivity.
Defined.

(** Three fragments that report 90000. *)
Lemma CommonSampleDuration_agreeing_witness :
  let f := Demo.fragment OptimizeNone [] [] (Done 90000) None in
  let h := Demo.store [(1%positive, f); (2%positive, f); (3%positive, f)] in
  let s := Demo.segment OptimizeNone [[]; []; []]
             [Some 1%positive; Some 2%positive; Some 3%positive] in
  @CommonSampleDuration _ Demo.collaborators h s (Some tt) = Done 90000.
Proof.
  intros f h s.
  apply (@CommonSampleDuration_agreeing _ Demo.collaborators h s tt 90000).
  - discriminate.
  - vm_compute. repeat constructor.
Defined.

(** The third of four fragments differs. *)
Lemma CommonSampleDuration_first_mismatch_witness :
  let f d := Demo.fragment OptimizeNone [] [] (Done d) None in
  let h := Demo.store [(1%positive, f 1024); (2%positive, f 1024);
                       (3%positive, f 2048); (4%positive, f 512)] in
  let s := Demo.segment OptimizeNone [[]; []; []; []]
             [Some 1%positive; Some 2%positive; Some 3%positive; Some 4%positive] in
  @CommonSampleDuration _ Demo.collaborators h s (Some tt)
  = Fail "different common sample duration in fragment 3".
Proof.
  intros f h s.
  apply (@CommonSampleDuration_first_mismatch _ Demo.collaborators h s tt
           [Some 1%positive; Some 2%positive] [Some 4%positive] (Some 3%positive)
           1024 2048).
  - reflexivity.
  - discriminate.
  - vm_compute. repeat constructor.
  - vm_compute. reflexivity.
  - discriminate.
Defined.

(** The second fragment cannot report a duration. *)
Lemma CommonSampleDuration_fragment_failure_witness :
  let f c := Demo.fragment OptimizeNone [] [] c None in
  let h := Demo.store [(1%positive, f (Done 1024)); (2%positive, f (Fail "no samples"))] in
  let s := Demo.segment OptimizeNone [[]; []] [Some 1%positive; Some 2%positive] in
  @CommonSampleDuration _ Demo.collaborators h s (Some tt)
  = Fail "fragment.CommonSampleDuration: no samples".
Proof.
  intros f h s.
  destruct (@CommonSampleDuration_fragment_failure _ Demo.collaborators h s tt
              [Some 1%positive] [] (Some 2%positive) 1024 eq_refl) as [HFail _].
  - vm_compute. repeat constructor.
  - apply (HFail "no samples"). vm_compute. reflexivity.
Defined.

(** A sidx box before the first fragment. *)
Lemma FirstBox_sidx_is_Sidx_witness :
  ∃ s, run NewMediaSegmentWithoutStyp
           [CallAddSidx (Some 8%positive); CallAddFragment (Some 1%positive);
            CallAddSidx (Some 9%positive)] = Some s ∧
       Sidx s = Some 8%positive.
Proof.
  eexists. split; [reflexivity|].
  apply (@FirstBox_sidx_is_Sidx _ DemoTree.tree (Demo.store [])
           [CallAddSidx (Some 8%positive); CallAddFragment (Some 1%positive);
            CallAddSidx (Some 9%positive)]).
  - reflexivity.
  - reflexivity.
Defined.

(** No styp box, no sidx box.  The first child of the first fragment; and
    a first fragment without children, which [Encode] writes and [FirstBox]
    does not find. *)
Lemma FirstBox_heads_traversal_witness :
  let f := Demo.fragment OptimizeNone [1; 2; 3] [9] (Done 1) None in
  let g := Demo.fragment OptimizeNone [] [9] (Done 1) None in
  let h := Demo.store [(1%positive, f); (2%positive, g)] in
  let s := Demo.segment OptimizeNone [[]; []] [Some 1%positive; Some 2%positive] in
  let s' := Demo.segment OptimizeTrun [[]; []] [Some 2%positive; Some 1%positive] in
  @FirstBox _ DemoTree.tree h s
  = Done (@BoxOfChild Demo.types DemoTree.tree [1]) ∧
  @FirstBox _ DemoTree.tree h s' = Fail "no boxes in segment" ∧
  head (traversal s') = Some (RefFrag (Some 2%positive)) ∧
  (@Encode _ Demo.collaborators s' (h, [])).2 = Done tt ∧
  (@Encode _ Demo.collaborators s' (h, [])).1.2 = [9; 9].
Proof.
  intros f g h s s'.
  rewrite (@FirstBox_heads_traversal _ DemoTree.tree h s)
    by (simpl; lia).
  rewrite (@FirstBox_heads_traversal _ DemoTree.tree h s')
    by (simpl; lia).
  vm_compute. repeat split; reflexivity.
Defined.

(** A run of [Fragmentify] over two input fragments, target 10. *)
Lemma Fragmentify_returns_new_fragments_witness :
  let h := Demo.store [(1%positive, Demo.fragment_of 3 [4; 5; 7; 2]);
                       (2%positive, Demo.fragment_of 4 [10; 1])] in
  let s := Demo.segment OptimizeNone [[]; []] [Some 1%positive; Some 2%positive] in
  let r := @Fragmentify _ Demo.collaborators s 90000 None 10 h in
  (∀ l, is_Some (frags h !! l) → frags r.1 !! l = frags h !! l) ∧
  NoDup [Some 3%positive; Some 4%positive; Some 5%positive] ∧
  ∀ p, p ∈ [Some 3%positive; Some 4%positive; Some 5%positive] →
       ∃ l, p = Some l ∧ frags h !! l = None ∧ is_Some (frags r.1 !! l).
Proof.
  intros h s r.
  apply (@Fragmentify_returns_new_fragments _ Demo.collaborators
           Demo_CreateFragment_empty Demo_AddFullSampleToTrack_appends
           s 90000 None 10 h r.1).
  - apply Demo_no_dangling. vm_compute. reflexivity.
  - vm_compute. reflexivity.
Defined.

(** The same input with target 0: six samples, six fragments. *)
Lemma Fragmentify_zero_target_witness :
  let h := Demo.store [(1%positive, Demo.fragment_of 3 [4; 5; 7; 2]);
                       (2%positive, Demo.fragment_of 4 [10; 1])] in
  let s := Demo.segment OptimizeNone [[]; []] [Some 1%positive; Some 2%positive] in
  let r := @Fragmentify _ Demo.collaborators s 90000 None 0 h in
  let out := [Some 3%positive; Some 4%positive; Some 5%positive; Some 6%positive;
              Some 7%positive; Some 8%positive] in
  ∃ xs, @extracted _ Demo.collaborators (frags h) None (Fragments s) = Some xs ∧
        @samples_at _ Demo.collaborators (frags r.1) out = Some ((λ x, [x]) <$> xs) ∧
        length out = length xs.
Proof.
  intros h s r out.
  apply (@Fragmentify_zero_target _ Demo.collaborators
           Demo_CreateFragment_empty Demo_AddFullSampleToTrack_appends
           s 90000 None h r.1 out).
  - apply Demo_no_dangling. vm_compute. reflexivity.
  - vm_compute. reflexivity.
Defined.


Lemma Fragmentify_reaches_target_witness :
  let h := Demo.store [(1%positive, Demo.fragment_of 3 [4; 5; 7; 2]);
                       (2%positive, Demo.fragment_of 4 [10; 1])] in
  let s := Demo.segment OptimizeNone [[]; []] [Some 1%positive; Some 2%positive] in
  let r := @Fragmentify _ Demo.collaborators s 90000 None 10 h in
  let out := [Some 3%positive; Some 4%positive; Some 5%positive] in
  ∃ gs, @samples_at _ Demo.collaborators (frags r.1) out = Some gs ∧
        ∀ gs' g, gs = gs' ++ [g] → Forall (λ g', 10 <= total_dur g') gs'.
Proof.
  intros h s r out.
  apply (@Fragmentify_reaches_target _ Demo.collaborators
           Demo_CreateFragment_empty Demo_AddFullSampleToTrack_appends
           s 90000 None 10 h r.1 out
           ((λ d, (1, Demo.sample d)) <$> [4; 5; 7; 2; 10; 1])).
  - vm_compute. split; [discriminate | reflexivity].
  - apply Demo_no_dangling. vm_compute. reflexivity.
  - vm_compute. reflexivity.
  - repeat (constructor; [simpl; unfold uint32_mod; lia|]). constructor.
  - vm_compute. reflexivity.
Defined.
